(** * Gaming Hub: the tick loops, timers and score gateways of the mini-games

    A shallow embedding of the game scripts of the Gaming Hub site
    (Snake, Endless Runner, Whack-a-Mole, Image Puzzle, Tic-Tac-Toe,
    Memory) and the properties of their session controls, deferred
    callbacks, high-score persistence, entity rules and state invariants.
    The first part embeds the scripts, one [Module] per game; the second
    part states and proves the properties, one [Module] per subject.

    Conventions of the embedding.
    - Every script keeps its state in top-level [let] variables; the
      [State] record of a game holds those variables, the part of the DOM
      the rules read back (class lists, text displays), the browser's timer
      table and [localStorage].
    - A handler is a function on [State]; the events of a game ([Event])
      are the clicks, key presses and timer firings the page can receive,
      and [step] dispatches them as the listeners registered at load do.
    - Integer-valued JavaScript numbers (scores, counters, grid cells) are
      [Z].  The other numbers (positions, speeds, [Math.random()]) are
      IEEE 754 doubles, embedded in [Q] by their exact value: an
      arithmetic result that need not be a double again (a product with a
      draw, a sum with the gravity 0.8) is rounded to the nearest double,
      ties to even ([round53]).  Sums and differences of pixel counts and
      of multiples of one half (canvas sizes, the ground level, obstacle
      coordinates, the game speed) are exact in doubles and are written
      without the rounding, as are comparisons of whole numbers with
      [canvas.width / 10].  No value of the games comes near the overflow
      threshold of doubles, which is not modelled.
    - [Math.random()] is an input: the handlers take the draws they
      consume as arguments, and a sampling loop has as many rounds as it is
      given draws.
    - A handler that would read a property of [undefined] throws; a run of
      events ends at the first handler that does not return.
    - Canvas drawing calls ([ctx.fillRect] and the like) and [alert] write
      to a surface that no rule reads; they are not part of the state. *)

From Stdlib Require Import ZArith QArith Qround Qpower Qreduction Lia Lqa.
From Stdlib Require Import DecimalString DecimalPos DecimalZ.
From stdpp Require Import gmap strings list fin_maps.

Local Open Scope Z_scope.

(** ** The JavaScript runtime pieces the games rely on *)

Module Js.

(** A value of a variable that holds either a number or a string, such as
    [highScore] after [localStorage.getItem(..) || 0]. *)
Inductive JsVal : Type :=
| JNum (n : Z)
| JStr (s : string).

(** [String(n)] for an integer [n]. *)
Definition NumberToString (n : Z) : string :=
  NilZero.string_of_int (Z.to_int n).

(** What [el.textContent = v] stores. *)
Definition ToString (v : JsVal) : string :=
  match v with
  | JNum n => NumberToString n
  | JStr s => s
  end.

(** [localStorage.getItem(key) || 0]: [null] and the empty string are
    falsy, every other string is truthy and is the value of the
    expression. *)
Definition orZero (item : option string) : JsVal :=
  match item with
  | None => JNum 0
  | Some s => if decide (s = EmptyString) then JNum 0 else JStr s
  end.

(** The relational comparison [n > s] of a number with a string converts
    the string with the runtime's [ToNumber].  The conversion is the
    browser's, not the repository's: it is an interface here, pinned down
    where a property needs it ([ReadsDecimals]). *)
Class Runtime : Type := {
  numGtStr : Z -> string -> bool
}.

(** What every runtime does on the strings the games write themselves:
    the numeral of a natural number converts back to that number. *)
Definition ReadsDecimals (rt : Runtime) : Prop :=
  forall n h : Z, 0 <= h -> numGtStr n (NumberToString h) = (h <? n).

(** A runtime to evaluate examples with: it converts the empty string to
    0 and decimal numerals to their value, and takes every other string
    for [NaN], which compares false. *)
Definition decimalRuntime : Runtime :=
  {| numGtStr := fun n s =>
       if decide (s = EmptyString) then 0 <? n
       else
         match NilZero.int_of_string s with
         | Some d => Z.of_int d <? n
         | None => false
         end |}.

(** [n > v] for a number [n]. *)
Definition gt `{Runtime} (n : Z) (v : JsVal) : bool :=
  match v with
  | JNum h => h <? n
  | JStr s => numGtStr n s
  end.

(** *** Doubles

    A finite double is a rational [m * 2^e] with a mantissa [m] of at most
    53 bits and [-1074 <= e]. *)

Definition pow2 (e : Z) : Q := (2 ^ e)%Q.

(** The binary exponent of a positive number: [2^e <= x < 2^(e+1)]. *)
Definition expo (x : Q) : Z :=
  let a := Z.log2 (Qnum x) - Z.log2 (Zpos (Qden x)) in
  if Qle_bool (pow2 a) x then a else a - 1.

(** The nearest whole number, a tie going to the even one. *)
Definition rne (q : Q) : Z :=
  let f := Qfloor q in
  match (q - inject_Z f ?= 1 # 2)%Q with
  | Lt => f
  | Gt => f + 1
  | Eq => if Z.even f then f else f + 1
  end.

(** The unit in the last place of the doubles around [x]: 52 bits below
    the exponent, which is at least that of the subnormal numbers. *)
Definition ulp (x : Q) : Q := pow2 (Z.max (expo x) (-1022) - 52).

Definition roundPos (x : Q) : Q := (inject_Z (rne (x / ulp x)) * ulp x)%Q.

(** The double nearest to [x], ties to even: the result of an arithmetic
    operation whose exact value is [x], and the value of a decimal
    literal [x]. *)
Definition round53 (x : Q) : Q :=
  Qred (match (x ?= 0)%Q with
        | Eq => 0
        | Gt => roundPos x
        | Lt => - roundPos (- x)
        end)%Q.

Definition isDouble (q : Q) : Prop := (round53 q == q)%Q.

(** [Math.floor(r * k)]: the floor of the double product. *)
Definition floorMul (r k : Q) : Z := Qfloor (round53 (r * k)).

(** The values [Math.random()] can return: the doubles of [0, 1). *)
Definition unitInterval (r : Q) : Prop :=
  isDouble r /\ (0 <= r)%Q /\ (r < 1)%Q.

(** The same as a test, to run on an example. *)
Definition unitIntervalb (r : Q) : bool :=
  Qeq_bool (round53 r) r && Qle_bool 0 r && negb (Qle_bool 1 r).

(** Outcome of a handler: it returns, it throws a [TypeError] (reading a
    property of [undefined]), or the supplied random draws ran out while a
    sampling loop was still rejecting. *)
Inductive result (A : Type) : Type :=
| Ok (a : A)
| TypeError
| Starved.
Arguments Ok {A} a.
Arguments TypeError {A}.
Arguments Starved {A}.

#[export] Instance result_ret : MRet result := fun A a => Ok a.

#[export] Instance result_bind : MBind result := fun A B k r =>
  match r with
  | Ok a => k a
  | TypeError => TypeError
  | Starved => Starved
  end.

(** *** The timer table behind [setInterval], [setTimeout], [clearInterval] *)

Section Timers.
Context {C : Type}.

Record Task : Type := mkTask {
  repeat : bool;      (* [setInterval] (true) or [setTimeout] (false) *)
  delay : Q;          (* milliseconds *)
  callback : C
}.

Record Timers : Type := mkTimers {
  nextId : nat;
  active : gmap nat Task
}.

Definition noTimers : Timers := {| nextId := 1; active := ∅ |}.

Definition schedule (t : Task) (ts : Timers) : nat * Timers :=
  (nextId ts,
   {| nextId := S (nextId ts); active := <[nextId ts := t]> (active ts) |}).

Definition setInterval (cb : C) (ms : Q) (ts : Timers) : nat * Timers :=
  schedule {| repeat := true; delay := ms; callback := cb |} ts.

Definition setTimeout (cb : C) (ms : Q) (ts : Timers) : nat * Timers :=
  schedule {| repeat := false; delay := ms; callback := cb |} ts.

(** [clearInterval(h)]; the handle variable is [undefined] until the
    first timer is stored in it, and clearing [undefined] does nothing.
    Intervals and timeouts share one table of identifiers. *)
Definition clearInterval (h : option nat) (ts : Timers) : Timers :=
  match h with
  | Some id => {| nextId := nextId ts; active := delete id (active ts) |}
  | None => ts
  end.

(** The event loop delivers timer [id]: nothing if it is not active;
    a timeout leaves the table before its callback runs. *)
Definition fire (id : nat) (ts : Timers) : option (C * Timers) :=
  match active ts !! id with
  | None => None
  | Some t =>
      Some (callback t,
            if repeat t then ts
            else {| nextId := nextId ts; active := delete id (active ts) |})
  end.
(** Every scheduled timer is one whose handle is among [hs]. *)
Definition held (hs : list (option nat)) (ts : Timers) : Prop :=
  forall id : nat, is_Some (active ts !! id) -> Some id ∈ hs.
End Timers.
Arguments Task : clear implicits.
Arguments Timers : clear implicits.

End Js.

Import Js.

(** ** Classic Snake *)

Module Snake.

Record Cell : Type := mkCell { x : Z; y : Z }.

Inductive Direction : Type := Up | Down | Left | Right.

Record Canvas : Type := mkCanvas { width : Z; height : Z }.

Inductive Callback : Type := GameUpdateCb.

Record State : Type := mkState {
  canvas : Canvas;
  snake : list Cell;
  food : option Cell;              (* [{}] until the first [createFood] *)
  direction : Direction;
  newDirection : Direction;
  gameRunning : bool;
  score : Z;
  highScore : JsVal;
  gameLoop : option nat;
  timers : Timers Callback;
  storage : gmap string string;    (* [localStorage] *)
  scoreText : string;              (* [#score] *)
  highScoreText : string           (* [#highScore] *)
}.

Definition gameSpeed : Q := 100.

Definition storageKey : string := "snakeHighScore".

(** The state once the script is loaded and [DOMContentLoaded] has run. *)
Definition initial (c : Canvas) (ls : gmap string string) (text0 : string)
  : State :=
  let hs := orZero (ls !! storageKey) in
  {| canvas := c; snake := []; food := None;
     direction := Right; newDirection := Right;
     gameRunning := false; score := 0; highScore := hs;
     gameLoop := None; timers := noTimers; storage := ls;
     scoreText := text0; highScoreText := ToString hs |}.

Definition sameCell (a b : Cell) : bool := (x a =? x b) && (y a =? y b).

(** The inner [for] loop of [createFood]: is some segment on [f]? *)
Definition onSnake (body : list Cell) (f : Cell) : bool :=
  existsb (fun seg => sameCell seg f) body.

Definition drawCell (c : Canvas) (rx ry : Q) : Cell :=
  {| x := floorMul rx (round53 (inject_Z (width c) / 10));
     y := floorMul ry (round53 (inject_Z (height c) / 10)) |}.

(** [createFood]: draw a cell, start over while it lies on the snake. *)
Fixpoint createFood (c : Canvas) (body : list Cell) (rs : list Q)
  : result Cell :=
  match rs with
  | rx :: ry :: rs' =>
      let f := drawCell c rx ry in
      if onSnake body f then createFood c body rs' else Ok f
  | _ => Starved
  end.

Definition startGame (s : State) (rs : list Q) : result State :=
  if gameRunning s then Ok s
  else
    let body := [mkCell 10 10; mkCell 9 10; mkCell 8 10] in
    f ← createFood (canvas s) body rs;
    let '(id, ts) := setInterval GameUpdateCb gameSpeed (timers s) in
    Ok {| canvas := canvas s; snake := body; food := Some f;
          direction := Right; newDirection := Right;
          gameRunning := true; score := 0; highScore := highScore s;
          gameLoop := Some id; timers := ts; storage := storage s;
          scoreText := NumberToString 0;
          highScoreText := highScoreText s |}.

Definition resetGame (s : State) : State :=
  {| canvas := canvas s; snake := snake s; food := food s;
     direction := direction s; newDirection := newDirection s;
     gameRunning := false; score := 0; highScore := highScore s;
     gameLoop := gameLoop s;
     timers := clearInterval (gameLoop s) (timers s);
     storage := storage s;
     scoreText := NumberToString 0;
     highScoreText := highScoreText s |}.

Definition setNewDirection (d : Direction) (s : State) : State :=
  {| canvas := canvas s; snake := snake s; food := food s;
     direction := direction s; newDirection := d;
     gameRunning := gameRunning s; score := score s;
     highScore := highScore s; gameLoop := gameLoop s;
     timers := timers s; storage := storage s;
     scoreText := scoreText s; highScoreText := highScoreText s |}.

Definition isnt (a b : Direction) : bool :=
  match a, b with
  | Up, Up | Down, Down | Left, Left | Right, Right => false
  | _, _ => true
  end.

(** [changeDirection]: the [keydown] handler. *)
Definition changeDirection (key : string) (s : State) : State :=
  if bool_decide (key = "ArrowUp") && isnt (direction s) Down
  then setNewDirection Up s
  else if bool_decide (key = "ArrowDown") && isnt (direction s) Up
  then setNewDirection Down s
  else if bool_decide (key = "ArrowLeft") && isnt (direction s) Right
  then setNewDirection Left s
  else if bool_decide (key = "ArrowRight") && isnt (direction s) Left
  then setNewDirection Right s
  else s.

Definition moveHead (d : Direction) (h : Cell) : Cell :=
  match d with
  | Up => {| x := x h; y := y h - 1 |}
  | Down => {| x := x h; y := y h + 1 |}
  | Left => {| x := x h - 1; y := y h |}
  | Right => {| x := x h + 1; y := y h |}
  end.

Definition hitsWall (c : Canvas) (h : Cell) : bool :=
  (x h <? 0) || Qle_bool (inject_Z (width c) / 10) (inject_Z (x h))
  || (y h <? 0) || Qle_bool (inject_Z (height c) / 10) (inject_Z (y h)).

(** [checkCollision]: the self test starts at index 1. *)
Definition checkCollision (c : Canvas) (body : list Cell) (h : Cell) : bool :=
  hitsWall c h || existsb (fun seg => sameCell h seg) (tail body).

Definition gameOver (s : State) : State :=
  {| canvas := canvas s; snake := snake s; food := food s;
     direction := direction s; newDirection := newDirection s;
     gameRunning := false; score := score s; highScore := highScore s;
     gameLoop := gameLoop s;
     timers := clearInterval (gameLoop s) (timers s);
     storage := storage s;
     scoreText := scoreText s; highScoreText := highScoreText s |}.

Definition eats (h : Cell) (f : option Cell) : bool :=
  match f with
  | Some f => sameCell h f
  | None => false
  end.

Section WithRuntime.
Context `{Runtime}.

(** [gameUpdate]: the interval callback. *)
Definition gameUpdate (s : State) (rs : list Q) : result State :=
  let d := newDirection s in
  match snake s with
  | [] => TypeError
  | h0 :: _ =>
      let head := moveHead d h0 in
      if checkCollision (canvas s) (snake s) head then
        Ok (gameOver
              {| canvas := canvas s; snake := snake s; food := food s;
                 direction := d; newDirection := newDirection s;
                 gameRunning := gameRunning s; score := score s;
                 highScore := highScore s; gameLoop := gameLoop s;
                 timers := timers s; storage := storage s;
                 scoreText := scoreText s;
                 highScoreText := highScoreText s |})
      else
        let body := head :: snake s in
        if eats head (food s) then
          let score' := score s + 1 in
          let record := gt score' (highScore s) in
          f ← createFood (canvas s) body rs;
          Ok {| canvas := canvas s; snake := body; food := Some f;
                direction := d; newDirection := newDirection s;
                gameRunning := gameRunning s; score := score';
                highScore :=
                  if record then JNum score' else highScore s;
                gameLoop := gameLoop s; timers := timers s;
                storage :=
                  if record
                  then <[storageKey := NumberToString score']> (storage s)
                  else storage s;
                scoreText := NumberToString score';
                highScoreText :=
                  if record then NumberToString score'
                  else highScoreText s |}
        else
          Ok {| canvas := canvas s; snake := removelast body;
                food := food s;
                direction := d; newDirection := newDirection s;
                gameRunning := gameRunning s; score := score s;
                highScore := highScore s; gameLoop := gameLoop s;
                timers := timers s; storage := storage s;
                scoreText := scoreText s;
                highScoreText := highScoreText s |}
  end.

Inductive Event : Type :=
| ClickStart (rs : list Q)
| ClickReset
| KeyDown (key : string)
| Fire (id : nat) (rs : list Q)          (* the event loop runs timer [id] *).

Definition setTimers (ts : Timers Callback) (s : State) : State :=
  {| canvas := canvas s; snake := snake s; food := food s;
     direction := direction s; newDirection := newDirection s;
     gameRunning := gameRunning s; score := score s;
     highScore := highScore s; gameLoop := gameLoop s;
     timers := ts; storage := storage s;
     scoreText := scoreText s; highScoreText := highScoreText s |}.

Definition step (s : State) (e : Event) : result State :=
  match e with
  | ClickStart rs => startGame s rs
  | ClickReset => Ok (resetGame s)
  | KeyDown key => Ok (changeDirection key s)
  | Fire id rs =>
      match fire id (timers s) with
      | None => Ok s
      | Some (GameUpdateCb, ts) => gameUpdate (setTimers ts s) rs
      end
  end.

Fixpoint run (s : State) (es : list Event) : result State :=
  match es with
  | [] => Ok s
  | e :: es' => s' ← step s e; run s' es'
  end.
End WithRuntime.

(** *** Vocabulary of the properties *)

Definition keyDirection (key : string) : option Direction :=
  if bool_decide (key = "ArrowUp") then Some Up
  else if bool_decide (key = "ArrowDown") then Some Down
  else if bool_decide (key = "ArrowLeft") then Some Left
  else if bool_decide (key = "ArrowRight") then Some Right
  else None.

Definition opposite (d : Direction) : Direction :=
  match d with
  | Up => Down
  | Down => Up
  | Left => Right
  | Right => Left
  end.

(** The direction a key press queues while the snake moves in direction
    [cur]: an arrow key that does not reverse [cur]. *)
Definition accepts (cur : Direction) (key : string) : option Direction :=
  match keyDirection key with
  | Some d => if isnt cur (opposite d) then Some d else None
  | None => None
  end.

(** Key presses that arrive one after the other between two ticks. *)
Definition pressAll (keys : list string) (s : State) : State :=
  fold_left (fun s' key => changeDirection key s') keys s.

(** The cells of the board: those a head may occupy without hitting a
    wall. *)
Definition onBoard (c : Canvas) (p : Cell) : Prop :=
  0 <= x p /\ 10 * x p < width c /\ 0 <= y p /\ 10 * y p < height c.

(** The pairs of draws [createFood] takes from [rs], in order. *)
Fixpoint drawnCells (c : Canvas) (rs : list Q) : list Cell :=
  match rs with
  | rx :: ry :: rs' => drawCell c rx ry :: drawnCells c rs'
  | _ => []
  end.

(** No timer is scheduled while the game is stopped, and none but the one
    whose handle [gameLoop] holds. *)
Definition Quiet (s : State) : Prop :=
  (gameRunning s = false -> active (timers s) = ∅)
  /\ held [gameLoop s] (timers s).

(** The page just loaded on a 400 by 400 canvas with an empty store. *)
Definition freshPage : State := initial (mkCanvas 400 400) ∅ "0".

(** Start pressed on that page; the food lands on cell (20, 20). *)
Definition freshGame : result State :=
  startGame freshPage [1 # 2; 1 # 2]%Q.

(** Start pressed on that page with the food landing on cell (11, 10),
    right in front of the head. *)
Definition aboutToEat : result State :=
  startGame freshPage [9 # 32; 1 # 4]%Q.

(** The segments are on distinct cells and the food is off the snake. *)
Definition Sound (s : State) : Prop :=
  NoDup (snake s) /\ forall f : Cell, food s = Some f -> ~ In f (snake s).

(** A canvas that holds the three cells a game starts on. *)
Definition holdsStart (c : Canvas) : Prop := 100 < width c /\ 100 < height c.

End Snake.

(** ** Endless Runner *)

Module Runner.

Record Canvas : Type := mkCanvas { width : Z; height : Z }.

Record Player : Type := mkPlayer {
  px : Q;
  py : Q;
  pwidth : Q;
  pheight : Q;
  jumping : bool;
  jumpHeight : Q;
  jumpVelocity : Q;
  gravity : Q
}.

Record Obstacle : Type := mkObstacle {
  ox : Q;
  oy : Q;
  owidth : Q;
  oheight : Q
}.

Record Cloud : Type := mkCloud {
  cx : Q;
  cy : Q;
  cwidth : Q;
  cheight : Q;
  speed : Q
}.

Inductive Callback : Type := GameUpdateCb.

Record State : Type := mkState {
  canvas : Canvas;
  player : Player;
  obstacles : list Obstacle;
  ground : Q;
  score : Z;
  highScore : JsVal;
  gameRunning : bool;
  gameLoop : option nat;
  timers : Timers Callback;
  gameSpeed : Q;
  spawnRate : Z;
  frameCount : Z;
  clouds : list Cloud;
  storage : gmap string string;
  scoreText : string;
  highScoreText : string
}.

Definition storageKey : string := "runnerHighScore".

(** [createCloud(isInitial)]: the draws are taken in the order the script
    evaluates them: [y], [width], then [x] (initial clouds only) and
    [speed] inside the object literal.  Returns the cloud and the draws
    left over. *)
Definition createCloud (isInitial : bool) (c : Canvas) (rs : list Q)
  : result (Cloud * list Q) :=
  match rs with
  | ry :: rw :: rs1 =>
      let y := inject_Z (floorMul ry 150 + 20) in
      let w := inject_Z (floorMul rw 60 + 40) in
      if isInitial then
        match rs1 with
        | rx :: rsp :: rs2 =>
            Ok ({| cx := round53 (rx * inject_Z (width c)); cy := y;
                   cwidth := w;
                   cheight := round53 (w * round53 (6 # 10));
                   speed := round53 (round53 (rsp * 1) + (1 # 2)) |},
                rs2)
        | _ => Starved
        end
      else
        match rs1 with
        | rsp :: rs2 =>
            Ok ({| cx := inject_Z (width c); cy := y; cwidth := w;
                   cheight := round53 (w * round53 (6 # 10));
                   speed := round53 (round53 (rsp * 1) + (1 # 2)) |},
                rs2)
        | _ => Starved
        end
  | _ => Starved
  end.

Fixpoint initialClouds (n : nat) (c : Canvas) (rs : list Q)
  : result (list Cloud * list Q) :=
  match n with
  | O => Ok ([], rs)
  | S n' =>
      '(cl, rs1) ← createCloud true c rs;
      '(cls, rs2) ← initialClouds n' c rs1;
      Ok (cl :: cls, rs2)
  end.

(** The state once the script is loaded and [DOMContentLoaded] has run;
    [rs] are the draws of the five initial clouds. *)
Definition initial (c : Canvas) (ls : gmap string string) (text0 : string)
    (rs : list Q) : result State :=
  let hs := orZero (ls !! storageKey) in
  let g := inject_Z (height c - 50) in
  '(cls, _) ← initialClouds 5 c rs;
  Ok {| canvas := c;
        player := {| px := 50; py := (g - 50)%Q; pwidth := 40; pheight := 50;
                     jumping := false; jumpHeight := 15; jumpVelocity := 0;
                     gravity := round53 (8 # 10) |};
        obstacles := []; ground := g; score := 0; highScore := hs;
        gameRunning := false; gameLoop := None; timers := noTimers;
        gameSpeed := 5; spawnRate := 100; frameCount := 0;
        clouds := cls; storage := ls;
        scoreText := text0; highScoreText := ToString hs |}.

Definition landed (p : Player) (g : Q) : Player :=
  {| px := px p; py := (g - pheight p)%Q; pwidth := pwidth p;
     pheight := pheight p; jumping := false; jumpHeight := jumpHeight p;
     jumpVelocity := 0; gravity := gravity p |}.

Definition startGame (s : State) : State :=
  if gameRunning s then s
  else
    let '(id, ts) := setInterval GameUpdateCb (round53 (1000 / 60)) (timers s) in
    {| canvas := canvas s; player := landed (player s) (ground s);
       obstacles := []; ground := ground s; score := 0;
       highScore := highScore s; gameRunning := true;
       gameLoop := Some id; timers := ts;
       gameSpeed := 5; spawnRate := spawnRate s; frameCount := 0;
       clouds := clouds s; storage := storage s;
       scoreText := NumberToString 0;
       highScoreText := highScoreText s |}.

Definition resetGame (s : State) : State :=
  {| canvas := canvas s; player := player s; obstacles := obstacles s;
     ground := ground s; score := 0; highScore := highScore s;
     gameRunning := false; gameLoop := gameLoop s;
     timers := clearInterval (gameLoop s) (timers s);
     gameSpeed := gameSpeed s; spawnRate := spawnRate s;
     frameCount := frameCount s; clouds := clouds s;
     storage := storage s;
     scoreText := NumberToString 0;
     highScoreText := highScoreText s |}.

(** [jump]: only from the ground. *)
Definition jump (p : Player) : Player :=
  if jumping p then p
  else
    {| px := px p; py := py p; pwidth := pwidth p; pheight := pheight p;
       jumping := true; jumpHeight := jumpHeight p;
       jumpVelocity := (- jumpHeight p)%Q; gravity := gravity p |}.

(** [updatePlayer], given the ground level [g]: the two sums are double
    additions. *)
Definition updatePlayer (g : Q) (p : Player) : Player :=
  if jumping p then
    let v := round53 (jumpVelocity p + gravity p) in
    let y := round53 (py p + v) in
    if Qle_bool (g - pheight p)%Q y then
      {| px := px p; py := (g - pheight p)%Q; pwidth := pwidth p;
         pheight := pheight p; jumping := false;
         jumpHeight := jumpHeight p; jumpVelocity := 0;
         gravity := gravity p |}
    else
      {| px := px p; py := y; pwidth := pwidth p; pheight := pheight p;
         jumping := true; jumpHeight := jumpHeight p; jumpVelocity := v;
         gravity := gravity p |}
  else p.

(** [a < b] on numbers. *)
Definition Qlt_bool (a b : Q) : bool := negb (Qle_bool b a).

(** [updateObstacles]: shift every obstacle left by [gameSpeed]; the ones
    fully left of the canvas are spliced out, the order of the others is
    kept. *)
Fixpoint updateObstacles (v : Q) (obs : list Obstacle) : list Obstacle :=
  match obs with
  | [] => []
  | o :: rest =>
      let o' := {| ox := (ox o - v)%Q; oy := oy o; owidth := owidth o;
                   oheight := oheight o |} in
      if Qlt_bool (ox o' + owidth o')%Q 0%Q then updateObstacles v rest
      else o' :: updateObstacles v rest
  end.

(** The loop of [updateObstacles] as the script writes it, on the array
    and the index [i]: while [i < arr.length], subtract [v] from
    [arr[i].x]; if the obstacle is fully left of the canvas,
    [arr.splice(i, 1)] and [i--]; then [i++].  Reading [arr[i].x] past the
    array would throw.  [fuel] bounds the number of rounds; the result is
    [None] when it runs out. *)
Fixpoint updateObstaclesLoop (fuel : nat) (v : Q) (i : Z)
    (arr : list Obstacle) : option (result (list Obstacle)) :=
  match fuel with
  | O => None
  | S fuel' =>
      if i <? Z.of_nat (length arr) then
        match (if i <? 0 then None else arr !! Z.to_nat i) with
        | None => Some TypeError
        | Some o =>
            let o' := {| ox := (ox o - v)%Q; oy := oy o; owidth := owidth o;
                         oheight := oheight o |} in
            let arr1 := <[Z.to_nat i := o']> arr in
            if Qlt_bool (ox o' + owidth o')%Q 0%Q then
              updateObstaclesLoop fuel' v (i - 1 + 1)
                (delete (Z.to_nat i) arr1)
            else updateObstaclesLoop fuel' v (i + 1) arr1
        end
      else Some (Ok arr)
  end.

Definition moveCloud (cl : Cloud) : Cloud :=
  {| cx := round53 (cx cl - speed cl); cy := cy cl; cwidth := cwidth cl;
     cheight := cheight cl; speed := speed cl |}.

(** [updateClouds]: one pass over the array; a cloud that left the canvas
    is spliced out and a fresh one is pushed at the end, where the same
    pass reaches it later.  Each replacement consumes three draws, so the
    pass is a recursion on the draws with an inner recursion on the
    clouds still to visit. *)
Fixpoint updateClouds (c : Canvas) (rs : list Q)
  : list Cloud -> result (list Cloud * list Q) :=
  fix visit (todo : list Cloud) : result (list Cloud * list Q) :=
    match todo with
    | [] => Ok ([], rs)
    | cl :: rest =>
        let cl' := moveCloud cl in
        if Qlt_bool (round53 (cx cl' + cwidth cl')) 0%Q then
          match rs with
          | ry :: rw :: rsp :: rs' =>
              let y := inject_Z (floorMul ry 150 + 20) in
              let w := inject_Z (floorMul rw 60 + 40) in
              updateClouds c rs'
                (rest ++ [ {| cx := inject_Z (width c); cy := y;
                              cwidth := w;
                              cheight := round53 (w * round53 (6 # 10));
                              speed :=
                                round53 (round53 (rsp * 1) + (1 # 2)) |} ])
          | _ => Starved
          end
        else
          '(done, rs') ← visit rest;
          Ok (cl' :: done, rs')
    end.

(** [createObstacle]. *)
Definition createObstacle (c : Canvas) (g : Q) (r : Q) : Obstacle :=
  let h := inject_Z (floorMul r 30 + 20) in
  {| ox := inject_Z (width c); oy := (g - h)%Q; owidth := 20;
     oheight := h |}.

Definition overlaps (p : Player) (o : Obstacle) : bool :=
  Qlt_bool (px p) (ox o + owidth o)%Q
  && Qlt_bool (ox o) (px p + pwidth p)%Q
  && Qlt_bool (py p) (oy o + oheight o)%Q
  && Qlt_bool (oy o) (round53 (py p + pheight p)).

(** [a % b === 0] on integers; [a % 0] is [NaN]. *)
Definition divides (b a : Z) : bool :=
  if b =? 0 then false else Z.rem a b =? 0.

Definition gameOver (s : State) : State :=
  {| canvas := canvas s; player := player s; obstacles := obstacles s;
     ground := ground s; score := score s; highScore := highScore s;
     gameRunning := false; gameLoop := gameLoop s;
     timers := clearInterval (gameLoop s) (timers s);
     gameSpeed := gameSpeed s; spawnRate := spawnRate s;
     frameCount := frameCount s; clouds := clouds s;
     storage := storage s;
     scoreText := scoreText s; highScoreText := highScoreText s |}.

(** [checkCollisions]. *)
Definition checkCollisions (s : State) : State :=
  if existsb (overlaps (player s)) (obstacles s) then gameOver s else s.

Section WithRuntime.
Context `{Runtime}.

(** [gameUpdate]: the interval callback. *)
Definition gameUpdate (s : State) (rs : list Q) : result State :=
  '(cls, rs1) ← updateClouds (canvas s) rs (clouds s);
  let p := updatePlayer (ground s) (player s) in
  let obs := updateObstacles (gameSpeed s) (obstacles s) in
  let fc := frameCount s + 1 in
  let scored := divides 10 fc in
  let score' := if scored then score s + 1 else score s in
  let record := scored && gt score' (highScore s) in
  let v :=
    if divides 500 fc then (gameSpeed s + (1 # 2))%Q else gameSpeed s in
  let spawn := divides (spawnRate s) fc in
  obs' ←
    (if spawn then
       match rs1 with
       | r :: _ => Ok (obs ++ [createObstacle (canvas s) (ground s) r])
       | [] => Starved
       end
     else Ok obs);
  Ok (checkCollisions
        {| canvas := canvas s; player := p; obstacles := obs';
           ground := ground s; score := score';
           highScore := if record then JNum score' else highScore s;
           gameRunning := gameRunning s; gameLoop := gameLoop s;
           timers := timers s; gameSpeed := v;
           spawnRate :=
             if spawn && (60 <? spawnRate s) then spawnRate s - 5
             else spawnRate s;
           frameCount := fc; clouds := cls;
           storage :=
             if record
             then <[storageKey := NumberToString score']> (storage s)
             else storage s;
           scoreText :=
             if scored then NumberToString score' else scoreText s;
           highScoreText :=
             if record then NumberToString score'
             else highScoreText s |}).

Inductive Event : Type :=
| ClickStart
| ClickReset
| KeyDown (code : string)
| Fire (id : nat) (rs : list Q).

Definition setPlayer (p : Player) (s : State) : State :=
  {| canvas := canvas s; player := p; obstacles := obstacles s;
     ground := ground s; score := score s; highScore := highScore s;
     gameRunning := gameRunning s; gameLoop := gameLoop s;
     timers := timers s; gameSpeed := gameSpeed s;
     spawnRate := spawnRate s; frameCount := frameCount s;
     clouds := clouds s; storage := storage s;
     scoreText := scoreText s; highScoreText := highScoreText s |}.

Definition setTimers (ts : Timers Callback) (s : State) : State :=
  {| canvas := canvas s; player := player s; obstacles := obstacles s;
     ground := ground s; score := score s; highScore := highScore s;
     gameRunning := gameRunning s; gameLoop := gameLoop s;
     timers := ts; gameSpeed := gameSpeed s;
     spawnRate := spawnRate s; frameCount := frameCount s;
     clouds := clouds s; storage := storage s;
     scoreText := scoreText s; highScoreText := highScoreText s |}.

(** The [keydown] listener. *)
Definition keyDown (code : string) (s : State) : State :=
  if bool_decide (code = "Space") && gameRunning s
  then setPlayer (jump (player s)) s
  else s.

Definition step (s : State) (e : Event) : result State :=
  match e with
  | ClickStart => Ok (startGame s)
  | ClickReset => Ok (resetGame s)
  | KeyDown code => Ok (keyDown code s)
  | Fire id rs =>
      match fire id (timers s) with
      | None => Ok s
      | Some (GameUpdateCb, ts) => gameUpdate (setTimers ts s) rs
      end
  end.

Fixpoint run (s : State) (es : list Event) : result State :=
  match es with
  | [] => Ok s
  | e :: es' => s' ← step s e; run s' es'
  end.
End WithRuntime.

(** *** Vocabulary of the properties *)

(** No timer is scheduled while the game is stopped, and none but the one
    whose handle [gameLoop] holds. *)
Definition Quiet (s : State) : Prop :=
  (gameRunning s = false -> active (timers s) = ∅)
  /\ held [gameLoop s] (timers s).

(** The spawn rate is on the ladder 100, 95, ..., 60. *)
Definition onLadder (s : State) : Prop :=
  60 <= spawnRate s <= 100 /\ (5 | spawnRate s).

(** The page just loaded on an 800 by 400 canvas with an empty store;
    every draw of the initial clouds is one half. *)
Definition freshPage : result State :=
  initial (mkCanvas 800 400) ∅ "0" (replicate 20 (1 # 2)%Q).

(** A player in mid-air, one tick before touching down on ground level
    350: 2 above the standing position, falling at 3 per tick. *)
Definition falling : Player :=
  {| px := 50; py := 298; pwidth := 40; pheight := 50; jumping := true;
     jumpHeight := 15; jumpVelocity := 3; gravity := round53 (8 # 10) |}.

(** The player as a game on a 400-pixel canvas starts: standing on ground
    level 350. *)
Definition standing : Player :=
  {| px := 50; py := 300; pwidth := 40; pheight := 50; jumping := false;
     jumpHeight := 15; jumpVelocity := 0; gravity := round53 (8 # 10) |}.

(** An obstacle moved left by [v]. *)
Definition shifted (v : Q) (o : Obstacle) : Obstacle :=
  {| ox := (ox o - v)%Q; oy := oy o; owidth := owidth o;
     oheight := oheight o |}.

(** An obstacle whose right edge is left of the canvas. *)
Definition gone (o : Obstacle) : bool := Qlt_bool (ox o + owidth o)%Q 0%Q.

(** The player stands on the ground or is above it, and is on the ground
    whenever the jumping flag is clear. *)
Definition Grounded (s : State) : Prop :=
  (py (player s) <= ground s - pheight (player s))%Q
  /\ (jumping (player s) = false ->
      (py (player s) == ground s - pheight (player s))%Q).

(** The cloud [updateClouds] pushes for the draws [ry], [rw] and [rsp]. *)
Definition newCloud (c : Canvas) (ry rw rsp : Q) : Cloud :=
  {| cx := inject_Z (width c);
     cy := inject_Z (floorMul ry 150 + 20);
     cwidth := inject_Z (floorMul rw 60 + 40);
     cheight := round53 (inject_Z (floorMul rw 60 + 40) * round53 (6 # 10));
     speed := round53 (round53 (rsp * 1) + (1 # 2)) |}.

(** The counters agree with the frame count: the speed is 5 plus one half
    per 500 frames, and while the game runs the score is one point per 10
    frames. *)
Definition Counted (s : State) : Prop :=
  0 <= frameCount s
  /\ (gameSpeed s == 5 + inject_Z (frameCount s / 500) * (1 # 2))%Q
  /\ (gameRunning s = true -> score s = frameCount s / 10).

(** A session from page load: Start, a jump, and [n] frames. *)
Definition frames (n : nat) : list Event :=
  [ClickStart; KeyDown "Space"] ++ replicate n (Fire 1 []).

End Runner.

(** ** Whack-a-Mole *)

Module Whack.

(** A mole element, by the two classes the script toggles on it. *)
Record Mole : Type := mkMole { active : bool; whacked : bool }.

Inductive Callback : Type :=
| CountdownCb        (* the anonymous [setInterval] callback of [startGame] *)
| MoleCb             (* the anonymous [setTimeout] callback of [showRandomMole] *).

Record State : Type := mkState {
  score : Z;
  timeLeft : Z;
  gameRunning : bool;
  gameTimer : option nat;
  moleTimer : option nat;
  highScore : JsVal;
  moles : list Mole;
  timers : Timers Callback;
  storage : gmap string string;
  scoreText : string;
  timeLeftText : string;
  highScoreText : string
}.

Definition storageKey : string := "whackHighScore".

Definition hidden : Mole := {| active := false; whacked := false |}.

(** [createMoleGrid]: nine holes, one mole each. *)
Definition createMoleGrid : list Mole := replicate 9 hidden.

Definition initial (ls : gmap string string) (scoreText0 timeText0 : string)
  : State :=
  let hs := orZero (ls !! storageKey) in
  {| score := 0; timeLeft := 30; gameRunning := false;
     gameTimer := None; moleTimer := None; highScore := hs;
     moles := createMoleGrid; timers := noTimers; storage := ls;
     scoreText := scoreText0; timeLeftText := timeText0;
     highScoreText := ToString hs |}.

(** The [forEach] that removes both classes from every mole. *)
Definition hideAll (ms : list Mole) : list Mole := map (fun _ => hidden) ms.

Definition resetGame (s : State) : State :=
  {| score := 0; timeLeft := 30; gameRunning := false;
     gameTimer := gameTimer s; moleTimer := moleTimer s;
     highScore := highScore s; moles := hideAll (moles s);
     timers := clearInterval (moleTimer s)
                 (clearInterval (gameTimer s) (timers s));
     storage := storage s;
     scoreText := NumberToString 0; timeLeftText := NumberToString 30;
     highScoreText := highScoreText s |}.

Definition minTime : Z := 600.
Definition maxTime : Z := 1500.

(** The index and the visible time [showRandomMole] computes from its two
    draws. *)
Definition randomIndex (n : nat) (r : Q) : Z := floorMul r (inject_Z (Z.of_nat n)).
Definition randomTime (r : Q) : Z :=
  floorMul r (inject_Z (maxTime - minTime)) + minTime.

(** [moles[i]] for a number [i]. *)
Definition nth_mole (ms : list Mole) (i : Z) : option Mole :=
  if i <? 0 then None else ms !! Z.to_nat i.

(** [showRandomMole]. *)
Definition showRandomMole (s : State) (r1 r2 : Q) : result State :=
  let ms := hideAll (moles s) in
  let i := randomIndex (length ms) r1 in
  match nth_mole ms i with
  | None => TypeError
  | Some m =>
      let ms' := <[Z.to_nat i := {| active := true; whacked := whacked m |}]> ms in
      let '(id, ts) := setTimeout MoleCb (inject_Z (randomTime r2)) (timers s) in
      Ok {| score := score s; timeLeft := timeLeft s;
            gameRunning := gameRunning s; gameTimer := gameTimer s;
            moleTimer := Some id; highScore := highScore s;
            moles := ms'; timers := ts; storage := storage s;
            scoreText := scoreText s; timeLeftText := timeLeftText s;
            highScoreText := highScoreText s |}
  end.

(** The body of the mole timeout. *)
Definition moleTimeout (s : State) (r1 r2 : Q) : result State :=
  if gameRunning s then showRandomMole s r1 r2 else Ok s.

Definition endGame (s : State) : State :=
  {| score := score s; timeLeft := timeLeft s; gameRunning := false;
     gameTimer := gameTimer s; moleTimer := moleTimer s;
     highScore := highScore s; moles := moles s;
     timers := clearInterval (moleTimer s)
                 (clearInterval (gameTimer s) (timers s));
     storage := storage s;
     scoreText := scoreText s; timeLeftText := timeLeftText s;
     highScoreText := highScoreText s |}.

(** The body of the countdown interval. *)
Definition countdown (s : State) : State :=
  let t := timeLeft s - 1 in
  let s' :=
    {| score := score s; timeLeft := t; gameRunning := gameRunning s;
       gameTimer := gameTimer s; moleTimer := moleTimer s;
       highScore := highScore s; moles := moles s;
       timers := timers s; storage := storage s;
       scoreText := scoreText s; timeLeftText := NumberToString t;
       highScoreText := highScoreText s |} in
  if t <=? 0 then endGame s' else s'.

Definition startGame (s : State) (r1 r2 : Q) : result State :=
  if gameRunning s then Ok s
  else
    let s0 := resetGame s in
    let '(id, ts) := setInterval CountdownCb 1000 (timers s0) in
    showRandomMole
      {| score := score s0; timeLeft := timeLeft s0; gameRunning := true;
         gameTimer := Some id; moleTimer := moleTimer s0;
         highScore := highScore s0; moles := moles s0;
         timers := ts; storage := storage s0;
         scoreText := scoreText s0; timeLeftText := timeLeftText s0;
         highScoreText := highScoreText s0 |}
      r1 r2.

Definition setTimers (ts : Timers Callback) (s : State) : State :=
  {| score := score s; timeLeft := timeLeft s;
     gameRunning := gameRunning s; gameTimer := gameTimer s;
     moleTimer := moleTimer s; highScore := highScore s;
     moles := moles s; timers := ts; storage := storage s;
     scoreText := scoreText s; timeLeftText := timeLeftText s;
     highScoreText := highScoreText s |}.

Section WithRuntime.
Context `{Runtime}.

(** [whackMole] on the mole at index [i]. *)
Definition whackMole (i : nat) (s : State) : State :=
  let score' := score s + 1 in
  let record := gt score' (highScore s) in
  {| score := score'; timeLeft := timeLeft s;
     gameRunning := gameRunning s; gameTimer := gameTimer s;
     moleTimer := moleTimer s;
     highScore := if record then JNum score' else highScore s;
     moles := <[i := {| active := false; whacked := true |}]> (moles s);
     timers := timers s;
     storage :=
       if record
       then <[storageKey := NumberToString score']> (storage s)
       else storage s;
     scoreText := NumberToString score'; timeLeftText := timeLeftText s;
     highScoreText :=
       if record then NumberToString score' else highScoreText s |}.

(** The click listener of mole [i]. *)
Definition clickMole (i : nat) (s : State) : State :=
  match moles s !! i with
  | Some m =>
      if gameRunning s && active m && negb (whacked m)
      then whackMole i s else s
  | None => s
  end.

Inductive Event : Type :=
| ClickStart (r1 r2 : Q)
| ClickReset
| ClickMole (i : nat)
| Fire (id : nat) (r1 r2 : Q).

Definition step (s : State) (e : Event) : result State :=
  match e with
  | ClickStart r1 r2 => startGame s r1 r2
  | ClickReset => Ok (resetGame s)
  | ClickMole i => Ok (clickMole i s)
  | Fire id r1 r2 =>
      match fire id (timers s) with
      | None => Ok s
      | Some (CountdownCb, ts) => Ok (countdown (setTimers ts s))
      | Some (MoleCb, ts) => moleTimeout (setTimers ts s) r1 r2
      end
  end.

Fixpoint run (s : State) (es : list Event) : result State :=
  match es with
  | [] => Ok s
  | e :: es' => s' ← step s e; run s' es'
  end.
End WithRuntime.

(** *** Vocabulary of the properties *)

(** No timer is scheduled while the game is stopped; a scheduled timer is
    the countdown under the handle [gameTimer] or a one-shot mole timeout
    under the handle [moleTimer]. *)
Definition Quiet (s : State) : Prop :=
  (gameRunning s = false -> Js.active (timers s) = ∅)
  /\ forall (id : nat) (t : Task Callback),
       Js.active (timers s) !! id = Some t ->
       (gameTimer s = Some id /\ callback t = CountdownCb)
       \/ (moleTimer s = Some id /\ callback t = MoleCb /\ repeat t = false).

(** The page just loaded with an empty store. *)
Definition freshPage : State := initial ∅ "0" "30".

(** Start pressed on that page: mole 4 comes up for 1050 ms. *)
Definition freshGame : result State := startGame freshPage (1 # 2) (1 # 2).

(** [f] spreads the draws evenly over the outcomes [0], [1], ... of a
    product with [n], up to the rounding of the product: the outcome is
    [k] for every draw whose exact product with [n] lies from [k] to
    [(k + 1) (1 - 2^-53)], and for no draw whose product lies below
    [k (1 - 2^-53)] or at or above [k + 1].  Each outcome has an interval
    of draws of length [1 / n], up to a part in [2^53] at its ends. *)
Definition EvenlySpread (n : Z) (f : Q -> Z) : Prop :=
  forall (r : Q) (k : Z),
    unitInterval r ->
    (0 <= k ->
     (inject_Z k <= r * inject_Z n)%Q ->
     (r * inject_Z n <= inject_Z (k + 1) * (1 - pow2 (-53)))%Q ->
     f r = k) /\
    (f r = k ->
     (inject_Z k * (1 - pow2 (-53)) <= r * inject_Z n)%Q /\
     (r * inject_Z n < inject_Z (k + 1))%Q).

(** At most one mole is out of its hole (active or whacked). *)
Definition OneUp (s : State) : Prop :=
  forall (i j : nat) (mi mj : Mole),
    moles s !! i = Some mi -> moles s !! j = Some mj ->
    mi <> hidden -> mj <> hidden -> i = j.

(** The clock is within the 30 seconds of a game, and has not run out
    while the game runs. *)
Definition Timed (s : State) : Prop :=
  0 <= timeLeft s <= 30 /\ (gameRunning s = true -> 1 <= timeLeft s).

(** The draws an event carries are results of [Math.random]. *)
Definition Drawn (e : Event) : Prop :=
  match e with
  | ClickStart r1 r2 | Fire _ r1 r2 => unitInterval r1 /\ unitInterval r2
  | ClickReset | ClickMole _ => True
  end.

End Whack.

(** ** Image Puzzle *)

Module Puzzle.

(** The image [div] inside a tile, by the cell and grid size its
    [backgroundPosition] was computed from. *)
Record Img : Type := mkImg { imgRow : Z; imgCol : Z; imgGrid : Z }.

(** A tile element: the [empty] class and its [innerHTML]. *)
Record Tile : Type := mkTile { empty : bool; content : option Img }.

Record Pos : Type := mkPos { row : Z; col : Z }.

#[export] Instance Pos_eq_dec : EqDecision Pos.
Proof. solve_decision. Defined.

Inductive Callback : Type :=
| TimerCb            (* the one-second interval of [startGame] *)
| AlertCb            (* the delayed alert of [gameComplete] *).

Record State : Type := mkState {
  grid : list (list Tile);
  emptyTile : Pos;
  gridSize : Z;
  moves : Z;
  timer : Z;
  timerInterval : option nat;
  gameRunning : bool;
  timers : Timers Callback;
  movesText : string;
  timerText : string
}.

(** The tile [createGrid] builds for cell [(r, c)]: the last cell is the
    empty one, every other cell carries its piece of the image. *)
Definition newTile (n r c : Z) : Tile :=
  if (r =? n - 1) && (c =? n - 1)
  then {| empty := true; content := None |}
  else {| empty := false; content := Some (mkImg r c n) |}.

Definition indices (n : Z) : list Z := Z.of_nat <$> seq 0 (Z.to_nat n).

Definition newGrid (n : Z) : list (list Tile) :=
  (fun r => (fun c => newTile n r c) <$> indices n) <$> indices n.

Definition setGrid (g : list (list Tile)) (e : Pos) (s : State) : State :=
  {| grid := g; emptyTile := e; gridSize := gridSize s; moves := moves s;
     timer := timer s; timerInterval := timerInterval s;
     gameRunning := gameRunning s; timers := timers s;
     movesText := movesText s; timerText := timerText s |}.

(** [createGrid]: [emptyTile] is assigned when the loop reaches the last
    cell, which it does as soon as there is a cell at all. *)
Definition createGrid (s : State) : State :=
  let n := gridSize s in
  setGrid (newGrid n) (if 0 <? n then mkPos (n - 1) (n - 1) else emptyTile s) s.

Definition initial (movesText0 timerText0 : string) : State :=
  createGrid
    {| grid := []; emptyTile := mkPos 0 0; gridSize := 4; moves := 0;
       timer := 0; timerInterval := None; gameRunning := false;
       timers := noTimers;
       movesText := movesText0; timerText := timerText0 |}.

Definition resetGame (s : State) : State :=
  createGrid
    {| grid := grid s; emptyTile := emptyTile s; gridSize := gridSize s;
       moves := 0; timer := 0; timerInterval := timerInterval s;
       gameRunning := false;
       timers := clearInterval (timerInterval s) (timers s);
       movesText := NumberToString 0; timerText := NumberToString 0 |}.

(** [grid[row][col]]; [None] where the script would read a property of
    [undefined]. *)
Definition tileAt (g : list (list Tile)) (p : Pos) : option Tile :=
  if (row p <? 0) || (col p <? 0) then None
  else g !! Z.to_nat (row p) ≫= fun r => r !! Z.to_nat (col p).

(** A write to the element at [p]. *)
Definition onTile (f : Tile -> Tile) (p : Pos) (g : list (list Tile))
  : list (list Tile) :=
  alter (alter f (Z.to_nat (col p))) (Z.to_nat (row p)) g.

(** [swapTiles(row, col)], statement by statement on the two elements. *)
Definition swapTiles (p : Pos) (s : State) : result State :=
  let e := emptyTile s in
  match tileAt (grid s) p, tileAt (grid s) e with
  | Some tile, Some _ =>
      let tileContent := content tile in
      let g1 := onTile (fun t => {| empty := empty t; content := None |}) p (grid s) in
      let g2 := onTile (fun t => {| empty := empty t; content := tileContent |}) e g1 in
      let g3 := onTile (fun t => {| empty := true; content := content t |}) p g2 in
      let g4 := onTile (fun t => {| empty := false; content := content t |}) e g3 in
      Ok (setGrid g4 p s)
  | _, _ => TypeError
  end.

(** [getAdjacentTiles]: top, right, bottom, left of the empty tile. *)
Definition getAdjacentTiles (s : State) : list Pos :=
  let r := row (emptyTile s) in
  let c := col (emptyTile s) in
  (if 0 <? r then [mkPos (r - 1) c] else [])
  ++ (if c <? gridSize s - 1 then [mkPos r (c + 1)] else [])
  ++ (if r <? gridSize s - 1 then [mkPos (r + 1) c] else [])
  ++ (if 0 <? c then [mkPos r (c - 1)] else []).

(** One iteration of the loop of [shuffleGrid]. *)
Definition shuffleStep (s : State) (r : Q) : result State :=
  let adj := getAdjacentTiles s in
  let i := floorMul r (inject_Z (Z.of_nat (length adj))) in
  if i <? 0 then TypeError
  else
    match adj !! Z.to_nat i with
    | Some p => swapTiles p s
    | None => TypeError
    end.

Fixpoint shuffleLoop (k : nat) (s : State) (rs : list Q) : result State :=
  match k with
  | O => Ok s
  | S k' =>
      match rs with
      | r :: rs' => s' ← shuffleStep s r; shuffleLoop k' s' rs'
      | [] => Starved
      end
  end.

(** [shuffleGrid]: [gridSize * gridSize * 10] random legal swaps. *)
Definition shuffleGrid (s : State) (rs : list Q) : result State :=
  shuffleLoop (Z.to_nat (gridSize s * gridSize s * 10)) s rs.

Definition gameComplete (s : State) : State :=
  let '(_, ts) :=
    setTimeout AlertCb 500 (clearInterval (timerInterval s) (timers s)) in
  {| grid := grid s; emptyTile := emptyTile s; gridSize := gridSize s;
     moves := moves s; timer := timer s; timerInterval := timerInterval s;
     gameRunning := false; timers := ts;
     movesText := movesText s; timerText := timerText s |}.

Section WithBrowser.
(** [bgMatches img n r c]: does the [backgroundPosition] the browser
    reports for [img] equal the string the script formats for cell
    [(r, c)] of an [n]-grid?  The serialisation is the browser's. *)
Variable bgMatches : Img -> Z -> Z -> Z -> bool.

(** The check of one cell in [isPuzzleSolved]: [Ok true] to go on,
    [Ok false] to return false. *)
Definition cellSolved (s : State) (r c : Z) : result bool :=
  let n := gridSize s in
  if (r =? n - 1) && (c =? n - 1) then Ok true
  else
    match tileAt (grid s) (mkPos r c) with
    | None => TypeError
    | Some t =>
        match content t with
        | None => Ok true
        | Some img => Ok (bgMatches img n r c)
        end
    end.

Fixpoint allSolved (s : State) (cells : list Pos) : result bool :=
  match cells with
  | [] => Ok true
  | p :: rest =>
      b ← cellSolved s (row p) (col p);
      if b : bool then allSolved s rest else Ok false
  end.

(** [isPuzzleSolved]. *)
Definition isPuzzleSolved (s : State) : result bool :=
  let n := gridSize s in
  if negb (row (emptyTile s) =? n - 1) || negb (col (emptyTile s) =? n - 1)
  then Ok false
  else
    allSolved s
      (flat_map (fun r => map (fun c => mkPos r c) (indices n))
         (indices n)).

(** [moveTile(row, col)]. *)
Definition moveTile (p : Pos) (s : State) : result State :=
  let e := emptyTile s in
  if ((row p =? row e) && (Z.abs (col p - col e) =? 1))
     || ((col p =? col e) && (Z.abs (row p - row e) =? 1))
  then
    s1 ← swapTiles p s;
    let m := moves s1 + 1 in
    let s2 :=
      {| grid := grid s1; emptyTile := emptyTile s1;
         gridSize := gridSize s1; moves := m; timer := timer s1;
         timerInterval := timerInterval s1;
         gameRunning := gameRunning s1; timers := timers s1;
         movesText := NumberToString m; timerText := timerText s1 |} in
    b ← isPuzzleSolved s2;
    Ok (if b : bool then gameComplete s2 else s2)
  else Ok s.

(** [startGame]. *)
Definition startGame (s : State) (rs : list Q) : result State :=
  if gameRunning s then Ok s
  else
    let s0 := resetGame s in
    let s1 :=
      createGrid
        {| grid := grid s0; emptyTile := emptyTile s0;
           gridSize := gridSize s0; moves := moves s0; timer := timer s0;
           timerInterval := timerInterval s0; gameRunning := true;
           timers := timers s0;
           movesText := movesText s0; timerText := timerText s0 |} in
    s2 ← shuffleGrid s1 rs;
    let '(id, ts) := setInterval TimerCb 1000 (timers s2) in
    Ok {| grid := grid s2; emptyTile := emptyTile s2;
          gridSize := gridSize s2; moves := moves s2; timer := timer s2;
          timerInterval := Some id; gameRunning := gameRunning s2;
          timers := ts;
          movesText := movesText s2; timerText := timerText s2 |}.

(** The body of the one-second interval. *)
Definition tickTimer (s : State) : State :=
  {| grid := grid s; emptyTile := emptyTile s; gridSize := gridSize s;
     moves := moves s; timer := timer s + 1;
     timerInterval := timerInterval s; gameRunning := gameRunning s;
     timers := timers s;
     movesText := movesText s;
     timerText := NumberToString (timer s + 1) |}.

Definition setGridSize (n : Z) (s : State) : State :=
  {| grid := grid s; emptyTile := emptyTile s; gridSize := n;
     moves := moves s; timer := timer s;
     timerInterval := timerInterval s; gameRunning := gameRunning s;
     timers := timers s;
     movesText := movesText s; timerText := timerText s |}.

Definition setTimers (ts : Timers Callback) (s : State) : State :=
  {| grid := grid s; emptyTile := emptyTile s; gridSize := gridSize s;
     moves := moves s; timer := timer s;
     timerInterval := timerInterval s; gameRunning := gameRunning s;
     timers := ts;
     movesText := movesText s; timerText := timerText s |}.

Inductive Event : Type :=
| ClickStart (rs : list Q)
| ClickReset
| SelectDifficulty (n : Z)
| ClickTile (p : Pos)
| Fire (id : nat).

Definition step (s : State) (e : Event) : result State :=
  match e with
  | ClickStart rs => startGame s rs
  | ClickReset => Ok (resetGame s)
  | SelectDifficulty n => Ok (setGridSize n s)
  | ClickTile p =>
      (* only an element of the grid can be clicked *)
      match tileAt (grid s) p with
      | None => Ok s
      | Some _ => if gameRunning s then moveTile p s else Ok s
      end
  | Fire id =>
      match fire id (timers s) with
      | None => Ok s
      | Some (TimerCb, ts) => Ok (tickTimer (setTimers ts s))
      | Some (AlertCb, ts) => Ok (setTimers ts s)
      end
  end.

Fixpoint run (s : State) (es : list Event) : result State :=
  match es with
  | [] => Ok s
  | e :: es' => s' ← step s e; run s' es'
  end.
End WithBrowser.

(** *** Vocabulary of the properties *)

(** The cell recorded in [emptyTile] is the one and only cell of the grid
    whose tile has the [empty] class. *)
Definition UniqueEmpty (s : State) : Prop :=
  (exists t : Tile, tileAt (grid s) (emptyTile s) = Some t /\ empty t = true)
  /\ forall (p : Pos) (t : Tile),
       tileAt (grid s) p = Some t -> empty t = true -> p = emptyTile s.

(** No two cells of the grid are empty. *)
Definition AtMostOneEmpty (s : State) : Prop :=
  forall (p q : Pos) (tp tq : Tile),
    tileAt (grid s) p = Some tp -> empty tp = true ->
    tileAt (grid s) q = Some tq -> empty tq = true ->
    p = q.

(** The page just loaded: a solved 4 by 4 grid. *)
Definition freshPage : State := initial "0" "0".

(** Cell [p] lies in an [n] by [n] grid. *)
Definition inGrid (n : Z) (p : Pos) : Prop :=
  0 <= row p < n /\ 0 <= col p < n.

(** The grid array holds a tile exactly at the cells of the
    [gridSize] by [gridSize] square. *)
Definition Square (s : State) : Prop :=
  forall p : Pos, is_Some (tileAt (grid s) p) <-> inGrid (gridSize s) p.

(** Cells one step apart, horizontally or vertically. *)
Definition nextTo (p e : Pos) : Prop :=
  Z.abs (row p - row e) + Z.abs (col p - col e) = 1.

(** The tile at [p] is where [createGrid] put it, as far as
    [isPuzzleSolved] looks: it has no image, or its image matches. *)
Definition inPlace (bgMatches : Img -> Z -> Z -> Z -> bool) (s : State)
    (p : Pos) : Prop :=
  forall (t : Tile) (img : Img),
    tileAt (grid s) p = Some t -> content t = Some img ->
    bgMatches img (gridSize s) (row p) (col p) = true.

(** The browser of the examples: an image matches the cell and grid size
    it was made for, and no other. *)
Definition sampleBrowser (img : Img) (n r c : Z) : bool :=
  (imgRow img =? r) && (imgCol img =? c) && (imgGrid img =? n).

End Puzzle.

(** ** Tic-Tac-Toe *)

Module TicTacToe.

Inductive Mark : Type := X | O.

#[export] Instance Mark_eq_dec : EqDecision Mark.
Proof. solve_decision. Defined.

(** The two icons the script writes into a cell: [fa-times] and
    [fa-circle]. *)
Inductive Icon : Type := Times | Circle.

Inductive Callback : Type :=
| AIMoveCb           (* [makeAIMove], scheduled by [handleCellClick] *).

(** [board] holds a mark or the empty string ([None]) per cell; [cells]
    is the [innerHTML] of the nine cell elements. *)
Record State : Type := mkState {
  board : list (option Mark);
  currentPlayer : Mark;
  gameActive : bool;
  cells : list (option Icon);
  status : string;
  timers : Timers Callback
}.

Definition markName (m : Mark) : string :=
  match m with X => "X" | O => "O" end.

(** The text [updateStatus] writes. *)
Definition turnText (m : Mark) : string :=
  (match m with X => "Your" | O => "AI's" end) +:+ " Turn (" +:+ markName m
  +:+ ")".

Definition winText (m : Mark) : string := markName m +:+ " wins!".

Definition drawText : string := "Game ended in a draw!".

Definition emptyBoard : list (option Mark) := replicate 9 None.

(** [createBoard]: nine fresh cell elements. *)
Definition createBoard : list (option Icon) := replicate 9 None.

(** The state once the script is loaded and [DOMContentLoaded] has run. *)
Definition initial : State :=
  {| board := emptyBoard; currentPlayer := X; gameActive := true;
     cells := createBoard; status := turnText X; timers := noTimers |}.

Definition winPatterns : list (nat * nat * nat) :=
  [(0, 1, 2); (3, 4, 5); (6, 7, 8);
   (0, 3, 6); (1, 4, 7); (2, 5, 8);
   (0, 4, 8); (2, 4, 6)]%nat.

(** The test of one pattern; [b !! a] is [None] where [board[a]] is
    [undefined]. *)
Definition lineWon (b : list (option Mark)) (l : nat * nat * nat) : bool :=
  let '(a, b', c) := l in
  bool_decide (b !! a <> Some None)
  && bool_decide (b !! a = b !! b')
  && bool_decide (b !! a = b !! c).

(** [checkWin]. *)
Definition checkWin (b : list (option Mark)) : bool :=
  existsb (lineWon b) winPatterns.

(** [checkDraw]: [!board.includes('')]. *)
Definition checkDraw (b : list (option Mark)) : bool :=
  negb (existsb (fun c => bool_decide (c = None)) b).

Definition other (m : Mark) : Mark :=
  match m with X => O | O => X end.

Definition iconOf (m : Mark) : Icon :=
  match m with X => Times | O => Circle end.

(** [handleCellClick] for a click on cell [i]. *)
Definition handleCellClick (i : nat) (s : State) : State :=
  match board s !! i with
  | Some None =>
      if gameActive s then
        let m := currentPlayer s in
        let b := <[i := Some m]> (board s) in
        let cs := <[i := Some (iconOf m)]> (cells s) in
        if checkWin b then
          {| board := b; currentPlayer := m; gameActive := false;
             cells := cs; status := winText m; timers := timers s |}
        else if checkDraw b then
          {| board := b; currentPlayer := m; gameActive := false;
             cells := cs; status := drawText; timers := timers s |}
        else
          let m' := other m in
          {| board := b; currentPlayer := m'; gameActive := true;
             cells := cs; status := turnText m';
             timers :=
               if bool_decide (m' = O)
               then snd (setTimeout AIMoveCb 500 (timers s))
               else timers s |}
      else s
  | _ => s
  end.

(** The indices [makeAIMove] collects, in increasing order. *)
Definition emptyIndices (b : list (option Mark)) : list nat :=
  List.filter (fun i => bool_decide (b !! i = Some None)) (seq 0 (length b)).

(** [makeAIMove], for the draw [r]. *)
Definition makeAIMove (s : State) (r : Q) : result State :=
  let es := emptyIndices (board s) in
  if (0 <? length es)%nat then
    let j := floorMul r (inject_Z (Z.of_nat (length es))) in
    match (if j <? 0 then None else es !! Z.to_nat j) with
    | None => TypeError
    | Some k =>
        let m := currentPlayer s in
        let b := <[k := Some m]> (board s) in
        let cs := <[k := Some Circle]> (cells s) in
        if checkWin b then
          Ok {| board := b; currentPlayer := m; gameActive := false;
                cells := cs; status := winText m; timers := timers s |}
        else if checkDraw b then
          Ok {| board := b; currentPlayer := m; gameActive := false;
                cells := cs; status := drawText; timers := timers s |}
        else
          Ok {| board := b; currentPlayer := X; gameActive := gameActive s;
                cells := cs; status := turnText X; timers := timers s |}
    end
  else Ok s.

(** [resetGame]. *)
Definition resetGame (s : State) : State :=
  {| board := emptyBoard; currentPlayer := X; gameActive := true;
     cells := createBoard; status := turnText X; timers := timers s |}.

Definition setTimers (ts : Timers Callback) (s : State) : State :=
  {| board := board s; currentPlayer := currentPlayer s;
     gameActive := gameActive s; cells := cells s; status := status s;
     timers := ts |}.

Inductive Event : Type :=
| ClickCell (i : nat)
| ClickReset
| Fire (id : nat) (r : Q).

Definition step (s : State) (e : Event) : result State :=
  match e with
  | ClickCell i => Ok (handleCellClick i s)
  | ClickReset => Ok (resetGame s)
  | Fire id r =>
      match fire id (timers s) with
      | None => Ok s
      | Some (AIMoveCb, ts) => makeAIMove (setTimers ts s) r
      end
  end.

Fixpoint run (s : State) (es : list Event) : result State :=
  match es with
  | [] => Ok s
  | e :: es' => s' ← step s e; run s' es'
  end.

(** *** Vocabulary of the properties *)

(** A game that is still active is undecided: no line is complete and a
    cell is free. *)
Definition Undecided (s : State) : Prop :=
  gameActive s = true ->
  checkWin (board s) = false /\ exists i : nat, board s !! i = Some None.

(** Every event but Reset. *)
Definition keepsBoard (e : Event) : bool :=
  match e with
  | ClickReset => false
  | ClickCell _ | Fire _ _ => true
  end.

(** The draw an event carries is a result of [Math.random]. *)
Definition Drawn (e : Event) : Prop :=
  match e with
  | Fire _ r => unitInterval r
  | ClickCell _ | ClickReset => True
  end.

End TicTacToe.

(** ** Memory *)

Module Memory.

(** The six card symbols of [icons], in the order of the array. *)
Inductive Icon : Type :=
| Apple | Banana | Grapes | Watermelon | Strawberry | Kiwi.

#[export] Instance Icon_eq_dec : EqDecision Icon.
Proof. solve_decision. Defined.

Definition icons : list Icon :=
  [Apple; Banana; Grapes; Watermelon; Strawberry; Kiwi].

(** An entry of [deck]: the symbol and the random [id] it is sorted by. *)
Record Card : Type := mkCard { icon : Icon; id : Q }.

(** A card element: [dataset.icon], the [flipped] class, its
    [textContent] (blank or the symbol) and whether [onCardClick] is still
    registered on it. *)
Record Elem : Type := mkElem {
  eicon : Icon;
  flipped : bool;
  text : option Icon;
  listening : bool
}.

Inductive Callback : Type :=
| UnflipCb           (* the delayed callback of [unflipCards] *)
| AlertCb            (* the delayed alert of [disableMatched] *).

(** [firstCard] and [secondCard] hold an element of the board or [null];
    an element is named by its position on the board. *)
Record State : Type := mkState {
  deck : list Card;
  firstCard : option nat;
  secondCard : option nat;
  lockBoard : bool;
  moves : Z;
  movesText : string;
  cards : list Elem;
  timers : Timers Callback
}.

(** [Array.prototype.sort] with the comparator [a.id - b.id]: ascending
    by [id], entries with equal [id] in their original order. *)
Fixpoint insertById (c : Card) (l : list Card) : list Card :=
  match l with
  | [] => [c]
  | d :: l' =>
      if Qle_bool (id d) (id c) then d :: insertById c l'
      else c :: d :: l'
  end.

Definition sortById (l : list Card) : list Card :=
  fold_left (fun acc c => insertById c acc) l [].

(** [initDeck]: one draw per card. *)
Definition initDeck (rs : list Q) : result (list Card) :=
  if (length rs <? 12)%nat then Starved
  else Ok (sortById (zip_with mkCard (icons ++ icons) rs)).

(** [buildBoard]: one face-down element per entry of the deck. *)
Definition buildBoard (d : list Card) : list Elem :=
  (fun c => {| eicon := icon c; flipped := false; text := None;
               listening := true |}) <$> d.

Definition movesLabel (m : Z) : string := "Moves: " +:+ NumberToString m.

(** [resetGame]; the last step is [resetTurn]. *)
Definition resetGame (s : State) (rs : list Q) : result State :=
  d ← initDeck rs;
  Ok {| deck := d; firstCard := None; secondCard := None;
        lockBoard := false; moves := 0; movesText := movesLabel 0;
        cards := buildBoard d; timers := timers s |}.

(** The state once [DOMContentLoaded] has run: it ends with a call of
    [resetGame]. *)
Definition initial (rs : list Q) : result State :=
  resetGame
    {| deck := []; firstCard := None; secondCard := None;
       lockBoard := false; moves := 0; movesText := EmptyString;
       cards := []; timers := noTimers |}
    rs.

Definition faceUp (el : Elem) : Elem :=
  {| eicon := eicon el; flipped := true; text := Some (eicon el);
     listening := listening el |}.

Definition faceDown (el : Elem) : Elem :=
  {| eicon := eicon el; flipped := false; text := None;
     listening := listening el |}.

Definition unlisten (el : Elem) : Elem :=
  {| eicon := eicon el; flipped := flipped el; text := text el;
     listening := false |}.

(** [disableMatched], for the two cards of the turn. *)
Definition disableMatched (f g : nat) (m : Z) (cs : list Elem) (s : State)
  : State :=
  let cs' := alter unlisten g (alter unlisten f cs) in
  {| deck := deck s; firstCard := None; secondCard := None;
     lockBoard := false; moves := m; movesText := movesLabel m;
     cards := cs';
     timers :=
       if forallb flipped cs'
       then snd (setTimeout AlertCb 200 (timers s))
       else timers s |}.

(** [unflipCards], for the two cards of the turn. *)
Definition unflipCards (f g : nat) (m : Z) (cs : list Elem) (s : State)
  : State :=
  {| deck := deck s; firstCard := Some f; secondCard := Some g;
     lockBoard := true; moves := m; movesText := movesLabel m;
     cards := cs;
     timers := snd (setTimeout UnflipCb 1000 (timers s)) |}.

(** [onCardClick] for a click on card [i]; a card whose listener was
    removed takes no click.  [firstCard] is an element of the board: the
    script cannot reach the [TypeError] of this function. *)
Definition onCardClick (i : nat) (s : State) : result State :=
  match cards s !! i with
  | None => Ok s
  | Some el =>
      if negb (listening el) then Ok s
      else if lockBoard s || bool_decide (firstCard s = Some i) || flipped el
      then Ok s
      else
        let cs := <[i := faceUp el]> (cards s) in
        match firstCard s with
        | None =>
            Ok {| deck := deck s; firstCard := Some i;
                  secondCard := secondCard s; lockBoard := lockBoard s;
                  moves := moves s; movesText := movesText s;
                  cards := cs; timers := timers s |}
        | Some f =>
            match cs !! f with
            | None => TypeError
            | Some fe =>
                if bool_decide (eicon fe = eicon el)
                then Ok (disableMatched f i (moves s + 1) cs s)
                else Ok (unflipCards f i (moves s + 1) cs s)
            end
        end
  end.

(** The delayed callback of [unflipCards]: it reads [firstCard] and
    [secondCard] when it runs. *)
Definition unflip (s : State) : result State :=
  match firstCard s, secondCard s with
  | Some f, Some g =>
      Ok {| deck := deck s; firstCard := None; secondCard := None;
            lockBoard := false; moves := moves s; movesText := movesText s;
            cards := alter faceDown g (alter faceDown f (cards s));
            timers := timers s |}
  | _, _ => TypeError
  end.

Definition setTimers (ts : Timers Callback) (s : State) : State :=
  {| deck := deck s; firstCard := firstCard s; secondCard := secondCard s;
     lockBoard := lockBoard s; moves := moves s; movesText := movesText s;
     cards := cards s; timers := ts |}.

Inductive Event : Type :=
| ClickCard (i : nat)
| ClickRestart (rs : list Q)
| Fire (id : nat).

Definition step (s : State) (e : Event) : result State :=
  match e with
  | ClickCard i => onCardClick i s
  | ClickRestart rs => resetGame s rs
  | Fire id =>
      match fire id (timers s) with
      | None => Ok s
      | Some (UnflipCb, ts) => unflip (setTimers ts s)
      | Some (AlertCb, ts) => Ok (setTimers ts s)
      end
  end.

Fixpoint run (s : State) (es : list Event) : result State :=
  match es with
  | [] => Ok s
  | e :: es' => s' ← step s e; run s' es'
  end.

(** *** Vocabulary of the properties *)

(** Every symbol is on exactly two of the twelve cards. *)
Definition Paired (s : State) : Prop :=
  (eicon <$> cards s) ≡ₚ icons ++ icons.

(** The face-up cards that are not matched yet are cards of the current
    turn. *)
Definition TurnCards (s : State) : Prop :=
  forall (i : nat) (el : Elem),
    cards s !! i = Some el -> flipped el = true -> listening el = true ->
    firstCard s = Some i \/ secondCard s = Some i.

(** While the board is not locked there is no second card. *)
Definition OneOpen (s : State) : Prop :=
  lockBoard s = false -> secondCard s = None.

(** The turn and the timer table agree: the cards of the turn are on the
    board; the board is locked exactly while both cards of a mismatch wait
    for the one pending unflip timeout; every timer is a timeout. *)
Definition Tidy (s : State) : Prop :=
  (forall f : nat, firstCard s = Some f -> (f < length (cards s))%nat)
  /\ (lockBoard s = true ->
      is_Some (firstCard s) /\ is_Some (secondCard s))
  /\ (lockBoard s = false ->
      forall (k : nat) (t : Task Callback),
        active (timers s) !! k = Some t -> callback t = AlertCb)
  /\ (forall (k k' : nat) (t t' : Task Callback),
        active (timers s) !! k = Some t ->
        active (timers s) !! k' = Some t' ->
        callback t = UnflipCb -> callback t' = UnflipCb -> k = k')
  /\ (forall (k : nat) (t : Task Callback),
        active (timers s) !! k = Some t -> repeat t = false).

(** Every event but Restart. *)
Definition keepsBoard (e : Event) : bool :=
  match e with
  | ClickRestart _ => false
  | ClickCard _ | Fire _ => true
  end.

(** The page loaded with the draws 0, 1/16, ..., 11/16: the deck keeps the
    order of [icons], twice. *)
Definition ordered : list Q :=
  (fun k => inject_Z (Z.of_nat k) / 16)%Q <$> seq 0 12.

Definition freshPage : result State := initial ordered.

End Memory.

(** ** The score gateway shared by Snake, Endless Runner and Whack-a-Mole

    The three scripts keep their best score the same way: [highScore] is
    read once when the script loads, and every score increase is followed
    by [if (score > highScore) { highScore = score; ...setItem(key,
    highScore) }].  A [Game] packages what the properties of that gateway
    need from each script. *)

Module Gateway.

Record Game : Type := mkGame {
  state : Type;
  event : Type;
  step : state -> event -> result state;
  (* [started s0 s1]: Start pressed in the stopped state [s0] gives [s1] *)
  started : state -> state -> Prop;
  (* the events of a session: timers and player input, not the controls *)
  inSession : event -> bool;
  score : state -> Z;
  highScore : state -> JsVal;
  storage : state -> gmap string string;
  key : string
}.

Fixpoint run (G : Game) (s : state G) (es : list (event G))
  : result (state G) :=
  match es with
  | [] => Ok s
  | e :: es' => s' ← step G s e; run G s' es'
  end.

(** The stored item of the game. *)
Definition stored (G : Game) (s : state G) : option string :=
  storage G s !! key G.

(** The best score on record is the natural number [h]: the store holds its
    numeral, or nothing yet while [h] is 0, and the [highScore] variable
    holds the number or the numeral read at load time. *)
Definition Recorded (hs : JsVal) (item : option string) (h : Z) : Prop :=
  0 <= h /\
  (hs = JNum h \/ hs = JStr (NumberToString h)) /\
  (item = Some (NumberToString h) \/ (item = None /\ h = 0)).

(** Every step writes the store only on a score above the record, after
    which the record is that score. *)
Definition WritesOnlyRecords (G : Game) : Prop :=
  forall (s s' : state G) (e : event G) (h : Z),
    Recorded (highScore G s) (stored G s) h ->
    score G s <= h ->
    step G s e = Ok s' ->
    Recorded (highScore G s') (stored G s') (Z.max h (score G s')) /\
    score G s' <= Z.max h (score G s') /\
    (storage G s' = storage G s \/
     (h < score G s' /\
      storage G s' =
      <[key G := NumberToString (score G s')]> (storage G s))).

(** At any point of a session, and so when it ends, the record is the
    larger of the record before the session and the session's score. *)
Definition SessionEndsAtMax (G : Game) : Prop :=
  forall (s0 s1 s' : state G) (es : list (event G)) (h : Z),
    Recorded (highScore G s0) (stored G s0) h ->
    started G s0 s1 ->
    Forall (fun e => inSession G e = true) es ->
    run G s1 es = Ok s' ->
    Recorded (highScore G s') (stored G s') (Z.max h (score G s')) /\
    (h < score G s' -> stored G s' = Some (NumberToString (score G s'))).

Section WithRuntime.
Context `{Runtime}.

Definition snake : Game :=
  {| state := Snake.State;
     event := Snake.Event;
     step := Snake.step;
     started := fun s0 s1 =>
       Snake.gameRunning s0 = false /\
       exists rs : list Q, Snake.startGame s0 rs = Ok s1;
     inSession := fun e =>
       match e with
       | Snake.ClickStart _ | Snake.ClickReset => false
       | Snake.KeyDown _ | Snake.Fire _ _ => true
       end;
     score := Snake.score;
     highScore := Snake.highScore;
     storage := Snake.storage;
     key := Snake.storageKey |}.

Definition runner : Game :=
  {| state := Runner.State;
     event := Runner.Event;
     step := Runner.step;
     started := fun s0 s1 =>
       Runner.gameRunning s0 = false /\ Runner.startGame s0 = s1;
     inSession := fun e =>
       match e with
       | Runner.ClickStart | Runner.ClickReset => false
       | Runner.KeyDown _ | Runner.Fire _ _ => true
       end;
     score := Runner.score;
     highScore := Runner.highScore;
     storage := Runner.storage;
     key := Runner.storageKey |}.

Definition whack : Game :=
  {| state := Whack.State;
     event := Whack.Event;
     step := Whack.step;
     started := fun s0 s1 =>
       Whack.gameRunning s0 = false /\
       exists r1 r2 : Q, Whack.startGame s0 r1 r2 = Ok s1;
     inSession := fun e =>
       match e with
       | Whack.ClickStart _ _ | Whack.ClickReset => false
       | Whack.ClickMole _ | Whack.Fire _ _ _ => true
       end;
     score := Whack.score;
     highScore := Whack.highScore;
     storage := Whack.storage;
     key := Whack.storageKey |}.

(** How a handler may leave the score and its record: untouched, or the
    score one up with the [if (score > highScore)] update applied. *)
Inductive Bumped (k : string) (sc : Z) (hs : JsVal) (st : gmap string string)
  : Z -> JsVal -> gmap string string -> Prop :=
| bumped_keep : Bumped k sc hs st sc hs st
| bumped_up :
    Bumped k sc hs st (sc + 1)
      (if gt (sc + 1) hs then JNum (sc + 1) else hs)
      (if gt (sc + 1) hs then <[k := NumberToString (sc + 1)]> st else st).

End WithRuntime.

(** A Whack-a-Mole page whose store holds the record 3, and a session on
    it in which mole 4 is whacked five times; the mole timeouts are the
    timers 2 to 5. *)
Definition whackPage : Whack.State :=
  Whack.initial {[ Whack.storageKey := "3" ]} "0" "30".

Definition fiveWhacks : list Whack.Event :=
  [Whack.ClickMole 4; Whack.Fire 2 (1 # 2) (1 # 2);
   Whack.ClickMole 4; Whack.Fire 3 (1 # 2) (1 # 2);
   Whack.ClickMole 4; Whack.Fire 4 (1 # 2) (1 # 2);
   Whack.ClickMole 4; Whack.Fire 5 (1 # 2) (1 # 2);
   Whack.ClickMole 4].

(** A Whack-a-Mole page whose store holds a string that is no numeral. *)
Definition abcPage : Whack.State :=
  Whack.initial {[ Whack.storageKey := "abc" ]} "0" "30".

(** Within a session the score never goes down, and goes up by at most one
    per event. *)
Definition ScoreClimbs (G : Game) : Prop :=
  forall (s s' : state G) (es : list (event G)),
    Forall (fun e => inSession G e = true) es ->
    run G s es = Ok s' ->
    score G s <= score G s' <= score G s + Z.of_nat (length es).

End Gateway.

(** * Properties *)

(** ** Facts about the runtime model *)

Module JsProps.

(** [Math.floor] of a rational is the integer just below it. *)
Lemma js_floor_spec (q : Q) (k : Z) :
  Qfloor q = k <-> (inject_Z k <= q)%Q /\ (q < inject_Z (k + 1))%Q.
Proof.
  split.
  - intros <-. split; [apply Qfloor_le | apply Qlt_floor].
  - intros [Hle Hlt]. apply Z.le_antisymm.
    + apply Z.lt_succ_r. unfold Z.succ. rewrite Zlt_Qlt.
      eapply Qle_lt_trans; [apply Qfloor_le | exact Hlt].
    + rewrite <- (Qfloor_Z k). apply Qfloor_resp_le, Hle.
Qed.

(** pow2 *)
Lemma js_pow2_pos (e : Z) : (0 < pow2 e)%Q.
Proof. apply Qpower_0_lt. reflexivity. Qed.

Lemma js_pow2_add (a b : Z) : (pow2 (a + b) == pow2 a * pow2 b)%Q.
Proof. apply Qpower_plus. discriminate. Qed.

Lemma js_pow2_le (a b : Z) : a <= b -> (pow2 a <= pow2 b)%Q.
Proof. intros Hab. apply Qpower_le_compat_l; [exact Hab | discriminate]. Qed.

Lemma js_pow2_lt (a b : Z) : a < b -> (pow2 a < pow2 b)%Q.
Proof. intros Hab. apply Qpower_lt_compat_l; [exact Hab | reflexivity]. Qed.

Lemma js_pow2_lt_inv (a b : Z) : (pow2 a < pow2 b)%Q -> a < b.
Proof. intros Hab. eapply Qpower_lt_compat_l_inv; [exact Hab | reflexivity]. Qed.

Lemma js_pow2_Z (n : Z) : 0 <= n -> (pow2 n == inject_Z (2 ^ n))%Q.
Proof. intros Hn. unfold pow2. symmetry. apply (Zpower_Qpower 2 n Hn). Qed.

Lemma js_pow2_succ (e : Z) : (pow2 (e + 1) == 2 * pow2 e)%Q.
Proof. rewrite js_pow2_add. change (pow2 1) with 2%Q. ring. Qed.

(** The binary exponent *)
Lemma js_expo_spec (x : Q) :
  (0 < x)%Q -> (pow2 (expo x) <= x)%Q /\ (x < pow2 (expo x + 1))%Q.
Proof.
  intros Hx. destruct x as [n d]. unfold expo. cbn [Qnum Qden].
  assert (Hn : 0 < n) by (unfold Qlt in Hx; simpl in Hx; lia).
  set (ln := Z.log2 n). set (ld := Z.log2 (Z.pos d)).
  destruct (Z.log2_spec n Hn) as [Hn1 Hn2]. fold ln in Hn1, Hn2.
  destruct (Z.log2_spec (Z.pos d) ltac:(lia)) as [Hd1 Hd2].
  fold ld in Hd1, Hd2.
  assert (Hln : 0 <= ln) by apply Z.log2_nonneg.
  assert (Hld : 0 <= ld) by apply Z.log2_nonneg.
  assert (Hup : (n # d < pow2 (ln - ld + 1))%Q).
  { replace (ln - ld + 1) with ((ln + 1) + - ld) by lia.
    rewrite js_pow2_add. unfold pow2 at 2. rewrite Qpower_opp.
    fold (pow2 ld). rewrite !js_pow2_Z by lia.
    apply Qlt_shift_div_l.
    - change 0%Q with (inject_Z 0). rewrite <- Zlt_Qlt. lia.
    - unfold Qlt, Qmult, inject_Z. cbn [Qnum Qden].
      rewrite Z.mul_1_r, Pos.mul_1_r.
      unfold Z.succ in Hn2. fold ln in Hn2. nia. }
  assert (Hlow : (pow2 (ln - ld - 1) <= n # d)%Q).
  { replace (ln - ld - 1) with (ln + - (ld + 1)) by lia.
    rewrite js_pow2_add. unfold pow2 at 2. rewrite Qpower_opp.
    fold (pow2 (ld + 1)). rewrite !js_pow2_Z by lia.
    apply Qle_shift_div_r.
    - change 0%Q with (inject_Z 0). rewrite <- Zlt_Qlt. lia.
    - unfold Qle, Qmult, inject_Z. cbn [Qnum Qden].
      rewrite Z.mul_1_r, Pos.mul_1_r.
      unfold Z.succ in Hd2. fold ld in Hd2. nia. }
  destruct (Qle_bool (pow2 (ln - ld)) (n # d)) eqn:Hb.
  - apply Qle_bool_iff in Hb. split; assumption.
  - split; [exact Hlow|].
    replace (ln - ld - 1 + 1) with (ln - ld) by lia.
    apply Qnot_le_lt. intros Hle. apply Qle_bool_iff in Hle. congruence.
Qed.

Lemma js_expo_unique (x : Q) (e : Z) :
  (pow2 e <= x)%Q -> (x < pow2 (e + 1))%Q -> expo x = e.
Proof.
  intros Hlo Hhi.
  assert (Hx : (0 < x)%Q)
    by (eapply Qlt_le_trans; [apply js_pow2_pos | exact Hlo]).
  destruct (js_expo_spec x Hx) as [Hlo' Hhi'].
  assert (H1 : expo x < e + 1).
  { apply js_pow2_lt_inv. eapply Qle_lt_trans; eassumption. }
  assert (H2 : e < expo x + 1).
  { apply js_pow2_lt_inv. eapply Qle_lt_trans; eassumption. }
  lia.
Qed.

(** Rounding to the nearest integer, ties to even *)
Lemma js_rne_comp (p q : Q) : (p == q)%Q -> rne p = rne q.
Proof.
  intros Hpq. unfold rne. rewrite (Qfloor_comp p q Hpq).
  assert (He : (p - inject_Z (Qfloor q) == q - inject_Z (Qfloor q))%Q)
    by (rewrite Hpq; reflexivity).
  rewrite He. reflexivity.
Qed.

Lemma js_rne_cases (q : Q) :
  (rne q = Qfloor q /\ (q - inject_Z (Qfloor q) <= 1 # 2)%Q)
  \/ (rne q = Qfloor q + 1 /\ (1 # 2 <= q - inject_Z (Qfloor q))%Q).
Proof.
  unfold rne. destruct (Qcompare_spec (q - inject_Z (Qfloor q)) (1 # 2))
    as [He|Hl|Hg].
  - destruct (Z.even (Qfloor q));
      [left | right]; split; try reflexivity; lra.
  - left. split; [reflexivity | lra].
  - right. split; [reflexivity | lra].
Qed.

Lemma js_rne_lower (q : Q) : (inject_Z (rne q) - (1 # 2) <= q)%Q.
Proof.
  pose proof (Qfloor_le q) as Hf.
  destruct (js_rne_cases q) as [[-> _]|[-> Hh]].
  - lra.
  - rewrite inject_Z_plus. change (inject_Z 1) with 1%Q. lra.
Qed.

Lemma js_rne_upper (q : Q) : (q <= inject_Z (rne q) + (1 # 2))%Q.
Proof.
  pose proof (Qlt_floor q) as Hf. rewrite inject_Z_plus in Hf.
  change (inject_Z 1) with 1%Q in Hf.
  destruct (js_rne_cases q) as [[-> Hh]|[-> _]].
  - lra.
  - rewrite inject_Z_plus. change (inject_Z 1) with 1%Q. lra.
Qed.

Lemma js_rne_Z (z : Z) : rne (inject_Z z) = z.
Proof.
  unfold rne. rewrite Qfloor_Z.
  assert (He : (inject_Z z - inject_Z z == 0)%Q) by ring.
  rewrite He. reflexivity.
Qed.

Lemma js_rne_mono (p q : Q) : (p <= q)%Q -> rne p <= rne q.
Proof.
  intros Hpq. pose proof (Qfloor_resp_le p q Hpq) as Hf.
  destruct (Z.eq_dec (Qfloor p) (Qfloor q)) as [He|Hne].
  - unfold rne. rewrite He.
    destruct (Qcompare_spec (p - inject_Z (Qfloor q)) (1 # 2)) as [E1|L1|G1];
      destruct (Qcompare_spec (q - inject_Z (Qfloor q)) (1 # 2))
        as [E2|L2|G2];
      try (destruct (Z.even (Qfloor q))); try lia; exfalso; lra.
  - assert (Hp : rne p <= Qfloor p + 1)
      by (destruct (js_rne_cases p) as [[-> _]|[-> _]]; lia).
    assert (Hq : Qfloor q <= rne q)
      by (destruct (js_rne_cases q) as [[-> _]|[-> _]]; lia).
    lia.
Qed.

(** Rounding to the nearest double *)
Lemma js_ulp_pos (x : Q) : (0 < ulp x)%Q.
Proof. apply js_pow2_pos. Qed.

Lemma js_expo_comp (x y : Q) : (0 < x)%Q -> (x == y)%Q -> expo x = expo y.
Proof.
  intros Hx Hxy. assert (Hy : (0 < y)%Q) by (rewrite <- Hxy; exact Hx).
  destruct (js_expo_spec y Hy) as [Hlo Hhi].
  apply js_expo_unique; rewrite Hxy; assumption.
Qed.

Lemma js_roundPos_comp (x y : Q) :
  (0 < x)%Q -> (x == y)%Q -> (roundPos x == roundPos y)%Q.
Proof.
  intros Hx Hxy. unfold roundPos, ulp.
  rewrite (js_expo_comp x y Hx Hxy).
  set (u := pow2 _).
  rewrite (js_rne_comp (x / u) (y / u)) by (rewrite Hxy; reflexivity).
  reflexivity.
Qed.

Lemma js_round53_zero (x : Q) : (x == 0)%Q -> (round53 x == 0)%Q.
Proof.
  intros Hx. unfold round53. rewrite Qred_correct.
  destruct (Qcompare_spec x 0) as [_|Hl|Hg]; [reflexivity | lra | lra].
Qed.

Lemma js_round53_pos (x : Q) : (0 < x)%Q -> (round53 x == roundPos x)%Q.
Proof.
  intros Hx. unfold round53. rewrite Qred_correct.
  destruct (Qcompare_spec x 0) as [He|Hl|Hg]; [lra | lra | reflexivity].
Qed.

Lemma js_round53_neg (x : Q) :
  (x < 0)%Q -> (round53 x == - roundPos (- x))%Q.
Proof.
  intros Hx. unfold round53. rewrite Qred_correct.
  destruct (Qcompare_spec x 0) as [He|Hl|Hg]; [lra | reflexivity | lra].
Qed.

Lemma js_round53_comp (x y : Q) : (x == y)%Q -> (round53 x == round53 y)%Q.
Proof.
  intros Hxy. destruct (Qcompare_spec x 0) as [He|Hl|Hg].
  - rewrite (js_round53_zero x He), (js_round53_zero y); [reflexivity|].
    rewrite <- Hxy. exact He.
  - rewrite (js_round53_neg x Hl), (js_round53_neg y) by (rewrite <- Hxy; exact Hl).
    rewrite (js_roundPos_comp (- x) (- y)); [reflexivity | lra |].
    rewrite Hxy. reflexivity.
  - rewrite (js_round53_pos x Hg), (js_round53_pos y) by (rewrite <- Hxy; exact Hg).
    apply js_roundPos_comp; assumption.
Qed.

#[export] Instance js_round53_proper : Proper (Qeq ==> Qeq) round53.
Proof. intros x y Hxy. apply js_round53_comp, Hxy. Qed.

(** The rounded value is within half a unit in the last place. *)
Lemma js_roundPos_lower (x : Q) :
  (roundPos x - ulp x * (1 # 2) <= x)%Q.
Proof.
  unfold roundPos. pose proof (js_ulp_pos x) as Hu.
  pose proof (js_rne_lower (x / ulp x)) as Hm.
  set (m := inject_Z (rne (x / ulp x))) in *.
  assert (He : (x == x / ulp x * ulp x)%Q) by (field; lra).
  rewrite He at 3.
  assert (Hmul : ((m - (1 # 2)) * ulp x <= x / ulp x * ulp x)%Q)
    by (apply Qmult_le_compat_r; lra).
  lra.
Qed.

Lemma js_roundPos_upper (x : Q) :
  (x <= roundPos x + ulp x * (1 # 2))%Q.
Proof.
  unfold roundPos. pose proof (js_ulp_pos x) as Hu.
  pose proof (js_rne_upper (x / ulp x)) as Hm.
  set (m := inject_Z (rne (x / ulp x))) in *.
  assert (He : (x == x / ulp x * ulp x)%Q) by (field; lra).
  rewrite He at 1.
  assert (Hmul : (x / ulp x * ulp x <= (m + (1 # 2)) * ulp x)%Q)
    by (apply Qmult_le_compat_r; lra).
  lra.
Qed.

Lemma js_roundPos_nonneg (x : Q) : (0 <= x)%Q -> (0 <= roundPos x)%Q.
Proof.
  intros Hx. unfold roundPos. pose proof (js_ulp_pos x) as Hu.
  apply Qmult_le_0_compat; [|lra].
  change 0%Q with (inject_Z 0). rewrite <- Zle_Qle.
  rewrite <- (js_rne_Z 0). apply js_rne_mono.
  apply Qle_shift_div_l; [exact Hu|].
  change (inject_Z 0) with 0%Q. rewrite Qmult_0_l. exact Hx.
Qed.

Lemma js_round53_nonneg (x : Q) : (0 <= x)%Q -> (0 <= round53 x)%Q.
Proof.
  intros Hx. destruct (Qcompare_spec x 0) as [He|Hl|Hg].
  - rewrite (js_round53_zero x He). lra.
  - lra.
  - rewrite (js_round53_pos x Hg). apply js_roundPos_nonneg, Hx.
Qed.

(** A draw below 1 scales [k] to a double below [k]: the product of a
    double of [0, 1) (at most [1 - 2^-53]) with [k] never rounds up to
    [k]. *)
Lemma js_round53_below (r k : Q) :
  (0 <= r)%Q -> (r <= 1 - pow2 (-53))%Q -> (pow2 (-1022) < k)%Q ->
  (round53 (r * k) < k)%Q.
Proof.
  intros Hr0 Hr1 Hk.
  pose proof (js_pow2_pos (-1022)) as Hp.
  pose proof (js_pow2_pos (-53)) as Hp53.
  destruct (Qcompare_spec (r * k) 0) as [He|Hl|Hg].
  - rewrite (js_round53_zero _ He). lra.
  - exfalso. assert (0 <= r * k)%Q by (apply Qmult_le_0_compat; lra). lra.
  - rewrite (js_round53_pos _ Hg). apply Qnot_le_lt. intros Hge.
    pose proof (js_roundPos_lower (r * k)) as Hlow.
    assert (Hx : (r * k <= (1 - pow2 (-53)) * k)%Q)
      by (apply Qmult_le_compat_r; lra).
    assert (Hhalf : (k * pow2 (-53) <= ulp (r * k) * (1 # 2))%Q) by lra.
    destruct (js_expo_spec (r * k) Hg) as [Hlo _].
    unfold ulp in Hhalf.
    set (e := Z.max (expo (r * k)) (-1022)) in *.
    assert (Hu : (pow2 (e - 52) * (1 # 2) == pow2 e * pow2 (-53))%Q).
    { replace (e - 52) with (e + -53 + 1) by lia.
      rewrite js_pow2_succ, js_pow2_add. ring. }
    rewrite Hu in Hhalf.
    assert (Hke : (k <= pow2 e)%Q).
    { apply Qmult_le_r with (pow2 (-53)); assumption. }
    destruct (Z.max_spec (expo (r * k)) (-1022)) as [[_ Hm]|[_ Hm]];
      fold e in Hm; rewrite Hm in Hke.
    + lra.
    + assert (r * k < k)%Q; [|lra].
      assert (Hkk : (0 < k * pow2 (-53))%Q)
        by (apply Qmult_lt_0_compat; lra).
      lra.
Qed.

(** Doubles below 1 *)
Lemma js_double_below_one (r : Q) :
  isDouble r -> (0 <= r)%Q -> (r < 1)%Q -> (r <= 1 - pow2 (-53))%Q.
Proof.
  intros Hd H0 H1.
  assert (Hp : (pow2 (-53) <= 1 # 2)%Q) by (vm_compute; discriminate).
  destruct (Qlt_le_dec r (1 # 2)) as [Hsmall|Hbig]; [lra|].
  assert (He : expo r = -1)
    by (apply js_expo_unique; [exact Hbig | exact H1]).
  assert (Hr : (0 < r)%Q) by lra.
  unfold isDouble in Hd. rewrite (js_round53_pos r Hr) in Hd.
  unfold roundPos, ulp in Hd. rewrite He in Hd.
  change (pow2 (Z.max (-1) (-1022) - 52)) with (pow2 (-53)) in Hd.
  set (m := rne (r / pow2 (-53))) in *.
  pose proof (js_pow2_pos (-53)) as Hpos.
  assert (Hm : m < 2 ^ 53).
  { rewrite Zlt_Qlt.
    apply Qmult_lt_r with (pow2 (-53)); [exact Hpos|].
    rewrite Hd.
    assert (Hone : (inject_Z (2 ^ 53) * pow2 (-53) == 1)%Q)
      by (vm_compute; reflexivity).
    rewrite Hone. exact H1. }
  assert (Hm' : (inject_Z m <= inject_Z (2 ^ 53) - 1)%Q).
  { change 1%Q with (inject_Z 1). unfold Qminus.
    rewrite <- inject_Z_opp, <- inject_Z_plus, <- Zle_Qle. lia. }
  rewrite <- Hd.
  assert (Hmul : (inject_Z m * pow2 (-53)
                  <= (inject_Z (2 ^ 53) - 1) * pow2 (-53))%Q)
    by (apply Qmult_le_compat_r; lra).
  assert (Hone : ((inject_Z (2 ^ 53) - 1) * pow2 (-53) == 1 - pow2 (-53))%Q)
    by (vm_compute; reflexivity).
  lra.
Qed.

(** [Math.floor(Math.random() * k)] is a whole number below [k]. *)
Lemma js_floorMul_below (r k : Q) :
  unitInterval r -> (pow2 (-1022) < k)%Q ->
  0 <= floorMul r k /\ (inject_Z (floorMul r k) < k)%Q.
Proof.
  intros (Hd & H0 & H1) Hk. unfold floorMul.
  pose proof (js_pow2_pos (-1022)) as Hp.
  split.
  - change 0 with (Qfloor 0). apply Qfloor_resp_le.
    apply js_round53_nonneg. apply Qmult_le_0_compat; lra.
  - eapply Qle_lt_trans; [apply Qfloor_le|].
    apply js_round53_below; [exact H0 | | exact Hk].
    apply js_double_below_one; assumption.
Qed.

Lemma js_floorMul_range (r : Q) (n : Z) :
  0 < n -> unitInterval r -> 0 <= floorMul r (inject_Z n) < n.
Proof.
  intros Hn Hr.
  assert (Hk : (pow2 (-1022) < inject_Z n)%Q).
  { apply Qlt_le_trans with 1%Q; [vm_compute; reflexivity|].
    change 1%Q with (inject_Z 1). rewrite <- Zle_Qle. lia. }
  destruct (js_floorMul_below r (inject_Z n) Hr Hk) as [H0 H1].
  rewrite <- Zlt_Qlt in H1. lia.
Qed.

(** Dyadic numbers with a mantissa of at most 53 bits are doubles. *)
Lemma js_roundPos_dyadic (m q : Z) :
  0 < m < 2 ^ 53 -> -1074 <= q ->
  (roundPos (inject_Z m * pow2 q) == inject_Z m * pow2 q)%Q.
Proof.
  intros [Hm0 Hm1] Hq.
  destruct (Z.log2_spec m Hm0) as [Hl0 Hl1].
  pose proof (Z.log2_nonneg m) as Hl.
  assert (Hl52 : Z.log2 m < 53) by (apply Z.log2_lt_pow2; lia).
  set (l := Z.log2 m) in *. unfold Z.succ in Hl1.
  pose proof (js_pow2_pos q) as Hpq.
  assert (He : expo (inject_Z m * pow2 q) = l + q).
  { apply js_expo_unique.
    - rewrite js_pow2_add. apply Qmult_le_compat_r; [|lra].
      rewrite js_pow2_Z by lia. rewrite <- Zle_Qle. exact Hl0.
    - replace (l + q + 1) with ((l + 1) + q) by lia.
      rewrite js_pow2_add. apply Qmult_lt_compat_r; [exact Hpq|].
      rewrite js_pow2_Z by lia. rewrite <- Zlt_Qlt. exact Hl1. }
  unfold roundPos, ulp. rewrite He.
  set (e := Z.max (l + q) (-1022)).
  assert (Hd : 0 <= q - (e - 52)) by (unfold e; lia).
  assert (Hq' : (pow2 q == inject_Z (2 ^ (q - (e - 52))) * pow2 (e - 52))%Q).
  { rewrite <- js_pow2_Z by exact Hd. rewrite <- js_pow2_add.
    replace (q - (e - 52) + (e - 52)) with q by lia. reflexivity. }
  pose proof (js_pow2_pos (e - 52)) as Hu.
  assert (Hdiv : (inject_Z m * pow2 q / pow2 (e - 52)
                  == inject_Z (m * 2 ^ (q - (e - 52))))%Q).
  { rewrite inject_Z_mult. rewrite Hq' at 1. field. lra. }
  rewrite (js_rne_comp _ _ Hdiv), js_rne_Z, inject_Z_mult.
  rewrite Hq'. ring.
Qed.

Lemma js_double_dyadic (m q : Z) :
  0 <= m < 2 ^ 53 -> -1074 <= q -> isDouble (inject_Z m * pow2 q).
Proof.
  intros [Hm0 Hm1] Hq. unfold isDouble.
  destruct (Z.eq_dec m 0) as [->|Hne].
  - rewrite js_round53_zero; ring.
  - pose proof (js_pow2_pos q) as Hpq.
    assert (Hpos : (0 < inject_Z m * pow2 q)%Q).
    { apply Qmult_lt_0_compat; [|exact Hpq].
      change 0%Q with (inject_Z 0). rewrite <- Zlt_Qlt. lia. }
    rewrite (js_round53_pos _ Hpos). apply js_roundPos_dyadic; lia.
Qed.

(** Whole numbers up to [2^53] are doubles. *)
Lemma js_round53_Z (z : Z) :
  0 <= z <= 2 ^ 53 -> (round53 (inject_Z z) == inject_Z z)%Q.
Proof.
  intros [Hz0 Hz1].
  destruct (Z.eq_dec z (2 ^ 53)) as [->|Hne]; [vm_compute; reflexivity|].
  assert (He : (inject_Z z == inject_Z z * pow2 0)%Q)
    by (change (pow2 0) with 1%Q; ring).
  rewrite He. apply js_double_dyadic; lia.
Qed.

(** Rounding is monotone. *)
Lemma js_roundPos_le_pow2 (x : Q) (e : Z) :
  (0 < x)%Q -> (x <= pow2 e)%Q -> -1022 <= e -> (roundPos x <= pow2 e)%Q.
Proof.
  intros Hx Hxe He. unfold roundPos, ulp.
  destruct (js_expo_spec x Hx) as [Hlo _].
  assert (Hex : expo x <= e).
  { apply Z.lt_succ_r. unfold Z.succ. apply js_pow2_lt_inv.
    eapply Qle_lt_trans; [exact Hlo|].
    eapply Qle_lt_trans; [exact Hxe|]. apply js_pow2_lt. lia. }
  set (ex := Z.max (expo x) (-1022)).
  assert (Hd : 0 <= e - (ex - 52)) by (unfold ex; lia).
  pose proof (js_pow2_pos (ex - 52)) as Hu.
  assert (Hpe : (pow2 e == inject_Z (2 ^ (e - (ex - 52))) * pow2 (ex - 52))%Q).
  { rewrite <- js_pow2_Z by exact Hd. rewrite <- js_pow2_add.
    replace (e - (ex - 52) + (ex - 52)) with e by lia. reflexivity. }
  rewrite Hpe. apply Qmult_le_compat_r; [|lra].
  rewrite <- Zle_Qle. rewrite <- (js_rne_Z (2 ^ (e - (ex - 52)))).
  apply js_rne_mono. apply Qle_shift_div_r; [exact Hu|].
  rewrite <- Hpe. exact Hxe.
Qed.

Lemma js_roundPos_ge_pow2 (x : Q) (e : Z) :
  (pow2 e <= x)%Q -> -1022 <= e -> (pow2 e <= roundPos x)%Q.
Proof.
  intros Hxe He. unfold roundPos, ulp.
  assert (Hx : (0 < x)%Q)
    by (eapply Qlt_le_trans; [apply js_pow2_pos | exact Hxe]).
  destruct (js_expo_spec x Hx) as [_ Hhi].
  assert (Hex : e <= expo x).
  { apply Z.lt_succ_r. unfold Z.succ. apply js_pow2_lt_inv.
    eapply Qle_lt_trans; [exact Hxe | exact Hhi]. }
  set (ex := Z.max (expo x) (-1022)).
  assert (Hexx : ex = expo x) by (unfold ex; lia).
  pose proof (js_pow2_pos (ex - 52)) as Hu.
  destruct (js_expo_spec x Hx) as [Hlo _]. rewrite <- Hexx in Hlo.
  assert (Hpe : (pow2 ex == inject_Z (2 ^ 52) * pow2 (ex - 52))%Q).
  { rewrite <- js_pow2_Z by lia. rewrite <- js_pow2_add.
    replace (52 + (ex - 52)) with ex by lia. reflexivity. }
  apply Qle_trans with (pow2 ex); [apply js_pow2_le; lia|].
  rewrite Hpe. apply Qmult_le_compat_r; [|lra].
  rewrite <- Zle_Qle. rewrite <- (js_rne_Z (2 ^ 52)).
  apply js_rne_mono. apply Qle_shift_div_l; [exact Hu|].
  rewrite <- Hpe. exact Hlo.
Qed.

Lemma js_roundPos_mono (x y : Q) :
  (0 < x)%Q -> (x <= y)%Q -> (roundPos x <= roundPos y)%Q.
Proof.
  intros Hx Hxy. assert (Hy : (0 < y)%Q) by lra.
  destruct (js_expo_spec x Hx) as [Hxlo Hxhi].
  destruct (js_expo_spec y Hy) as [Hylo Hyhi].
  assert (Hexp : expo x <= expo y).
  { apply Z.lt_succ_r. unfold Z.succ. apply js_pow2_lt_inv.
    eapply Qle_lt_trans; [exact Hxlo|]. lra. }
  destruct (Z.eq_dec (Z.max (expo x) (-1022)) (Z.max (expo y) (-1022)))
    as [Heq|Hne].
  - unfold roundPos, ulp. rewrite Heq.
    pose proof (js_pow2_pos (Z.max (expo y) (-1022) - 52)) as Hu.
    apply Qmult_le_compat_r; [|lra].
    rewrite <- Zle_Qle. apply js_rne_mono.
    apply Qmult_le_r with (pow2 (Z.max (expo y) (-1022) - 52));
      [exact Hu|].
    assert (E1 : (x / pow2 (Z.max (expo y) (-1022) - 52)
                  * pow2 (Z.max (expo y) (-1022) - 52) == x)%Q)
      by (field; lra).
    assert (E2 : (y / pow2 (Z.max (expo y) (-1022) - 52)
                  * pow2 (Z.max (expo y) (-1022) - 52) == y)%Q)
      by (field; lra).
    rewrite E1, E2. exact Hxy.
  - set (e := Z.max (expo x) (-1022) + 1).
    assert (He : e <= expo y) by (unfold e; lia).
    apply Qle_trans with (pow2 e).
    + apply js_roundPos_le_pow2; [exact Hx | | unfold e; lia].
      apply Qlt_le_weak. eapply Qlt_le_trans; [exact Hxhi|].
      apply js_pow2_le. unfold e. lia.
    + apply js_roundPos_ge_pow2; [|unfold e; lia].
      eapply Qle_trans; [|exact Hylo]. apply js_pow2_le. exact He.
Qed.

Lemma js_round53_mono (x y : Q) :
  (0 <= x)%Q -> (x <= y)%Q -> (round53 x <= round53 y)%Q.
Proof.
  intros Hx Hxy. destruct (Qcompare_spec x 0) as [He|Hl|Hg].
  - rewrite (js_round53_zero x He). apply js_round53_nonneg. lra.
  - lra.
  - rewrite (js_round53_pos x Hg), (js_round53_pos y) by lra.
    apply js_roundPos_mono; assumption.
Qed.

(** Deciding that a concrete number is a draw. *)
Lemma js_unitInterval_dec (r : Q) : unitIntervalb r = true -> unitInterval r.
Proof.
  unfold unitIntervalb. rewrite !andb_true_iff, negb_true_iff.
  intros [[Hd H0] H1]. split; [apply Qeq_bool_iff, Hd|].
  split; [apply Qle_bool_iff, H0|].
  apply Qnot_le_lt. intros Hle. apply Qle_bool_iff in Hle. congruence.
Qed.

(** Rounding does not cross a whole number: a product at or above the
    whole number [k] stays there, and a product that is below [k] by
    the factor [1 - 2^-53] stays below. *)
Lemma js_round53_ge_Z (x : Q) (k : Z) :
  0 <= k <= 2 ^ 53 -> (inject_Z k <= x)%Q -> (inject_Z k <= round53 x)%Q.
Proof.
  intros Hk Hx. rewrite <- (js_round53_Z k Hk).
  apply js_round53_mono; [|exact Hx].
  change 0%Q with (inject_Z 0). rewrite <- Zle_Qle. lia.
Qed.

Lemma js_round53_lt_Z (x : Q) (k : Z) :
  0 < k -> (0 <= x)%Q -> (x <= inject_Z k * (1 - pow2 (-53)))%Q ->
  (round53 x < inject_Z k)%Q.
Proof.
  intros Hk Hx0 Hx.
  assert (Hkq : (1 <= inject_Z k)%Q)
    by (change 1%Q with (inject_Z 1); rewrite <- Zle_Qle; lia).
  assert (He : (x == x / inject_Z k * inject_Z k)%Q) by (field; lra).
  rewrite He. apply js_round53_below.
  - apply Qle_shift_div_l; lra.
  - apply Qle_shift_div_r; lra.
  - apply Qlt_le_trans with 1%Q; [vm_compute; reflexivity | exact Hkq].
Qed.

(** The draws that give [k]: all those whose exact product with [n] lies
    from [k] to [(k + 1) (1 - 2^-53)], and none whose product lies below
    [k (1 - 2^-53)] or at or above [k + 1].  Every outcome has an interval
    of draws of length [1 / n], up to the rounding of the product. *)
Lemma js_floorMul_inside (r : Q) (n k : Z) :
  (0 <= r)%Q -> 0 < n -> 0 <= k < 2 ^ 53 ->
  (inject_Z k <= r * inject_Z n)%Q ->
  (r * inject_Z n <= inject_Z (k + 1) * (1 - pow2 (-53)))%Q ->
  floorMul r (inject_Z n) = k.
Proof.
  intros Hr Hn Hk Hlo Hhi. unfold floorMul. apply js_floor_spec. split.
  - apply js_round53_ge_Z; [lia | exact Hlo].
  - apply js_round53_lt_Z; [lia | | exact Hhi].
    apply Qmult_le_0_compat; [exact Hr|].
    change 0%Q with (inject_Z 0). rewrite <- Zle_Qle. lia.
Qed.

Lemma js_floorMul_outside (r : Q) (n k : Z) :
  (0 <= r)%Q -> 0 < n -> 0 <= k < 2 ^ 53 ->
  floorMul r (inject_Z n) = k ->
  (inject_Z k * (1 - pow2 (-53)) <= r * inject_Z n)%Q /\
  (r * inject_Z n < inject_Z (k + 1))%Q.
Proof.
  intros Hr Hn Hk Hfl. unfold floorMul in Hfl.
  apply js_floor_spec in Hfl as [Hlo Hhi].
  assert (Hx : (0 <= r * inject_Z n)%Q).
  { apply Qmult_le_0_compat; [exact Hr|].
    change 0%Q with (inject_Z 0). rewrite <- Zle_Qle. lia. }
  split.
  - destruct (Z.eq_dec k 0) as [->|Hne].
    + change (inject_Z 0) with 0%Q. lra.
    + apply Qnot_lt_le. intros Hlt.
      assert (Hb : (round53 (r * inject_Z n) < inject_Z k)%Q)
        by (apply js_round53_lt_Z; [lia | exact Hx | lra]).
      lra.
  - apply Qnot_le_lt. intros Hge.
    assert (Hb : (inject_Z (k + 1) <= round53 (r * inject_Z n))%Q)
      by (apply js_round53_ge_Z; [lia | exact Hge]).
    lra.
Qed.

(** The floor of a double product, for any factor: from [k] to
    [(k + 1) (1 - 2^-53)] the exact product gives [k]. *)
Lemma js_floorMul_inside_Q (r m : Q) (k : Z) :
  0 <= k < 2 ^ 53 ->
  (inject_Z k <= r * m)%Q ->
  (r * m <= inject_Z (k + 1) * (1 - pow2 (-53)))%Q ->
  floorMul r m = k.
Proof.
  intros Hk Hlo Hhi. unfold floorMul. apply js_floor_spec. split.
  - apply js_round53_ge_Z; [lia | exact Hlo].
  - apply js_round53_lt_Z; [lia | | exact Hhi].
    eapply Qle_trans; [|exact Hlo].
    change 0%Q with (inject_Z 0). rewrite <- Zle_Qle. lia.
Qed.

(** A number below [2^(e+1)] is rounded by at most [2^(e-53)]. *)
Lemma js_round53_near (x : Q) (e : Z) :
  (0 < x)%Q -> (x < pow2 (e + 1))%Q -> -1022 <= e ->
  (x - pow2 (e - 53) <= round53 x)%Q /\ (round53 x <= x + pow2 (e - 53))%Q.
Proof.
  intros Hx Hxe He. rewrite (js_round53_pos x Hx).
  pose proof (js_roundPos_lower x) as Hlo.
  pose proof (js_roundPos_upper x) as Hhi.
  destruct (js_expo_spec x Hx) as [Hex _].
  assert (Hexp : expo x <= e).
  { apply Z.lt_succ_r. unfold Z.succ. apply js_pow2_lt_inv.
    eapply Qle_lt_trans; eassumption. }
  assert (Hu : (ulp x * (1 # 2) <= pow2 (e - 53))%Q).
  { unfold ulp. set (ex := Z.max (expo x) (-1022)).
    assert (Hh : (pow2 (ex - 52) * (1 # 2) == pow2 (ex - 53))%Q).
    { replace (ex - 52) with (ex - 53 + 1) by lia.
      rewrite js_pow2_succ. ring. }
    rewrite Hh. apply js_pow2_le. unfold ex. lia. }
  split; lra.
Qed.

(** Rounding lands on a double: rounding twice is rounding once. *)
Lemma js_round53_idem (x : Q) :
  (0 <= x)%Q -> isDouble (round53 x).
Proof.
  intros Hx. unfold isDouble.
  destruct (Qlt_le_dec 0 x) as [Hpos|Hle].
  - assert (He : (round53 x ==
                  inject_Z (rne (x / ulp x)) * pow2 (Z.max (expo x) (-1022) - 52))%Q)
      by (rewrite (js_round53_pos x Hpos); reflexivity).
    set (q := Z.max (expo x) (-1022) - 52) in *.
    set (m := rne (x / ulp x)) in *.
    pose proof (js_ulp_pos x) as Hu.
    destruct (js_expo_spec x Hpos) as [_ Hhi].
    assert (Hm0 : 0 <= m).
    { unfold m. rewrite <- (js_rne_Z 0). apply js_rne_mono.
      change (inject_Z 0) with 0%Q. apply Qle_shift_div_l; [exact Hu | lra]. }
    assert (Hm1 : m <= 2 ^ 53).
    { unfold m. rewrite <- (js_rne_Z (2 ^ 53)). apply js_rne_mono.
      apply Qle_shift_div_r; [exact Hu|].
      unfold ulp. fold q. rewrite <- (js_pow2_Z 53) by lia.
      rewrite <- js_pow2_add.
      apply Qlt_le_weak. eapply Qlt_le_trans; [exact Hhi|].
      apply js_pow2_le. unfold q. lia. }
    rewrite (js_round53_comp _ _ He), He.
    destruct (Z.eq_dec m (2 ^ 53)) as [Hm|Hm].
    + assert (Hs : (inject_Z m * pow2 q == inject_Z (2 ^ 52) * pow2 (q + 1))%Q).
      { rewrite Hm, js_pow2_succ.
        change (inject_Z (2 ^ 53)) with (2 * inject_Z (2 ^ 52))%Q. ring. }
      rewrite (js_round53_comp _ _ Hs), Hs.
      apply js_double_dyadic; [lia | unfold q; lia].
    + apply js_double_dyadic; [lia | unfold q; lia].
  - assert (Hz : (x == 0)%Q) by lra.
    rewrite (js_round53_comp _ _ (js_round53_zero x Hz)).
    rewrite (js_round53_zero x Hz). reflexivity.
Qed.

(** A double below the rounding of [z] is below [z]. *)
Lemma js_round53_lt_inv (y z : Q) :
  isDouble y -> (0 <= z)%Q -> (y < round53 z)%Q -> (y < z)%Q.
Proof.
  intros Hy Hz Hlt. apply Qnot_le_lt. intros Hle.
  pose proof (js_round53_mono z y Hz Hle) as Hm.
  unfold isDouble in Hy. lra.
Qed.

(** The product is rounded before the floor is taken: a draw just below
    [8/9] gives 8 of 9, and one just below [18/40] gives 18 of 40, where
    the floors of the exact products are 7 and 17. *)
Lemma js_floorMul_rounds_up :
  unitInterval (4003199668773774 # 4503599627370496) /\
  floorMul (4003199668773774 # 4503599627370496) 9 = 8 /\
  Qfloor ((4003199668773774 # 4503599627370496) * 9) = 7 /\
  unitInterval (2026619832316723 # 4503599627370496) /\
  floorMul (2026619832316723 # 4503599627370496) 40 = 18 /\
  Qfloor ((2026619832316723 # 4503599627370496) * 40) = 17.
Proof.
  split; [apply js_unitInterval_dec; vm_compute; reflexivity|].
  split; [vm_compute; reflexivity|]. split; [vm_compute; reflexivity|].
  split; [apply js_unitInterval_dec; vm_compute; reflexivity|].
  split; vm_compute; reflexivity.
Qed.

End JsProps.

(** ** Snake: queued direction changes *)

Module SnakeProps.
Import Snake.

(** Induction on the draws, two at a time, as [createFood] takes them. *)
Lemma snake_pairs_ind (P : list Q -> Prop) :
  P [] -> (forall r, P [r]) ->
  (forall rx ry rs, P rs -> P (rx :: ry :: rs)) ->
  forall rs, P rs.
Proof.
  intros Hnil Hone Hstep.
  assert (Hboth : forall rs, P rs /\ forall r, P (r :: rs)).
  { induction rs as [|r rs [IH1 IH2]].
    - split; [exact Hnil | exact Hone].
    - split; [apply IH2 | intros r'; apply Hstep, IH1]. }
  intros rs. apply Hboth.
Qed.

Lemma snake_createFood_no_throw (c : Canvas) (body : list Cell)
    (rs : list Q) :
  createFood c body rs <> TypeError.
Proof.
  induction rs as [| r | rx ry rs IH] using snake_pairs_ind;
    simpl; try discriminate.
  destruct (onSnake body (drawCell c rx ry)); [exact IH | discriminate].
Qed.

Lemma snake_changeDirection_accepts (key : string) (s : State) :
  changeDirection key s =
  match accepts (direction s) key with
  | Some d => setNewDirection d s
  | None => s
  end.
Proof.
  unfold changeDirection, accepts, keyDirection.
  repeat case_bool_decide; subst; try discriminate;
    destruct (direction s); reflexivity.
Qed.

Lemma snake_changeDirection_direction (key : string) (s : State) :
  direction (changeDirection key s) = direction s.
Proof.
  rewrite snake_changeDirection_accepts.
  destruct (accepts (direction s) key); reflexivity.
Qed.

Lemma snake_pressAll_direction (keys : list string) (s : State) :
  direction (pressAll keys s) = direction s.
Proof.
  revert s. induction keys as [|k keys IH]; intros s; simpl; [reflexivity|].
  unfold pressAll in IH. rewrite IH. apply snake_changeDirection_direction.
Qed.

(** Pressing keys changes nothing but the queued direction. *)
Lemma snake_pressAll_frame (keys : list string) (s : State) :
  pressAll keys s = setNewDirection (newDirection (pressAll keys s)) s.
Proof.
  revert s. induction keys as [|k keys IH]; intros s; simpl.
  - destruct s; reflexivity.
  - unfold pressAll in IH. rewrite IH at 1.
    rewrite snake_changeDirection_accepts.
    destruct (accepts (direction s) k); destruct s; reflexivity.
Qed.

Lemma snake_pressAll_rejected (keys : list string) (s : State) :
  Forall (fun key => accepts (direction s) key = None) keys ->
  pressAll keys s = s.
Proof.
  revert s. induction keys as [|k keys IH]; intros s Hrej; simpl.
  - reflexivity.
  - inversion Hrej as [|? ? Hk Hrest]; subst.
    rewrite snake_changeDirection_accepts, Hk. apply IH, Hrest.
Qed.

Lemma snake_pressAll_app (pre post : list string) (s : State) :
  pressAll (pre ++ post) s = pressAll post (pressAll pre s).
Proof. unfold pressAll. apply fold_left_app. Qed.

Lemma snake_pressAll_last (pre post : list string) (k : string)
    (d : Direction) (s : State) :
  accepts (direction s) k = Some d ->
  Forall (fun key => accepts (direction s) key = None) post ->
  newDirection (pressAll (pre ++ k :: post) s) = d.
Proof.
  intros Hk Hpost.
  rewrite snake_pressAll_app. simpl.
  pose proof (snake_pressAll_direction pre s) as Hd.
  rewrite snake_pressAll_rejected.
  - rewrite snake_changeDirection_accepts, Hd, Hk. reflexivity.
  - rewrite snake_changeDirection_direction, Hd. exact Hpost.
Qed.

Section WithRuntime.
Context `{Runtime}.

(** What a tick does to the direction and the head, whatever is
    queued. *)
Lemma snake_gameUpdate_direction (s : State) (h0 : Cell) (tl : list Cell)
    (rs : list Q) :
  snake s = h0 :: tl ->
  let d := newDirection s in
  match gameUpdate s rs with
  | Ok s' =>
      direction s' = d /\
      (checkCollision (canvas s) (snake s) (moveHead d h0) = false ->
       head (snake s') = Some (moveHead d h0))
  | Starved => eats (moveHead d h0) (food s) = true
  | TypeError => False
  end.
Proof.
  intros Hs d. unfold gameUpdate. rewrite Hs. fold d.
  destruct (checkCollision (canvas s) (h0 :: tl) (moveHead d h0)) eqn:Hc.
  - simpl. split; [reflexivity | discriminate].
  - destruct (eats (moveHead d h0) (food s)) eqn:He.
    + pose proof (snake_createFood_no_throw (canvas s)
                    (moveHead d h0 :: h0 :: tl) rs) as Hno.
      destruct (createFood (canvas s) (moveHead d h0 :: h0 :: tl) rs);
        simpl; auto.
    + simpl. auto.
Qed.

(** C2 (as amended): of the direction keys pressed between two ticks,
    the LAST one that does not reverse the current direction decides
    the direction of the next tick, since every accepted press
    overwrites the queued direction; a key that reverses the current
    direction changes nothing.  The tick itself returns unless the food
    loop runs out of draws, and where the moved head hits nothing it
    is the old head moved one cell in that direction. *)
Theorem snake_last_accepted_key_wins (s : State) (pre post : list string)
    (k : string) (d : Direction) (h0 : Cell) (tl : list Cell)
    (rs : list Q) :
  snake s = h0 :: tl ->
  accepts (direction s) k = Some d ->
  Forall (fun key => accepts (direction s) key = None) post ->
  (forall key, keyDirection key = Some (opposite (direction s)) ->
               changeDirection key s = s) /\
  match gameUpdate (pressAll (pre ++ k :: post) s) rs with
  | Ok s' =>
      direction s' = d /\
      (checkCollision (canvas s) (snake s) (moveHead d h0) = false ->
       head (snake s') = Some (moveHead d h0))
  | Starved => eats (moveHead d h0) (food s) = true
  | TypeError => False
  end.
Proof.
  intros Hs Hk Hpost. split.
  - intros key Hkey. rewrite snake_changeDirection_accepts.
    unfold accepts. rewrite Hkey.
    destruct (direction s); reflexivity.
  - pose proof (snake_pressAll_last pre post k d s Hk Hpost) as Hnd.
    pose proof (snake_pressAll_frame (pre ++ k :: post) s) as Hfr.
    rewrite Hnd in Hfr.
    pose proof (snake_gameUpdate_direction
                  (pressAll (pre ++ k :: post) s) h0 tl rs) as Hup.
    rewrite Hfr in Hup |- *. simpl in Hup. exact (Hup Hs).
Qed.
End WithRuntime.

(** The scenario of the claim, from page load: the snake starts moving
    right, "up" then "down" are pressed before the first tick. *)
Lemma snake_last_accepted_key_wins_witness :
  exists s0 : State,
    freshGame = Ok s0 /\
    snake s0 = [mkCell 10 10; mkCell 9 10; mkCell 8 10] /\
    accepts (direction s0) "ArrowDown" = Some Down /\
    match gameUpdate (H := decimalRuntime)
            (pressAll (["ArrowUp"] ++ "ArrowDown" :: []) s0) [] with
    | Ok s' => direction s' = Down /\ head (snake s') = Some (mkCell 10 11)
    | _ => False
    end.
Proof.
  eexists. split; [vm_compute; reflexivity|]. split; [reflexivity|].
  split; [reflexivity|].
  lazymatch goal with
  | |- match gameUpdate (pressAll _ ?s0) _ with _ => _ end =>
      pose proof (snake_last_accepted_key_wins (H := decimalRuntime)
                    s0 ["ArrowUp"] [] "ArrowDown" Down _ _ []
                    eq_refl eq_refl (List.Forall_nil _)) as [_ Hw]
  end.
  match type of Hw with
  | match ?g with _ => _ end =>
      match goal with |- match ?g' with _ => _ end => change g' with g end;
      destruct g as [s'| |]
  end.
  - destruct Hw as [Hd Hh]. split; [exact Hd|]. apply Hh. reflexivity.
  - exact Hw.
  - discriminate Hw.
Defined.

(** C2 (as stated) fails: with "up" then "down" pressed before the first
    tick of a fresh session, both presses are accepted against the
    current direction (right), and the tick moves the head down, not up
    as the first accepted press asked. *)
Lemma snake_first_queued_key_loses :
  exists s0 s' : State,
    freshGame = Ok s0 /\
    direction s0 = Right /\
    accepts (direction s0) "ArrowUp" = Some Up /\
    run (H := decimalRuntime) s0
      [KeyDown "ArrowUp"; KeyDown "ArrowDown"; Fire 1 []] = Ok s' /\
    direction s' = Down /\
    direction s' <> Up /\
    head (snake s') = Some (mkCell 10 11).
Proof.
  eexists. eexists.
  split; [vm_compute; reflexivity|].
  split; [reflexivity|]. split; [reflexivity|].
  split; [vm_compute; reflexivity|].
  split; [reflexivity|]. split; [discriminate | reflexivity].
Qed.

(** ** Snake: eating *)

(** Rejection sampling: [createFood] returns the first drawn cell that is
    off the snake, and starves exactly when every drawn cell is on it. *)
Lemma snake_createFood_first_free (c : Canvas) (body : list Cell)
    (rs : list Q) :
  createFood c body rs =
  match find (fun f => negb (onSnake body f)) (drawnCells c rs) with
  | Some f => Ok f
  | None => Starved
  end.
Proof.
  induction rs as [| r | rx ry rs IH] using snake_pairs_ind;
    simpl; try reflexivity.
  destruct (onSnake body (drawCell c rx ry)); simpl; [exact IH | reflexivity].
Qed.

Lemma snake_tenth_bounds (w : Z) :
  0 < w ->
  (pow2 (-1022) < round53 (inject_Z w / 10))%Q.
Proof.
  intros Hw.
  assert (Hq : (1 # 10 <= inject_Z w / 10)%Q).
  { apply Qle_shift_div_l; [reflexivity|].
    assert (H1 : (inject_Z 1 <= inject_Z w)%Q) by (rewrite <- Zle_Qle; lia).
    change (inject_Z 1) with 1%Q in H1. lra. }
  apply Qlt_le_trans with (pow2 (-4)).
  - apply JsProps.js_pow2_lt. lia.
  - assert (Hd : (round53 (pow2 (-4)) == pow2 (-4))%Q).
      by (vm_compute; reflexivity).
    rewrite <- Hd. apply JsProps.js_round53_mono.
    + apply Qlt_le_weak, JsProps.js_pow2_pos.
    + eapply Qle_trans; [|exact Hq]. vm_compute. discriminate.
Qed.

(** A draw is a column (or row) of the board: the product with the
    rounded tenth of the side, rounded and floored, stays below the
    exact tenth. *)
Lemma snake_floor_draw_range (r : Q) (w : Z) :
  unitInterval r -> 0 < w ->
  0 <= floorMul r (round53 (inject_Z w / 10)) /\
  10 * floorMul r (round53 (inject_Z w / 10)) < w.
Proof.
  intros Hr Hw.
  pose proof (snake_tenth_bounds w Hw) as HK.
  destruct (JsProps.js_floorMul_below r _ Hr HK) as [H0 H1].
  split; [exact H0|].
  unfold floorMul in *.
  set (K := round53 (inject_Z w / 10)) in *.
  assert (Hw' : (0 <= inject_Z w / 10)%Q).
  { apply Qle_shift_div_l; [reflexivity|]. rewrite Qmult_0_l.
    change 0%Q with (inject_Z 0). rewrite <- Zle_Qle. lia. }
  assert (Hx : (0 <= r * K)%Q).
  { apply Qmult_le_0_compat; [apply Hr|].
    apply JsProps.js_round53_nonneg, Hw'. }
  assert (Hy : (round53 (r * K) < K)%Q).
  { apply JsProps.js_round53_below; [apply Hr | | exact HK].
    destruct Hr as (Hd & Hr0 & Hr1).
    apply JsProps.js_double_below_one; assumption. }
  pose proof (JsProps.js_round53_lt_inv _ _
                (JsProps.js_round53_idem _ Hx) Hw' Hy) as Hlt.
  pose proof (Qfloor_le (round53 (r * K))) as Hfl.
  assert (Hq : (inject_Z (Qfloor (round53 (r * K))) * inject_Z 10
                < inject_Z w)%Q).
  { assert (He : (inject_Z w == (inject_Z w / 10) * inject_Z 10)%Q)
      by (change (inject_Z 10) with 10%Q; field).
    rewrite He.
    apply Qmult_lt_compat_r; [reflexivity | lra]. }
  rewrite <- inject_Z_mult, <- Zlt_Qlt in Hq. lia.
Qed.

(** Every draw lands on the board. *)
Lemma snake_drawCell_onBoard (c : Canvas) (rx ry : Q) :
  unitInterval rx -> unitInterval ry ->
  0 < width c -> 0 < height c ->
  onBoard c (drawCell c rx ry).
Proof.
  intros Hx Hy Hw Hh. unfold onBoard, drawCell. simpl.
  destruct (snake_floor_draw_range rx (width c) Hx Hw).
  destruct (snake_floor_draw_range ry (height c) Hy Hh).
  auto.
Qed.

(** On a side of less than [2^32] pixels the rounded tenth is within
    [2^-25] of the exact one. *)
Lemma snake_tenth_near (w : Z) :
  0 < w < 2 ^ 32 ->
  (inject_Z w / 10 - pow2 (-25) <= round53 (inject_Z w / 10))%Q /\
  (round53 (inject_Z w / 10) <= inject_Z w / 10 + pow2 (-25))%Q.
Proof.
  intros Hw. apply (JsProps.js_round53_near _ 28); [| |lia].
  - apply Qlt_shift_div_l; [reflexivity|]. rewrite Qmult_0_l.
    change 0%Q with (inject_Z 0). rewrite <- Zlt_Qlt. lia.
  - apply Qlt_shift_div_r; [reflexivity|].
    change (pow2 (28 + 1) * 10)%Q with (inject_Z (2 ^ 29 * 10)).
    rewrite <- Zlt_Qlt. lia.
Qed.

(** The wall test compares a whole number with [canvas.width / 10]: on a
    side of less than [2^32] pixels the rounding of the quotient does not
    change the outcome, and [hitsWall] is written with the exact one. *)
Lemma snake_tenth_compare (w x : Z) :
  0 <= w < 2 ^ 32 ->
  Qle_bool (round53 (inject_Z w / 10)) (inject_Z x)
  = Qle_bool (inject_Z w / 10) (inject_Z x).
Proof.
  intros Hw.
  assert (Hiff : (round53 (inject_Z w / 10) <= inject_Z x)%Q <->
                 (inject_Z w / 10 <= inject_Z x)%Q).
  { destruct (Z.eq_dec w 0) as [->|Hne].
    - assert (Hz : (round53 (inject_Z 0 / 10) == inject_Z 0 / 10)%Q)
        by (vm_compute; reflexivity).
      rewrite Hz. reflexivity.
    - destruct (snake_tenth_near w ltac:(lia)) as [Hlo Hhi].
      assert (Hp25 : (pow2 (-25) == 1 # 33554432)%Q)
        by (vm_compute; reflexivity).
      rewrite Hp25 in Hlo, Hhi.
      assert (Hq0 : (0 <= inject_Z w / 10)%Q).
      { apply Qle_shift_div_l; [reflexivity|]. rewrite Qmult_0_l.
        change 0%Q with (inject_Z 0). rewrite <- Zle_Qle. lia. }
      split.
      + intros Hle. apply Qnot_lt_le. intros Hlt.
        assert (Hz : 10 * x < w).
        { apply Z.nle_gt. intros Hge. apply (Qlt_not_le _ _ Hlt).
          apply Qle_shift_div_r; [reflexivity|].
          change 10%Q with (inject_Z 10).
          rewrite <- inject_Z_mult, <- Zle_Qle. lia. }
        assert (Hq : (inject_Z x + (1 # 10) <= inject_Z w / 10)%Q).
        { apply Qle_shift_div_l; [reflexivity|].
          assert (Hz' : (inject_Z (10 * x + 1) <= inject_Z w)%Q)
            by (rewrite <- Zle_Qle; lia).
          rewrite inject_Z_plus, inject_Z_mult in Hz'.
          change (inject_Z 10) with 10%Q in Hz'.
          change (inject_Z 1) with 1%Q in Hz'. lra. }
        lra.
      + intros Hle.
        destruct (Z_le_gt_dec x (2 ^ 53)) as [Hx|Hx].
        * assert (Hx0 : 0 <= x).
          { rewrite Zle_Qle. eapply Qle_trans; [exact Hq0 | exact Hle]. }
          rewrite <- (JsProps.js_round53_Z x) by lia.
          apply JsProps.js_round53_mono; assumption.
        * assert (Hwq : (inject_Z w / 10 <= inject_Z (2 ^ 29))%Q).
          { apply Qle_shift_div_r; [reflexivity|].
            change (inject_Z (2 ^ 29) * 10)%Q with (inject_Z (2 ^ 29 * 10)).
            rewrite <- Zle_Qle. lia. }
          assert (Hxq : (inject_Z (2 ^ 53) <= inject_Z x)%Q)
            by (rewrite <- Zle_Qle; lia).
          change (inject_Z (2 ^ 29)) with 536870912%Q in Hwq.
          change (inject_Z (2 ^ 53)) with 9007199254740992%Q in Hxq.
          lra. }
  destruct (Qle_bool (inject_Z w / 10) (inject_Z x)) eqn:Hb.
  - apply Qle_bool_iff, Hiff, Qle_bool_iff, Hb.
  - destruct (Qle_bool (round53 (inject_Z w / 10)) (inject_Z x)) eqn:Hb';
      [|reflexivity].
    apply Qle_bool_iff, Hiff, Qle_bool_iff in Hb'. congruence.
Qed.

(** Column [k] of a board of less than [2^32] pixels is drawn by the
    first double at or above [k / K], for [K] the rounded tenth of the
    side. *)
Lemma snake_floor_draw_reaches (k w : Z) :
  0 <= k -> 10 * k < w -> w < 2 ^ 32 ->
  exists r : Q,
    unitInterval r /\ floorMul r (round53 (inject_Z w / 10)) = k.
Proof.
  intros Hk Hkw Hw.
  destruct (snake_tenth_near w ltac:(lia)) as [Hlo Hhi].
  pose proof (snake_tenth_bounds w ltac:(lia)) as Hpos.
  set (K := round53 (inject_Z w / 10)) in *.
  assert (HK : (0 < K)%Q)
    by (eapply Qlt_trans; [apply (JsProps.js_pow2_pos (-1022)) | exact Hpos]).
  assert (Hkq : (inject_Z k + (1 # 10) <= inject_Z w / 10)%Q).
  { apply Qle_shift_div_l; [reflexivity|].
    assert (Hz : (inject_Z (10 * k + 1) <= inject_Z w)%Q)
      by (rewrite <- Zle_Qle; lia).
    rewrite inject_Z_plus, inject_Z_mult in Hz.
    change (inject_Z 10) with 10%Q in Hz. change (inject_Z 1) with 1%Q in Hz.
    lra. }
  assert (Hwq : (inject_Z w / 10 <= inject_Z (2 ^ 29))%Q).
  { apply Qle_shift_div_r; [reflexivity|].
    change (inject_Z (2 ^ 29) * 10)%Q with (inject_Z (2 ^ 29 * 10)).
    rewrite <- Zle_Qle. lia. }
  assert (Hk0 : (0 <= inject_Z k)%Q)
    by (change 0%Q with (inject_Z 0); rewrite <- Zle_Qle; lia).
  assert (Hp25 : (pow2 (-25) == 1 # 33554432)%Q) by (vm_compute; reflexivity).
  assert (Hp53 : (pow2 (-53) == 1 # 9007199254740992)%Q)
    by (vm_compute; reflexivity).
  assert (H29 : (inject_Z (2 ^ 29) == 536870912)%Q) by reflexivity.
  rewrite Hp25 in Hlo, Hhi.
  set (x := (inject_Z k / K * inject_Z (2 ^ 53))%Q).
  set (M := Qceiling x).
  assert (Hx0 : (0 <= x)%Q).
  { unfold x. apply Qmult_le_0_compat; [|discriminate].
    apply Qle_shift_div_l; [exact HK|]. lra. }
  assert (HkK : (inject_Z k / K <= 1 - pow2 (-53) * 2)%Q).
  { apply Qle_shift_div_r; [exact HK|].
    assert (Hs : ((1 - pow2 (-53) * 2) * K == K - pow2 (-53) * 2 * K)%Q) by ring.
    rewrite Hs.
    assert (Hb : (pow2 (-53) * 2 * K <= pow2 (-53) * 2 * (inject_Z (2 ^ 29) + 1))%Q).
    { apply Qmult_le_l; [rewrite Hp53; reflexivity|]. lra. }
    rewrite Hp53, H29 in Hb. rewrite Hp53. lra. }
  assert (HM0 : 0 <= M).
  { unfold M. rewrite <- (Qceiling_Z 0). apply Qceiling_resp_le. exact Hx0. }
  assert (HM1 : M < 2 ^ 53).
  { assert (Hle : M <= 2 ^ 53 - 2).
    { unfold M. rewrite <- (Qceiling_Z (2 ^ 53 - 2)). apply Qceiling_resp_le.
      unfold x.
      assert (He : (inject_Z (2 ^ 53 - 2) ==
                    (1 - pow2 (-53) * 2) * inject_Z (2 ^ 53))%Q)
        by (vm_compute; reflexivity).
      rewrite He. apply Qmult_le_compat_r; [exact HkK | discriminate]. }
    lia. }
  set (r := (inject_Z M * pow2 (-53))%Q).
  assert (Hrlo : (inject_Z k / K <= r)%Q).
  { pose proof (Qle_ceiling x) as Hc. fold M in Hc. unfold r.
    assert (He : (inject_Z k / K == x * pow2 (-53))%Q).
    { unfold x. rewrite Hp53.
      change (inject_Z (2 ^ 53)) with 9007199254740992%Q. field.
      intros Hz. rewrite Hz in HK. discriminate. }
    rewrite He. apply Qmult_le_compat_r; [exact Hc|].
    apply Qlt_le_weak, JsProps.js_pow2_pos. }
  assert (Hrhi : (r < inject_Z k / K + pow2 (-53))%Q).
  { pose proof (Qceiling_lt x) as Hc. fold M in Hc. unfold r.
    unfold Z.sub in Hc. rewrite inject_Z_plus in Hc.
    change (inject_Z (- (1))) with (- (1))%Q in Hc.
    assert (He : (inject_Z k / K + pow2 (-53) == (x + 1) * pow2 (-53))%Q).
    { unfold x. rewrite Hp53.
      change (inject_Z (2 ^ 53)) with 9007199254740992%Q. field.
      intros Hz. rewrite Hz in HK. discriminate. }
    rewrite He. apply Qmult_lt_compat_r; [apply JsProps.js_pow2_pos|].
    lra. }
  exists r. split.
  - split; [apply JsProps.js_double_dyadic; lia|]. split.
    + eapply Qle_trans; [|exact Hrlo].
      apply Qle_shift_div_l; [exact HK|]. lra.
    + rewrite Hp53 in Hrhi, HkK. lra.
  - apply JsProps.js_floorMul_inside_Q; [lia| |].
    + assert (He : (inject_Z k == inject_Z k / K * K)%Q).
      { field. intros Hz. rewrite Hz in HK. discriminate. }
      rewrite He at 1. apply Qmult_le_compat_r; [exact Hrlo | lra].
    + assert (Hb : (r * K <= (inject_Z k / K + pow2 (-53)) * K)%Q)
        by (apply Qmult_le_compat_r; lra).
      assert (He : ((inject_Z k / K + pow2 (-53)) * K ==
                    inject_Z k + pow2 (-53) * K)%Q).
      { field. intros Hz. rewrite Hz in HK. discriminate. }
      rewrite He in Hb.
      assert (Hc : (pow2 (-53) * K <= pow2 (-53) * (inject_Z (2 ^ 29) + 1))%Q).
      { apply Qmult_le_l; [rewrite Hp53; reflexivity|]. lra. }
      rewrite inject_Z_plus. change (inject_Z 1) with 1%Q.
      assert (Hd : (pow2 (-53) * inject_Z k <= pow2 (-53) * inject_Z (2 ^ 29))%Q).
      { apply Qmult_le_l; [rewrite Hp53; reflexivity|]. lra. }
      rewrite Hp53, H29 in Hc, Hd. rewrite Hp53 in Hb. rewrite Hp53. lra.
Qed.

(** Every cell of a board of less than [2^32] pixels a side (the sides
    of a canvas are unsigned 32-bit numbers) is the outcome of some pair
    of draws. *)
Lemma snake_drawCell_reaches (c : Canvas) (p : Cell) :
  onBoard c p -> width c < 2 ^ 32 -> height c < 2 ^ 32 ->
  exists rx ry : Q,
    unitInterval rx /\ unitInterval ry /\ drawCell c rx ry = p.
Proof.
  intros (Hx0 & Hx1 & Hy0 & Hy1) Hw Hh.
  destruct (snake_floor_draw_reaches (x p) (width c) Hx0 Hx1 Hw)
    as (rx & Hrx & Hfx).
  destruct (snake_floor_draw_reaches (y p) (height c) Hy0 Hy1 Hh)
    as (ry & Hry & Hfy).
  exists rx, ry. split; [exact Hrx|]. split; [exact Hry|].
  unfold drawCell. rewrite Hfx, Hfy. destruct p; reflexivity.
Qed.

Lemma snake_drawnCells_onBoard (c : Canvas) (rs : list Q) :
  0 < width c -> 0 < height c ->
  Forall unitInterval rs ->
  Forall (onBoard c) (drawnCells c rs).
Proof.
  intros Hw Hh.
  induction rs as [| r | rx ry rs IH] using snake_pairs_ind;
    intros Hrs; simpl; try constructor.
  - inversion Hrs as [|? ? Hx Hrs']; subst.
    inversion Hrs' as [|? ? Hy Hrs'']; subst.
    apply snake_drawCell_onBoard; assumption.
  - apply IH. inversion Hrs as [|? ? _ Hrs']; subst.
    inversion Hrs'; subst. assumption.
Qed.

Lemma snake_eats_same (h : Cell) (f : option Cell) :
  eats h f = true -> f = Some h.
Proof.
  destruct f as [f|]; simpl; [|discriminate].
  unfold sameCell. intros Hf. apply andb_true_iff in Hf as [Hx Hy].
  apply Z.eqb_eq in Hx, Hy. destruct h, f; simpl in *; congruence.
Qed.

Section Eating.
Context `{Runtime}.

End Eating.


End SnakeProps.

(** ** Endless Runner *)

Module RunnerProps.
Import Runner.

(** C7: [updatePlayer] leaves a player who is not jumping unchanged.  For
    a jumping player it adds gravity to the jump velocity and the new
    velocity to the vertical position, each sum rounded to a double as
    the script computes it; if that position reaches or passes the
    standing position on the ground (ground level minus the player's
    height), the position is clamped to it, the velocity is reset to zero
    and the jumping flag is cleared; otherwise the new velocity and
    position are kept and the player is still jumping.  Nothing else of
    the player changes. *)
Theorem runner_updatePlayer_integrates_gravity (g : Q) (p : Player) :
  let v := round53 (jumpVelocity p + gravity p) in
  let y := round53 (py p + v) in
  (jumping p = false -> updatePlayer g p = p) /\
  (jumping p = true -> (g - pheight p <= y)%Q ->
   updatePlayer g p =
   {| px := px p; py := (g - pheight p)%Q; pwidth := pwidth p;
      pheight := pheight p; jumping := false; jumpHeight := jumpHeight p;
      jumpVelocity := 0; gravity := gravity p |}) /\
  (jumping p = true -> (y < g - pheight p)%Q ->
   updatePlayer g p =
   {| px := px p; py := y; pwidth := pwidth p; pheight := pheight p;
      jumping := true; jumpHeight := jumpHeight p; jumpVelocity := v;
      gravity := gravity p |}).
Proof.
  intros v y. unfold updatePlayer. fold v. fold y.
  split; [|split].
  - intros ->. reflexivity.
  - intros -> Hle. apply Qle_bool_iff in Hle. rewrite Hle. reflexivity.
  - intros -> Hlt.
    destruct (Qle_bool (g - pheight p) y) eqn:Hb; [|reflexivity].
    apply Qle_bool_iff in Hb. exfalso. exact (Qlt_not_le _ _ Hlt Hb).
Qed.

(** Touching down: from 2 above the standing position, falling at 3, the
    next tick would pass the ground and is clamped.  Taking off: the first
    tick after a jump from the ground leaves the velocity at the double
    next to -14.2 and the position at the double next to 285.8, which are
    not the rationals -71/5 and 1429/5. *)
Lemma runner_updatePlayer_integrates_gravity_witness :
  (jumping falling = true /\
   (350 - pheight falling <=
    round53 (py falling + round53 (jumpVelocity falling + gravity falling)))%Q /\
   py (updatePlayer 350 falling) = (350 - 50)%Q /\
   jumpVelocity (updatePlayer 350 falling) = 0%Q /\
   jumping (updatePlayer 350 falling) = false) /\
  (jumping (jump standing) = true /\
   (round53 (py (jump standing) +
             round53 (jumpVelocity (jump standing) + gravity (jump standing)))
    < 350 - pheight (jump standing))%Q /\
   jumpVelocity (updatePlayer 350 (jump standing)) =
     (- (3996944669291315 # 281474976710656))%Q /\
   py (updatePlayer 350 (jump standing)) =
     (5027846771494093 # 17592186044416)%Q /\
   jumping (updatePlayer 350 (jump standing)) = true).
Proof.
  destruct (runner_updatePlayer_integrates_gravity 350 falling)
    as (_ & Hland & _).
  destruct (runner_updatePlayer_integrates_gravity 350 (jump standing))
    as (_ & _ & Hfly).
  split.
  - assert (Hj : jumping falling = true) by reflexivity.
    assert (Hle : (350 - pheight falling <=
                   round53 (py falling +
                            round53 (jumpVelocity falling + gravity falling)))%Q)
      by (vm_compute; discriminate).
    split; [exact Hj|]. split; [exact Hle|].
    rewrite (Hland Hj Hle). repeat split.
  - assert (Hj : jumping (jump standing) = true) by reflexivity.
    assert (Hlt : (round53 (py (jump standing) +
                            round53 (jumpVelocity (jump standing) +
                                     gravity (jump standing)))
                   < 350 - pheight (jump standing))%Q)
      by (vm_compute; reflexivity).
    split; [exact Hj|]. split; [exact Hlt|].
    rewrite (Hfly Hj Hlt). cbn [jumpVelocity py jumping].
    split; [vm_compute; reflexivity|]. split; [vm_compute; reflexivity|].
    reflexivity.
Defined.

(** The rounding accumulates: 34 ticks after a jump from ground level 350
    the player is at 266 + 3 / 2^44, where the exact sums give 266. *)
Lemma runner_jump_drifts :
  py (Nat.iter 34 (updatePlayer 350) (jump standing)) =
    (4679521487814659 # 17592186044416)%Q.
Proof. vm_compute. reflexivity. Qed.

(** *** The spawn rate across sessions *)

Lemma runner_initial_spawnRate (c : Canvas) (ls : gmap string string)
    (text0 : string) (rs : list Q) (s0 : State) :
  initial c ls text0 rs = Ok s0 -> spawnRate s0 = 100.
Proof.
  unfold initial. destruct (initialClouds 5 c rs) as [[cls rs']| |];
    simpl; intros Heq; inversion Heq; reflexivity.
Qed.

Lemma runner_checkCollisions_spawnRate (s : State) :
  spawnRate (checkCollisions s) = spawnRate s.
Proof. unfold checkCollisions. destruct (existsb _ _); reflexivity. Qed.

Section WithRuntime.
Context `{Runtime}.

(** The only assignment to [spawnRate]: minus 5 on a spawning frame,
    while it is above 60. *)
Lemma runner_gameUpdate_spawnRate (s s' : State) (rs : list Q) :
  gameUpdate s rs = Ok s' ->
  spawnRate s' =
  if divides (spawnRate s) (frameCount s + 1) && (60 <? spawnRate s)
  then spawnRate s - 5 else spawnRate s.
Proof.
  unfold gameUpdate.
  destruct (updateClouds (canvas s) rs (clouds s)) as [[cls rs1]| |];
    simpl; try discriminate.
  destruct (divides (spawnRate s) (frameCount s + 1)).
  - destruct rs1 as [|r rs1]; simpl; try discriminate.
    intros Heq; inversion Heq; subst; clear Heq.
    rewrite runner_checkCollisions_spawnRate. reflexivity.
  - simpl. intros Heq; inversion Heq; subst; clear Heq.
    rewrite runner_checkCollisions_spawnRate. reflexivity.
Qed.

Lemma runner_step_spawnRate (s s' : State) (e : Event) :
  step s e = Ok s' ->
  spawnRate s' <= spawnRate s /\ (onLadder s -> onLadder s').
Proof.
  destruct e as [| | code | id rs]; simpl.
  - intros Heq; inversion Heq; subst; clear Heq.
    unfold startGame. destruct (gameRunning s); simpl; split; auto; lia.
  - intros Heq; inversion Heq; subst; clear Heq. simpl. split; auto; lia.
  - intros Heq; inversion Heq; subst; clear Heq.
    unfold keyDown. destruct (_ && _); simpl; split; auto; lia.
  - destruct (fire id (timers s)) as [[[] ts]|].
    + intros Hup. apply runner_gameUpdate_spawnRate in Hup.
      simpl in Hup. rewrite Hup. unfold onLadder. rewrite Hup.
      destruct (_ && _) eqn:Hb.
      * apply andb_true_iff in Hb as [_ Hgt]. apply Z.ltb_lt in Hgt.
        split; [lia|]. intros [Hr [k Hk]].
        split; [lia|]. exists (k - 1). lia.
      * split; [lia | auto].
    + intros Heq; inversion Heq; subst. split; auto; lia.
Qed.

Lemma runner_run_spawnRate (es : list Event) (s s' : State) :
  run s es = Ok s' ->
  spawnRate s' <= spawnRate s /\ (onLadder s -> onLadder s').
Proof.
  revert s. induction es as [|e es IH]; intros s; simpl.
  - intros Heq; inversion Heq; subst. split; auto; lia.
  - destruct (step s e) as [s1| |] eqn:Hstep; simpl; try discriminate.
    intros Hrun. apply runner_step_spawnRate in Hstep as [Hle1 Hl1].
    apply IH in Hrun as [Hle2 Hl2]. split; [lia | auto].
Qed.

(** C10: in every state [s] the game reaches from page load,
    [startGame] (pressed while stopped) resets the score, the game
    speed, the frame count, the player's position and jump state and
    the obstacle list, but leaves [spawnRate] as it is; [resetGame]
    leaves [spawnRate], [gameSpeed] and [frameCount] as they are.  The
    spawn rate therefore carries over from one session to the next: it
    never rises along a run, whatever controls are pressed, and never
    leaves the range from the floor 60 to the initial 100. *)
Theorem runner_spawnRate_outlives_sessions (c : Canvas)
    (ls : gmap string string) (text0 : string) (rs0 : list Q)
    (s0 s : State) (es : list Event) :
  initial c ls text0 rs0 = Ok s0 ->
  run s0 es = Ok s ->
  (gameRunning s = false ->
   score (startGame s) = 0 /\
   gameSpeed (startGame s) = 5%Q /\
   frameCount (startGame s) = 0 /\
   py (player (startGame s)) = (ground s - pheight (player s))%Q /\
   jumping (player (startGame s)) = false /\
   jumpVelocity (player (startGame s)) = 0%Q /\
   obstacles (startGame s) = []) /\
  spawnRate (startGame s) = spawnRate s /\
  (spawnRate (resetGame s) = spawnRate s /\
   gameSpeed (resetGame s) = gameSpeed s /\
   frameCount (resetGame s) = frameCount s) /\
  60 <= spawnRate s <= 100 /\
  (forall (es' : list Event) (s' : State),
     run s es' = Ok s' -> spawnRate s' <= spawnRate s).
Proof.
  intros Hinit Hrun.
  split; [|split; [|split; [|split]]].
  - intros Hstop. unfold startGame. rewrite Hstop. simpl. repeat split.
  - unfold startGame. destruct (gameRunning s); reflexivity.
  - repeat split.
  - apply runner_initial_spawnRate in Hinit.
    apply runner_run_spawnRate in Hrun as [_ Hl].
    apply Hl. unfold onLadder. rewrite Hinit.
    split; [lia | exists 20; lia].
  - intros es' s' Hrun'. apply runner_run_spawnRate in Hrun'. tauto.
Qed.
End WithRuntime.

(** A first session of 100 frames (the obstacle spawned on frame 100
    lowers the spawn rate to 95), then Reset and Start: the second
    session starts from score 0, frame 0, speed 5, and spawn rate 95. *)
Lemma runner_spawnRate_outlives_sessions_witness :
  exists s0 s : State,
    freshPage = Ok s0 /\
    run (H := decimalRuntime) s0
      (ClickStart :: replicate 100 (Fire 1 [(1 # 2)%Q])
         ++ [ClickReset]) = Ok s /\
    gameRunning s = false /\
    spawnRate s = 95 /\
    frameCount s = 100 /\
    spawnRate (startGame s) = 95 /\
    frameCount (startGame s) = 0 /\
    score (startGame s) = 0.
Proof.
  eexists. eexists. split; [reflexivity|].
  lazymatch goal with
  | |- run ?s0 ?es = Ok ?s /\ _ =>
      assert (H0 : initial (mkCanvas 800 400) ∅ "0"
                     (replicate 20 (1 # 2)%Q) = Ok s0) by reflexivity;
      assert (H1 : run (H := decimalRuntime) s0 es = Ok s)
        by (vm_compute; reflexivity);
      pose proof (runner_spawnRate_outlives_sessions
                    (H := decimalRuntime) _ _ _ _ s0 s es H0 H1)
        as (Hstart & Hkeep & _ & _ & _)
  end.
  split; [exact H1|].
  split; [reflexivity|]. split; [reflexivity|]. split; [reflexivity|].
  split; [rewrite Hkeep; reflexivity|].
  destruct (Hstart eq_refl) as (Hscore & _ & Hfc & _).
  split; [exact Hfc | exact Hscore].
Defined.

End RunnerProps.

(** ** Whack-a-Mole *)

Module WhackProps.
Import Whack JsProps.

Lemma whack_hideAll_replicate (ms : list Mole) :
  hideAll ms = replicate (length ms) hidden.
Proof.
  induction ms as [|m ms IH]; simpl; [reflexivity | rewrite <- IH; reflexivity].
Qed.

(** The floor of the rounded product with [n] spreads the draws evenly
    over [0 .. n - 1]. *)
Lemma whack_floorMul_spread (n : Z) :
  0 < n <= 2 ^ 53 -> EvenlySpread n (fun r => floorMul r (inject_Z n)).
Proof.
  intros Hn r k (Hd & Hr0 & Hr1). split.
  - intros Hk Hlo Hhi. apply js_floorMul_inside; try assumption; [lia|].
    split; [exact Hk|].
    assert (Hlt : (inject_Z k < inject_Z n)%Q).
    { eapply Qle_lt_trans; [exact Hlo|].
      rewrite <- (Qmult_1_l (inject_Z n)) at 2.
      apply Qmult_lt_compat_r; [|exact Hr1].
      change 0%Q with (inject_Z 0). rewrite <- Zlt_Qlt. lia. }
    rewrite <- Zlt_Qlt in Hlt. lia.
  - intros Hf.
    pose proof (js_floorMul_range r n ltac:(lia) (conj Hd (conj Hr0 Hr1)))
      as Hrange.
    apply js_floorMul_outside; try assumption; lia.
Qed.

Lemma whack_randomTime_range (r : Q) :
  unitInterval r -> 600 <= randomTime r < 1500.
Proof.
  intros Hr. unfold randomTime, minTime, maxTime.
  change (inject_Z (1500 - 600)) with (inject_Z 900).
  pose proof (js_floorMul_range r 900 ltac:(lia) Hr). lia.
Qed.

(** There are nine moles in every state the page reaches. *)
Lemma whack_showRandomMole_length (s s' : State) (r1 r2 : Q) :
  showRandomMole s r1 r2 = Ok s' -> length (moles s') = length (moles s).
Proof.
  unfold showRandomMole.
  match goal with
  | |- context [nth_mole ?a ?b] => destruct (nth_mole a b)
  end; [|discriminate].
  intros Heq; inversion Heq; subst. simpl.
  rewrite length_insert. unfold hideAll. apply length_map.
Qed.

Lemma whack_step_length (H : Runtime) (s s' : State) (e : Event) :
  step s e = Ok s' -> length (moles s') = length (moles s).
Proof.
  destruct e as [r1 r2| |i|id r1 r2]; simpl.
  - unfold startGame. destruct (gameRunning s).
    + intros Heq; inversion Heq; reflexivity.
    + intros Hshow. apply whack_showRandomMole_length in Hshow.
      rewrite Hshow. simpl. unfold hideAll. apply length_map.
  - intros Heq; inversion Heq; subst. simpl. unfold hideAll.
    apply length_map.
  - intros Heq; inversion Heq; subst. unfold clickMole.
    destruct (moles s !! i) as [m|]; [|reflexivity].
    destruct (_ && _); [|reflexivity]. simpl. apply length_insert.
  - destruct (fire id (timers s)) as [[[] ts]|].
    + intros Heq; inversion Heq; subst. unfold countdown.
      destruct (_ <=? 0); reflexivity.
    + unfold moleTimeout. simpl. destruct (gameRunning s).
      * intros Hshow. apply whack_showRandomMole_length in Hshow.
        exact Hshow.
      * intros Heq; inversion Heq; reflexivity.
    + intros Heq; inversion Heq; reflexivity.
Qed.

Lemma whack_reachable_nine_moles (H : Runtime) (ls : gmap string string)
    (text0 text1 : string) (es : list Event) (s : State) :
  run (initial ls text0 text1) es = Ok s -> length (moles s) = 9%nat.
Proof.
  assert (Hgen : forall s0, run s0 es = Ok s ->
                            length (moles s) = length (moles s0)).
  { induction es as [|e es IH]; intros s0; simpl.
    - intros Heq; inversion Heq; reflexivity.
    - destruct (step s0 e) as [s1| |] eqn:Hstep; simpl; try discriminate.
      intros Hrun. rewrite (IH s1 Hrun).
      eapply whack_step_length, Hstep. }
  intros Hrun. rewrite (Hgen _ Hrun). reflexivity.
Qed.

(** C5: for draws that are doubles of [0, 1) and the nine moles of the
    page ([whack_reachable_nine_moles]), the visible time
    [showRandomMole] computes lies in [600, 1500) and the mole index in
    [0, 9).  The script floors the product of the draw with 900 (with 9)
    after it is rounded to a double, so the draws that give a value are
    those of an interval of length 1/900 (1/9) up to a part in [2^53] at
    its ends ([EvenlySpread]): a uniform draw gives a uniform time and a
    uniform index up to that rounding, not exactly.  When the mole timer
    expires in a running game, every mole is hidden and the mole of the
    drawn index is the only active one (it may be the one that was just
    active: the index depends on the draw alone), and a new timeout with
    the drawn visible time is scheduled for the mole callback. *)
Theorem whack_mole_timer_draws (s : State) (r1 r2 : Q) :
  unitInterval r1 ->
  unitInterval r2 ->
  length (moles s) = 9%nat ->
  gameRunning s = true ->
  600 <= randomTime r2 < 1500 /\
  EvenlySpread 900 (fun r => randomTime r - 600) /\
  0 <= randomIndex 9 r1 < 9 /\
  EvenlySpread 9 (randomIndex 9) /\
  exists (s' : State) (id : nat),
    moleTimeout s r1 r2 = Ok s' /\
    length (moles s') = 9%nat /\
    (forall (j : nat) (m : Mole),
       moles s' !! j = Some m ->
       whacked m = false /\
       active m = bool_decide (j = Z.to_nat (randomIndex 9 r1))) /\
    moleTimer s' = Some id /\
    Js.active (timers s') !! id =
    Some {| repeat := false; delay := inject_Z (randomTime r2);
            callback := MoleCb |}.
Proof.
  intros Hr1 Hr2 Hlen Hrun.
  pose proof (js_floorMul_range r1 9 ltac:(lia) Hr1) as Hidx.
  split; [apply whack_randomTime_range, Hr2|].
  split.
  { intros r k Hr.
    destruct (whack_floorMul_spread 900 ltac:(lia) r k Hr) as [Hin Hout].
    unfold randomTime, minTime, maxTime.
    change (inject_Z (1500 - 600)) with (inject_Z 900).
    split.
    - intros Hk Hlo Hhi. rewrite (Hin Hk Hlo Hhi). lia.
    - intros Hf. apply Hout. lia. }
  split; [exact Hidx|].
  split; [exact (whack_floorMul_spread 9 ltac:(lia))|].
  unfold moleTimeout. rewrite Hrun. unfold showRandomMole, randomIndex, nth_mole.
  rewrite whack_hideAll_replicate, Hlen, length_replicate.
  change (Z.of_nat 9) with 9.
  set (i := floorMul r1 (inject_Z 9)) in *.
  destruct (i <? 0) eqn:Hneg; [apply Z.ltb_lt in Hneg; lia|].
  assert (Hi : (Z.to_nat i < 9)%nat) by lia.
  rewrite lookup_replicate_2 by exact Hi.
  pose proof (length_replicate 9 hidden) as Hms.
  pose proof (fun j m => proj1 (lookup_replicate 9 hidden m j)) as Hall.
  set (ms := replicate 9 hidden) in *.
  destruct (setTimeout MoleCb (inject_Z (randomTime r2)) (timers s))
    as [id ts] eqn:Hts.
  exists
    {| score := score s; timeLeft := timeLeft s;
       gameRunning := gameRunning s; gameTimer := gameTimer s;
       moleTimer := Some id; highScore := highScore s;
       moles := <[Z.to_nat i := {| active := true; whacked := false |}]> ms;
       timers := ts; storage := storage s;
       scoreText := scoreText s; timeLeftText := timeLeftText s;
       highScoreText := highScoreText s |}, id.
  split; [reflexivity|]. cbn [moles moleTimer timers].
  split; [rewrite length_insert; exact Hms|].
  split.
  - intros j m Hj.
    destruct (decide (j = Z.to_nat i)) as [->|Hne].
    + rewrite list_lookup_insert_eq in Hj by (rewrite Hms; exact Hi).
      inversion Hj; subst. rewrite bool_decide_eq_true_2 by reflexivity.
      split; reflexivity.
    + rewrite list_lookup_insert_ne in Hj by congruence.
      apply Hall in Hj as [-> _].
      rewrite bool_decide_eq_false_2 by exact Hne. split; reflexivity.
  - split; [reflexivity|].
    unfold setTimeout, schedule in Hts. inversion Hts; subst.
    apply lookup_insert_eq.
Qed.

(** In a fresh game mole 4 is up; with both draws at one half the expiry
    brings the same mole up again, for 1050 ms.  The ends of the intervals
    follow the rounding: the draw 4003199668773774 / 2^52 is below 8/9,
    its product with 9 is rounded to 8, and it brings up mole 8. *)
Lemma whack_mole_timer_draws_witness :
  exists s s' : State,
    freshGame = Ok s /\
    unitInterval (1 # 2) /\
    length (moles s) = 9%nat /\
    gameRunning s = true /\
    (active <$> moles s !! 4%nat) = Some true /\
    randomTime (1 # 2) = 1050 /\
    randomIndex 9 (1 # 2) = 4 /\
    moleTimeout s (1 # 2) (1 # 2) = Ok s' /\
    (active <$> moles s' !! 4%nat) = Some true /\
    (active <$> moles s' !! 5%nat) = Some false /\
    unitInterval (4003199668773774 # 4503599627370496) /\
    (4003199668773774 # 4503599627370496 < 8 # 9)%Q /\
    randomIndex 9 (4003199668773774 # 4503599627370496) = 8.
Proof.
  assert (Hu : unitInterval (1 # 2))
    by (apply js_unitInterval_dec; vm_compute; reflexivity).
  assert (Hv : unitInterval (4003199668773774 # 4503599627370496))
    by (apply js_unitInterval_dec; vm_compute; reflexivity).
  eexists. eexists. split; [vm_compute; reflexivity|]. split; [exact Hu|].
  split; [reflexivity|]. split; [reflexivity|]. split; [reflexivity|].
  lazymatch goal with
  | |- _ /\ _ /\ moleTimeout ?s _ _ = _ /\ _ =>
      destruct (whack_mole_timer_draws s (1 # 2) (1 # 2) Hu Hu eq_refl eq_refl)
        as (_ & Ht & _ & Hi & s' & id & Hs' & _ & Hm & _)
  end.
  split.
  { assert (He : randomTime (1 # 2) - 600 = 450).
    { apply (Ht (1 # 2)%Q 450 Hu); [lia | |]; vm_compute; discriminate. }
    lia. }
  split; [apply (Hi (1 # 2)%Q 4 Hu); [lia | |]; vm_compute; discriminate|].
  split; [vm_compute; reflexivity|].
  split; [vm_compute; reflexivity|]. split; [vm_compute; reflexivity|].
  split; [exact Hv|]. split; vm_compute; reflexivity.
Defined.

End WhackProps.

(** ** Image Puzzle: the empty slot *)

Module PuzzleProps.
Import Puzzle.

Lemma puzzle_indices_lookup (n : Z) (i : nat) :
  indices n !! i = if decide (Z.of_nat i < n) then Some (Z.of_nat i) else None.
Proof.
  unfold indices. rewrite list_lookup_fmap.
  destruct (decide (Z.of_nat i < n)) as [Hlt|Hge].
  - rewrite lookup_seq_lt by lia. reflexivity.
  - rewrite lookup_seq_ge by lia. reflexivity.
Qed.

(** The grid [createGrid] builds has a tile exactly on the cells of the
    [n] by [n] square. *)
Lemma puzzle_newGrid_tileAt (n : Z) (p : Pos) :
  tileAt (newGrid n) p =
  if decide (0 <= row p < n /\ 0 <= col p < n)
  then Some (newTile n (row p) (col p)) else None.
Proof.
  unfold tileAt, newGrid.
  destruct (row p <? 0) eqn:Hr; [apply Z.ltb_lt in Hr|apply Z.ltb_ge in Hr];
    simpl.
  { rewrite decide_False by lia. reflexivity. }
  destruct (col p <? 0) eqn:Hc; [apply Z.ltb_lt in Hc|apply Z.ltb_ge in Hc];
    simpl.
  { rewrite decide_False by lia. reflexivity. }
  rewrite list_lookup_fmap, puzzle_indices_lookup.
  destruct (decide (Z.of_nat (Z.to_nat (row p)) < n)) as [Hrn|Hrn]; simpl.
  - rewrite list_lookup_fmap, puzzle_indices_lookup.
    destruct (decide (Z.of_nat (Z.to_nat (col p)) < n)) as [Hcn|Hcn]; simpl.
    + rewrite decide_True by lia. rewrite !Z2Nat.id by lia. reflexivity.
    + rewrite decide_False by lia. reflexivity.
  - rewrite decide_False by lia. reflexivity.
Qed.

(** Reading a cell after a write to the element at [p]. *)
Lemma puzzle_tileAt_onTile (f : Tile -> Tile) (p q : Pos)
    (g : list (list Tile)) :
  0 <= row p -> 0 <= col p ->
  tileAt (onTile f p g) q =
  if decide (q = p) then f <$> tileAt g q else tileAt g q.
Proof.
  intros Hr Hc. unfold tileAt, onTile.
  destruct ((row q <? 0) || (col q <? 0)) eqn:Hneg.
  - destruct (decide (q = p)) as [->|]; [|reflexivity].
    apply orb_true_iff in Hneg as [H|H]; apply Z.ltb_lt in H; lia.
  - apply orb_false_iff in Hneg as [Hqr Hqc].
    apply Z.ltb_ge in Hqr, Hqc.
    destruct (decide (q = p)) as [->|Hne].
    + rewrite list_lookup_alter_eq.
      destruct (g !! Z.to_nat (row p)) as [r|]; simpl; [|reflexivity].
      apply list_lookup_alter_eq.
    + destruct (decide (Z.to_nat (row p) = Z.to_nat (row q))) as [Hrow|Hrow].
      * rewrite <- Hrow, list_lookup_alter_eq.
        destruct (g !! Z.to_nat (row p)) as [r|]; simpl; [|reflexivity].
        apply list_lookup_alter_ne. intros Hcol. apply Hne.
        destruct p, q; simpl in *. f_equal; lia.
      * rewrite list_lookup_alter_ne by exact Hrow. reflexivity.
Qed.

Lemma puzzle_tileAt_nonneg (g : list (list Tile)) (p : Pos) (t : Tile) :
  tileAt g p = Some t -> 0 <= row p /\ 0 <= col p.
Proof.
  unfold tileAt. destruct ((row p <? 0) || (col p <? 0)) eqn:Hneg;
    [discriminate|].
  apply orb_false_iff in Hneg as [Hr Hc]. apply Z.ltb_ge in Hr, Hc. auto.
Qed.

(** After [createGrid] on a grid size of at least one. *)
Lemma puzzle_createGrid_unique (s : State) :
  0 < gridSize s -> UniqueEmpty (createGrid s).
Proof.
  intros Hn. unfold UniqueEmpty, createGrid. simpl.
  destruct (0 <? gridSize s) eqn:Hpos; [|apply Z.ltb_ge in Hpos; lia].
  split.
  - exists (newTile (gridSize s) (gridSize s - 1) (gridSize s - 1)).
    rewrite puzzle_newGrid_tileAt. simpl. rewrite decide_True by lia.
    split; [reflexivity|]. unfold newTile. rewrite !Z.eqb_refl. reflexivity.
  - intros p t. rewrite puzzle_newGrid_tileAt.
    destruct (decide _) as [Hin|]; [|discriminate].
    intros Ht He. inversion Ht; subst; clear Ht. unfold newTile in He.
    destruct ((row p =? gridSize s - 1) && (col p =? gridSize s - 1)) eqn:Hb;
      [|discriminate].
    apply andb_true_iff in Hb as [Hr Hc]. apply Z.eqb_eq in Hr, Hc.
    destruct p; simpl in *. subst. reflexivity.
Qed.

(** A swap with a tile other than the empty one moves the empty slot
    there. *)
Lemma puzzle_swapTiles_unique (s : State) (p : Pos) :
  UniqueEmpty s ->
  p <> emptyTile s ->
  is_Some (tileAt (grid s) p) ->
  exists s' : State,
    swapTiles p s = Ok s' /\ UniqueEmpty s' /\ emptyTile s' = p /\
    gridSize s' = gridSize s.
Proof.
  intros [[te [Hte Hempty]] Huniq] Hne [tp Htp].
  unfold swapTiles. rewrite Htp, Hte.
  eexists. split; [reflexivity|].
  destruct (puzzle_tileAt_nonneg _ _ _ Htp) as [Hpr Hpc].
  destruct (puzzle_tileAt_nonneg _ _ _ Hte) as [Her Hec].
  split; [|split; reflexivity].
  unfold UniqueEmpty. simpl.
  assert (Hread : forall q,
    tileAt
      (onTile (fun t => {| empty := false; content := content t |}) (emptyTile s)
         (onTile (fun t => {| empty := true; content := content t |}) p
            (onTile (fun t => {| empty := empty t; content := content tp |})
               (emptyTile s)
               (onTile (fun t => {| empty := empty t; content := None |}) p
                  (grid s))))) q =
    if decide (q = emptyTile s)
    then Some {| empty := false; content := content tp |}
    else if decide (q = p)
         then Some {| empty := true; content := None |}
         else tileAt (grid s) q).
  { intros q. rewrite !puzzle_tileAt_onTile by assumption.
    destruct (decide (q = emptyTile s)) as [->|Hqe].
    - rewrite !decide_False by congruence. rewrite Hte. reflexivity.
    - destruct (decide (q = p)) as [->|Hqp]; [|reflexivity].
      rewrite Htp. reflexivity. }
  split.
  - exists {| empty := true; content := None |}. rewrite Hread.
    rewrite decide_False by exact Hne. rewrite decide_True by reflexivity.
    split; reflexivity.
  - intros q t. rewrite Hread.
    destruct (decide (q = emptyTile s)) as [->|Hqe].
    + intros Ht He. inversion Ht; subst. discriminate He.
    + destruct (decide (q = p)) as [->|Hqp]; [reflexivity|].
      intros Ht He. exfalso. apply Hqe. eapply Huniq; eassumption.
Qed.

Lemma puzzle_adjacent_not_empty (s : State) (p : Pos) :
  p ∈ getAdjacentTiles s -> p <> emptyTile s.
Proof.
  unfold getAdjacentTiles. intros Hin Heq. subst p.
  repeat (apply elem_of_app in Hin as [Hin|Hin]);
    repeat match goal with
           | H : _ ∈ (if ?b then _ else _) |- _ => destruct b
           end;
    try (apply elem_of_nil in Hin; exact Hin);
    apply list_elem_of_singleton in Hin;
    destruct (emptyTile s); simpl in *; inversion Hin; lia.
Qed.

Lemma puzzle_shuffleStep_unique (s s' : State) (r : Q) :
  UniqueEmpty s -> shuffleStep s r = Ok s' ->
  UniqueEmpty s' /\ gridSize s' = gridSize s.
Proof.
  intros Hinv. unfold shuffleStep.
  destruct (_ <? 0); [discriminate|].
  destruct (getAdjacentTiles s !! _) as [p|] eqn:Hp; [|discriminate].
  intros Hswap.
  assert (Hne : p <> emptyTile s).
  { apply puzzle_adjacent_not_empty. eapply list_elem_of_lookup_2, Hp. }
  assert (Hsome : is_Some (tileAt (grid s) p)).
  { unfold swapTiles in Hswap.
    destruct (tileAt (grid s) p); [eauto | discriminate]. }
  destruct (puzzle_swapTiles_unique s p Hinv Hne Hsome)
    as (s1 & Hs1 & Hu & _ & Hn).
  rewrite Hs1 in Hswap. inversion Hswap; subst. auto.
Qed.

Lemma puzzle_shuffleLoop_unique (k : nat) (s s' : State) (rs : list Q) :
  UniqueEmpty s -> shuffleLoop k s rs = Ok s' -> UniqueEmpty s'.
Proof.
  revert s rs. induction k as [|k IH]; intros s rs Hinv; simpl.
  - intros Heq; inversion Heq; subst. exact Hinv.
  - destruct rs as [|r rs]; [discriminate|].
    destruct (shuffleStep s r) as [s1| |] eqn:Hstep; simpl; try discriminate.
    apply puzzle_shuffleStep_unique in Hstep as [Hu _]; [|exact Hinv].
    apply IH, Hu.
Qed.

Section WithBrowser.
Variable bgMatches : Img -> Z -> Z -> Z -> bool.

Lemma puzzle_moveTile_unique (s s' : State) (p : Pos) :
  UniqueEmpty s -> moveTile bgMatches p s = Ok s' -> UniqueEmpty s'.
Proof.
  intros Hinv. unfold moveTile.
  destruct (_ || _) eqn:Hadj.
  - assert (Hne : p <> emptyTile s).
    { intros ->. rewrite !Z.sub_diag in Hadj. simpl in Hadj.
      rewrite !andb_false_r in Hadj. discriminate. }
    destruct (swapTiles p s) as [s1| |] eqn:Hswap; simpl; try discriminate.
    assert (Hsome : is_Some (tileAt (grid s) p)).
    { unfold swapTiles in Hswap.
      destruct (tileAt (grid s) p); [eauto | discriminate]. }
    destruct (puzzle_swapTiles_unique s p Hinv Hne Hsome)
      as (s1' & Hs1 & Hu & _).
    rewrite Hs1 in Hswap. inversion Hswap; subst s1'.
    destruct (isPuzzleSolved _ _) as [b| |]; simpl; try discriminate.
    intros Heq; inversion Heq; subst; clear Heq.
    destruct b; exact Hu.
  - intros Heq; inversion Heq; subst. exact Hinv.
Qed.

End WithBrowser.

(** *** The empty slot in every reachable state *)

Lemma puzzle_newGrid_nil (n : Z) : n <= 0 -> newGrid n = [].
Proof.
  intros Hn. unfold newGrid, indices.
  replace (Z.to_nat n) with 0%nat by lia. reflexivity.
Qed.

Lemma puzzle_tileAt_nil (p : Pos) : tileAt [] p = None.
Proof. unfold tileAt. destruct (_ || _); reflexivity. Qed.

Lemma puzzle_unique_ext (s s' : State) :
  grid s' = grid s -> emptyTile s' = emptyTile s ->
  UniqueEmpty s -> UniqueEmpty s'.
Proof. unfold UniqueEmpty. intros -> ->. auto. Qed.

(** What holds of the grid at any time: it is empty (a grid size below one
    was selected) or has its unique empty cell on record. *)
Lemma puzzle_createGrid_inv (s : State) :
  grid (createGrid s) = [] \/ UniqueEmpty (createGrid s).
Proof.
  destruct (Z.lt_ge_cases 0 (gridSize s)) as [Hpos|Hneg].
  - right. apply puzzle_createGrid_unique, Hpos.
  - left. simpl. apply puzzle_newGrid_nil, Hneg.
Qed.

Lemma puzzle_shuffleLoop_nil (k : nat) (s s' : State) (rs : list Q) :
  grid s = [] -> shuffleLoop k s rs = Ok s' -> s' = s.
Proof.
  intros Hnil. destruct k as [|k]; simpl.
  - intros Heq; inversion Heq; reflexivity.
  - destruct rs as [|r rs]; [discriminate|].
    unfold shuffleStep. destruct (_ <? 0); [discriminate|].
    destruct (getAdjacentTiles s !! _) as [p|]; [|discriminate].
    unfold swapTiles. rewrite Hnil, puzzle_tileAt_nil. discriminate.
Qed.

Section Reachable.
Variable bgMatches : Img -> Z -> Z -> Z -> bool.

Lemma puzzle_moveTile_grid_nil (s s' : State) (p : Pos) :
  grid s = [] -> moveTile bgMatches p s = Ok s' -> s' = s.
Proof.
  intros Hnil. unfold moveTile. destruct (_ || _).
  - unfold swapTiles. rewrite Hnil, puzzle_tileAt_nil. discriminate.
  - intros Heq; inversion Heq; reflexivity.
Qed.

Lemma puzzle_step_inv (s s' : State) (e : Event) :
  grid s = [] \/ UniqueEmpty s ->
  step bgMatches s e = Ok s' ->
  grid s' = [] \/ UniqueEmpty s'.
Proof.
  intros Hinv. destruct e as [rs| |n|p|id]; simpl.
  - unfold startGame. destruct (gameRunning s).
    + intros Heq; inversion Heq; subst. exact Hinv.
    + match goal with
      | |- context [shuffleGrid ?s1 rs] =>
          pose proof (puzzle_createGrid_inv
                        {| grid := grid (resetGame s);
                           emptyTile := emptyTile (resetGame s);
                           gridSize := gridSize (resetGame s);
                           moves := moves (resetGame s);
                           timer := timer (resetGame s);
                           timerInterval := timerInterval (resetGame s);
                           gameRunning := true;
                           timers := timers (resetGame s);
                           movesText := movesText (resetGame s);
                           timerText := timerText (resetGame s) |}) as H1;
          destruct (shuffleGrid s1 rs) as [s2| |] eqn:Hsh
      end; simpl; try discriminate.
      intros Heq; inversion Heq; subst; clear Heq. simpl.
      destruct H1 as [Hnil|Hu].
      * left. unfold shuffleGrid in Hsh.
        apply puzzle_shuffleLoop_nil in Hsh; [|exact Hnil].
        subst s2. exact Hnil.
      * right. unfold shuffleGrid in Hsh.
        apply puzzle_shuffleLoop_unique in Hsh; [|exact Hu].
        eapply puzzle_unique_ext; [| |exact Hsh]; reflexivity.
  - intros Heq; inversion Heq; subst. apply puzzle_createGrid_inv.
  - intros Heq; inversion Heq; subst. destruct Hinv as [Hnil|Hu].
    + left. exact Hnil.
    + right. eapply puzzle_unique_ext; [| |exact Hu]; reflexivity.
  - destruct (tileAt (grid s) p) as [t|].
    + destruct (gameRunning s).
      * intros Hmove. destruct Hinv as [Hnil|Hu].
        -- left. apply puzzle_moveTile_grid_nil in Hmove; [|exact Hnil].
           subst. exact Hnil.
        -- right. eapply puzzle_moveTile_unique; eassumption.
      * intros Heq; inversion Heq; subst. exact Hinv.
    + intros Heq; inversion Heq; subst. exact Hinv.
  - destruct (fire id (timers s)) as [[[] ts]|];
      intros Heq; inversion Heq; subst; try exact Hinv;
      (destruct Hinv as [Hnil|Hu];
       [left; exact Hnil
       | right; eapply puzzle_unique_ext; [| |exact Hu]; reflexivity]).
Qed.

Lemma puzzle_run_inv (es : list Event) (s s' : State) :
  grid s = [] \/ UniqueEmpty s ->
  run bgMatches s es = Ok s' ->
  grid s' = [] \/ UniqueEmpty s'.
Proof.
  revert s. induction es as [|e es IH]; intros s Hinv; simpl.
  - intros Heq; inversion Heq; subst. exact Hinv.
  - destruct (step bgMatches s e) as [s1| |] eqn:Hstep; simpl;
      try discriminate.
    apply IH. eapply puzzle_step_inv; eassumption.
Qed.

Lemma puzzle_reachable_at_most_one (text0 text1 : string)
    (es : list Event) (s : State) :
  run bgMatches (initial text0 text1) es = Ok s ->
  AtMostOneEmpty s /\ (grid s <> [] -> UniqueEmpty s).
Proof.
  intros Hrun.
  assert (Hinv : grid s = [] \/ UniqueEmpty s).
  { eapply puzzle_run_inv; [|exact Hrun]. apply puzzle_createGrid_inv. }
  split.
  - intros p q tp tq Hp Hep Hq Heq. destruct Hinv as [Hnil|[_ Hu]].
    + rewrite Hnil, puzzle_tileAt_nil in Hp. discriminate.
    + rewrite (Hu p tp Hp Hep), (Hu q tq Hq Heq). reflexivity.
  - intros Hne. destruct Hinv as [Hnil|Hu]; [contradiction | exact Hu].
Qed.
End Reachable.

(** C8: at most one tile is the empty slot at any time.  [createGrid] (on
    a grid size of at least one) leaves exactly one empty cell, the one
    [emptyTile] records; from a state where the cell recorded in
    [emptyTile] is the unique empty cell, a swap with any other tile of the
    grid returns and makes that tile's cell the unique empty cell, and so
    every [moveTile] and every [shuffleGrid] that returns leaves the
    recorded cell the unique empty one.  In every state the page reaches
    from its load no two cells are empty, and unless the grid has no cell
    at all (a grid size below one was selected) the recorded cell is the
    unique empty one. *)
Theorem puzzle_unique_empty_tile (bgMatches : Img -> Z -> Z -> Z -> bool)
    (s : State) :
  (0 < gridSize s -> UniqueEmpty (createGrid s)) /\
  (UniqueEmpty s ->
   (forall p : Pos,
      p <> emptyTile s -> is_Some (tileAt (grid s) p) ->
      exists s' : State,
        swapTiles p s = Ok s' /\ UniqueEmpty s' /\ emptyTile s' = p) /\
   (forall (p : Pos) (s' : State),
      moveTile bgMatches p s = Ok s' -> UniqueEmpty s') /\
   (forall (rs : list Q) (s' : State),
      shuffleGrid s rs = Ok s' -> UniqueEmpty s')) /\
  (forall (text0 text1 : string) (es : list Event),
     run bgMatches (initial text0 text1) es = Ok s ->
     AtMostOneEmpty s /\ (grid s <> [] -> UniqueEmpty s)).
Proof.
  split; [apply puzzle_createGrid_unique|]. split.
  - intros Hinv. split; [|split].
    + intros p Hne Hsome.
      destruct (puzzle_swapTiles_unique s p Hinv Hne Hsome)
        as (s' & Hs' & Hu & He & _).
      exists s'. auto.
    + intros p s'. apply puzzle_moveTile_unique, Hinv.
    + intros rs s'. unfold shuffleGrid.
      apply puzzle_shuffleLoop_unique, Hinv.
  - intros text0 text1 es. apply puzzle_reachable_at_most_one.
Qed.

(** On the freshly built 4 by 4 grid the empty slot is cell (3, 3); the
    swap with its left neighbour moves it to (3, 2), and a shuffle of 160
    swaps returns with the empty slot still unique. *)
Lemma puzzle_unique_empty_tile_witness :
  0 < gridSize freshPage /\
  UniqueEmpty (createGrid freshPage) /\
  emptyTile (createGrid freshPage) = mkPos 3 3 /\
  (exists s' : State,
     swapTiles (mkPos 3 2) (createGrid freshPage) = Ok s' /\
     UniqueEmpty s' /\ emptyTile s' = mkPos 3 2) /\
  (exists s' : State,
     shuffleGrid (createGrid freshPage) (replicate 160 (1 # 2)%Q) = Ok s' /\
     UniqueEmpty s').
Proof.
  assert (Hn : 0 < gridSize freshPage) by (simpl; lia).
  pose proof (proj1 (puzzle_unique_empty_tile (fun _ _ _ _ => false) freshPage)
                Hn) as Hinv.
  split; [exact Hn|]. split; [exact Hinv|]. split; [reflexivity|].
  destruct (puzzle_unique_empty_tile (fun _ _ _ _ => false)
              (createGrid freshPage)) as (_ & Hswaps & _).
  destruct (Hswaps Hinv) as (Hswap & _ & Hshuffle).
  split.
  - apply Hswap; [discriminate | eexists; reflexivity].
  - eexists.
    lazymatch goal with
    | |- ?r = Ok ?s' /\ _ =>
        assert (Hrun : r = Ok s') by (vm_compute; reflexivity)
    end.
    split; [exact Hrun|]. exact (Hshuffle _ _ Hrun).
Defined.

End PuzzleProps.

(** ** The high score *)

Module GatewayProps.
Import Gateway.

(** The example runtime converts the numerals the games write. *)
Lemma decimalRuntime_reads : ReadsDecimals decimalRuntime.
Proof.
  intros n h Hh. unfold numGtStr, decimalRuntime, NumberToString.
  assert (Hparse : NilZero.int_of_string (NilZero.string_of_int (Z.to_int h))
                   = Some (Z.to_int h)).
  { apply NilZero.isi; destruct h as [|p|p]; simpl; try lia;
      try discriminate; intros Heq; inversion Heq as [Hp];
      exact (DecimalPos.Unsigned.to_uint_nonnil p Hp). }
  destruct (decide (NilZero.string_of_int (Z.to_int h) = EmptyString)) as [He|_].
  - rewrite He in Hparse. discriminate Hparse.
  - rewrite Hparse, DecimalZ.of_to. reflexivity.
Qed.

Section WithRuntime.
Context `{Runtime}.
Hypothesis reads : ReadsDecimals H.

(** Against a record [h], [score > highScore] is [h < score]. *)
Lemma gateway_gt_recorded (hs : JsVal) (item : option string) (h n : Z) :
  Recorded hs item h -> gt n hs = (h <? n).
Proof.
  intros (Hh & [-> | ->] & _); simpl; [reflexivity | apply reads, Hh].
Qed.

Lemma gateway_bumped_step (k : string) (sc sc' h : Z) (hs hs' : JsVal)
    (st st' : gmap string string) :
  Recorded hs (st !! k) h ->
  sc <= h ->
  Bumped k sc hs st sc' hs' st' ->
  Recorded hs' (st' !! k) (Z.max h sc') /\
  sc' <= Z.max h sc' /\
  (st' = st \/ (h < sc' /\ st' = <[k := NumberToString sc']> st)).
Proof.
  intros Hrec Hle Hb. destruct Hb.
  - rewrite Z.max_l by lia. split; [exact Hrec|]. split; [lia | left; reflexivity].
  - rewrite (gateway_gt_recorded _ _ h _ Hrec).
    destruct (h <? sc + 1) eqn:Hlt;
      [apply Z.ltb_lt in Hlt | apply Z.ltb_ge in Hlt].
    + rewrite Z.max_r by lia. destruct Hrec as (Hh & _ & _).
      split; [|split; [lia | right; split; [lia | reflexivity]]].
      split; [lia|]. split; [left; reflexivity|].
      left. apply lookup_insert_eq.
    + rewrite Z.max_l by lia.
      split; [exact Hrec|]. split; [lia | left; reflexivity].
Qed.

Lemma gateway_bumped_session (k : string) (sc sc' h0 : Z) (hs hs' : JsVal)
    (st st' : gmap string string) :
  Recorded hs (st !! k) (Z.max h0 sc) ->
  Bumped k sc hs st sc' hs' st' ->
  Recorded hs' (st' !! k) (Z.max h0 sc').
Proof.
  intros Hrec Hb. destruct Hb; [exact Hrec|].
  rewrite (gateway_gt_recorded _ _ _ _ Hrec).
  destruct (Z.max h0 sc <? sc + 1) eqn:Hlt;
    [apply Z.ltb_lt in Hlt | apply Z.ltb_ge in Hlt].
  - rewrite Z.max_r by lia. destruct Hrec as (Hh & _ & _).
    split; [lia|]. split; [left; reflexivity|].
    left. apply lookup_insert_eq.
  - replace (Z.max h0 (sc + 1)) with (Z.max h0 sc) by lia. exact Hrec.
Qed.

(** What one step of each game does to the score and its record. *)

Lemma snake_gameUpdate_bumped (s s' : Snake.State) (rs : list Q) :
  Snake.gameUpdate s rs = Ok s' ->
  Bumped Snake.storageKey (Snake.score s) (Snake.highScore s)
    (Snake.storage s) (Snake.score s') (Snake.highScore s')
    (Snake.storage s').
Proof.
  unfold Snake.gameUpdate.
  destruct (Snake.snake s) as [|h0 tl]; [discriminate|].
  destruct (Snake.checkCollision _ _ _).
  - intros Heq; inversion Heq; subst. simpl. constructor.
  - destruct (Snake.eats _ _).
    + destruct (Snake.createFood _ _ _) as [f| |]; simpl; try discriminate.
      intros Heq; inversion Heq; subst. simpl. constructor.
    + intros Heq; inversion Heq; subst. simpl. constructor.
Qed.

Lemma snake_step_bumped (s s' : Snake.State) (e : Snake.Event) :
  Snake.step s e = Ok s' ->
  Bumped Snake.storageKey (Snake.score s) (Snake.highScore s)
    (Snake.storage s) (Snake.score s') (Snake.highScore s')
    (Snake.storage s')
  \/ (inSession snake e = false /\ Snake.score s' = 0 /\
      Snake.highScore s' = Snake.highScore s /\
      Snake.storage s' = Snake.storage s).
Proof.
  destruct e as [rs| |k|id rs]; simpl.
  - unfold Snake.startGame. destruct (Snake.gameRunning s).
    + intros Heq; inversion Heq; subst. left. constructor.
    + destruct (Snake.createFood _ _ _) as [f| |]; simpl; try discriminate.
      intros Heq; inversion Heq; subst. right. repeat split.
  - intros Heq; inversion Heq; subst. right. repeat split.
  - intros Heq; inversion Heq; subst. left.
    rewrite SnakeProps.snake_changeDirection_accepts.
    destruct (Snake.accepts _ _); constructor.
  - destruct (fire id (Snake.timers s)) as [[[] ts]|].
    + intros Hup. left. apply snake_gameUpdate_bumped in Hup. exact Hup.
    + intros Heq; inversion Heq; subst. left. constructor.
Qed.

Lemma runner_gameUpdate_bumped (s s' : Runner.State) (rs : list Q) :
  Runner.gameUpdate s rs = Ok s' ->
  Bumped Runner.storageKey (Runner.score s) (Runner.highScore s)
    (Runner.storage s) (Runner.score s') (Runner.highScore s')
    (Runner.storage s').
Proof.
  unfold Runner.gameUpdate.
  destruct (Runner.updateClouds _ _ _) as [[cls rs1]| |];
    simpl; try discriminate.
  match goal with
  | |- context [mbind _ ?o] => destruct o as [obs'| |]
  end; simpl; try discriminate.
  intros Heq; inversion Heq; subst; clear Heq.
  unfold Runner.checkCollisions.
  destruct (existsb _ _); simpl;
    destruct (Runner.divides 10 (Runner.frameCount s + 1)); simpl;
    constructor.
Qed.

Lemma runner_step_bumped (s s' : Runner.State) (e : Runner.Event) :
  Runner.step s e = Ok s' ->
  Bumped Runner.storageKey (Runner.score s) (Runner.highScore s)
    (Runner.storage s) (Runner.score s') (Runner.highScore s')
    (Runner.storage s')
  \/ (inSession runner e = false /\ Runner.score s' = 0 /\
      Runner.highScore s' = Runner.highScore s /\
      Runner.storage s' = Runner.storage s).
Proof.
  destruct e as [| |code|id rs]; simpl.
  - intros Heq; inversion Heq; subst. unfold Runner.startGame.
    destruct (Runner.gameRunning s); [left; constructor | right; repeat split].
  - intros Heq; inversion Heq; subst. right. repeat split.
  - intros Heq; inversion Heq; subst. left. unfold Runner.keyDown.
    destruct (_ && _); constructor.
  - destruct (fire id (Runner.timers s)) as [[[] ts]|].
    + intros Hup. left. apply runner_gameUpdate_bumped in Hup. exact Hup.
    + intros Heq; inversion Heq; subst. left. constructor.
Qed.

Lemma whack_showRandomMole_bumped (s s' : Whack.State) (r1 r2 : Q) :
  Whack.showRandomMole s r1 r2 = Ok s' ->
  Whack.score s' = Whack.score s /\
  Whack.highScore s' = Whack.highScore s /\
  Whack.storage s' = Whack.storage s.
Proof.
  unfold Whack.showRandomMole.
  destruct (Whack.nth_mole _ _); [|discriminate].
  intros Heq; inversion Heq; subst. repeat split.
Qed.

Lemma whack_step_bumped (s s' : Whack.State) (e : Whack.Event) :
  Whack.step s e = Ok s' ->
  Bumped Whack.storageKey (Whack.score s) (Whack.highScore s)
    (Whack.storage s) (Whack.score s') (Whack.highScore s')
    (Whack.storage s')
  \/ (inSession whack e = false /\ Whack.score s' = 0 /\
      Whack.highScore s' = Whack.highScore s /\
      Whack.storage s' = Whack.storage s).
Proof.
  destruct e as [r1 r2| |i|id r1 r2]; simpl.
  - unfold Whack.startGame. destruct (Whack.gameRunning s).
    + intros Heq; inversion Heq; subst. left. constructor.
    + intros Hshow. apply whack_showRandomMole_bumped in Hshow.
      simpl in Hshow. right. tauto.
  - intros Heq; inversion Heq; subst. right. repeat split.
  - intros Heq; inversion Heq; subst. left. unfold Whack.clickMole.
    destruct (Whack.moles s !! i) as [m|]; [|constructor].
    destruct (_ && _); constructor.
  - destruct (fire id (Whack.timers s)) as [[[] ts]|].
    + intros Heq; inversion Heq; subst. left. unfold Whack.countdown.
      destruct (_ <=? 0); constructor.
    + unfold Whack.moleTimeout. simpl. destruct (Whack.gameRunning s).
      * intros Hshow. apply whack_showRandomMole_bumped in Hshow.
        simpl in Hshow. destruct Hshow as (-> & -> & ->). left. constructor.
      * intros Heq; inversion Heq; subst. left. constructor.
    + intros Heq; inversion Heq; subst. left. constructor.
Qed.

(** The two gateway properties, for any game whose steps bump the score
    as above and whose Start leaves the record alone with score 0. *)
Lemma gateway_writes_only_records (G : Game) :
  (forall s s' e,
     step G s e = Ok s' ->
     Bumped (key G) (score G s) (highScore G s) (storage G s)
       (score G s') (highScore G s') (storage G s')
     \/ (inSession G e = false /\ score G s' = 0 /\
         highScore G s' = highScore G s /\ storage G s' = storage G s)) ->
  WritesOnlyRecords G.
Proof.
  intros Hstep s s' e h Hrec Hle Hs.
  destruct (Hstep s s' e Hs) as [Hb | (_ & Hz & Hhs & Hst)].
  - unfold stored in *. eapply gateway_bumped_step; eassumption.
  - unfold stored in *. rewrite Hz, Hhs, Hst.
    destruct Hrec as (Hh & Hrest). rewrite Z.max_l by lia.
    split; [split; assumption|]. split; [lia | left; reflexivity].
Qed.

Lemma gateway_session_ends_at_max (G : Game) :
  (forall s s' e,
     step G s e = Ok s' ->
     Bumped (key G) (score G s) (highScore G s) (storage G s)
       (score G s') (highScore G s') (storage G s')
     \/ (inSession G e = false /\ score G s' = 0 /\
         highScore G s' = highScore G s /\ storage G s' = storage G s)) ->
  (forall s0 s1,
     started G s0 s1 ->
     score G s1 = 0 /\ highScore G s1 = highScore G s0 /\
     storage G s1 = storage G s0) ->
  SessionEndsAtMax G.
Proof.
  intros Hstep Hstart s0 s1 s' es h Hrec Hs01 Hes Hrun.
  destruct (Hstart s0 s1 Hs01) as (Hz & Hhs & Hst).
  assert (Hinv : Recorded (highScore G s1) (stored G s1)
                   (Z.max h (score G s1))).
  { unfold stored. rewrite Hz, Hhs, Hst.
    destruct Hrec as (Hh & Hrest). rewrite Z.max_l by lia.
    split; assumption. }
  assert (Hh : 0 <= h) by apply Hrec.
  clear Hrec Hs01 Hz Hhs Hst.
  assert (Hend : Recorded (highScore G s') (stored G s')
                   (Z.max h (score G s'))).
  { revert s1 Hinv Hrun. induction Hes as [|e es He Hes IH];
      intros s1 Hinv; simpl.
    - intros Heq; inversion Heq; subst. exact Hinv.
    - destruct (step G s1 e) as [s2| |] eqn:Hs; simpl; try discriminate.
      apply IH.
      destruct (Hstep s1 s2 e Hs) as [Hb | (Hout & _)].
      + unfold stored in *. eapply gateway_bumped_session; eassumption.
      + rewrite He in Hout. discriminate. }
  split; [exact Hend|]. intros Hlt.
  destruct Hend as (_ & _ & [Hitem | [_ Hzero]]).
  - rewrite Z.max_r in Hitem by lia. exact Hitem.
  - lia.
Qed.

End WithRuntime.



(** *** Loading the best score *)

(** C4 (as amended): [localStorage.getItem(key) || 0] yields the number 0
    when nothing is stored or the stored string is empty, and every other
    stored string as it is, unparsed; that value is the [highScore] Snake,
    Endless Runner and Whack-a-Mole start with. *)
Theorem load_keeps_nonempty_strings (ls : gmap string string)
    (sc : Snake.Canvas) (rc : Runner.Canvas) (text0 text1 : string)
    (rs : list Q) :
  orZero None = JNum 0 /\
  orZero (Some EmptyString) = JNum 0 /\
  (forall str : string, str <> EmptyString -> orZero (Some str) = JStr str) /\
  Snake.highScore (Snake.initial sc ls text0)
  = orZero (ls !! Snake.storageKey) /\
  Whack.highScore (Whack.initial ls text0 text1)
  = orZero (ls !! Whack.storageKey) /\
  (forall s0 : Runner.State,
     Runner.initial rc ls text0 rs = Ok s0 ->
     Runner.highScore s0 = orZero (ls !! Runner.storageKey)).
Proof.
  split; [reflexivity|]. split; [reflexivity|].
  split.
  { intros str Hne. unfold orZero. rewrite decide_False by exact Hne.
    reflexivity. }
  split; [reflexivity|]. split; [reflexivity|].
  intros s0. unfold Runner.initial.
  destruct (Runner.initialClouds 5 rc rs) as [[cls rs']| |];
    simpl; try discriminate.
  intros Heq; inversion Heq; subst. reflexivity.
Qed.

Lemma load_keeps_nonempty_strings_witness :
  "7" <> EmptyString /\
  orZero (Some "7") = JStr "7" /\
  exists s0 : Runner.State,
    Runner.initial (Runner.mkCanvas 800 400) {[ Runner.storageKey := "7" ]}
      "0" (replicate 20 (1 # 2)%Q) = Ok s0 /\
    Runner.highScore s0 = JStr "7".
Proof.
  destruct (load_keeps_nonempty_strings {[ Runner.storageKey := "7" ]}
              (Snake.mkCanvas 400 400) (Runner.mkCanvas 800 400) "0" "30"
              (replicate 20 (1 # 2)%Q))
    as (_ & _ & Hstr & _ & _ & Hrunner).
  assert (Hne : "7" <> EmptyString) by discriminate.
  split; [exact Hne|]. split; [exact (Hstr "7" Hne)|].
  eexists. split; [reflexivity|].
  erewrite Hrunner by reflexivity. vm_compute. reflexivity.
Defined.

(** C4 (as stated) fails: "abc" is no decimal integer, yet with "abc"
    stored Whack-a-Mole and the Endless Runner start with the string "abc"
    as their high score, not with the number 0. *)
Lemma malformed_high_score_is_not_zero :
  NilZero.int_of_string "abc" = None /\
  Whack.highScore (Whack.initial {[ Whack.storageKey := "abc" ]} "0" "30")
  = JStr "abc" /\
  (exists s0 : Runner.State,
     Runner.initial (Runner.mkCanvas 800 400)
       {[ Runner.storageKey := "abc" ]} "0" (replicate 20 (1 # 2)%Q) = Ok s0 /\
     Runner.highScore s0 = JStr "abc") /\
  JStr "abc" <> JNum 0.
Proof.
  split; [reflexivity|]. split; [vm_compute; reflexivity|].
  split; [|discriminate].
  eexists. split; [reflexivity|]. vm_compute. reflexivity.
Qed.

End GatewayProps.

(** ** The session controls *)

Module ControlsProps.

Lemma controls_clear_twice {C : Type} (h : option nat) (ts : Timers C) :
  clearInterval h (clearInterval h ts) = clearInterval h ts.
Proof.
  destruct h as [id|]; simpl; [|reflexivity].
  rewrite delete_delete_eq. reflexivity.
Qed.

Lemma controls_clear_commute {C : Type} (h1 h2 : option nat) (ts : Timers C) :
  clearInterval h1 (clearInterval h2 ts) = clearInterval h2 (clearInterval h1 ts).
Proof.
  destruct h1 as [i|], h2 as [j|]; simpl; try reflexivity.
  rewrite delete_delete. reflexivity.
Qed.

Lemma controls_hideAll_twice (ms : list Whack.Mole) :
  Whack.hideAll (Whack.hideAll ms) = Whack.hideAll ms.
Proof.
  unfold Whack.hideAll.
  induction ms as [|m ms IH]; simpl; [reflexivity | f_equal; exact IH].
Qed.

Section WithEnvironment.
Context `{Runtime}.
Variable bgMatches : Puzzle.Img -> Z -> Z -> Z -> bool.

(** C9: in each of the four games with a Start and a Reset button (Snake,
    Endless Runner, Whack-a-Mole, Image Puzzle), Start pressed while the
    session runs returns the state as it is: no variable changes and the
    timer table, so the set of scheduled timers, is the same; Reset,
    pressed in any state, running or stopped, leaves the session stopped
    with the score and its display at 0 (Whack-a-Mole: also the time left
    at 30; Puzzle: moves and timer at 0), and a second Reset changes
    nothing more. *)
Theorem controls_are_idempotent :
  (forall (s : Snake.State) (rs : list Q),
     (Snake.gameRunning s = true ->
      Snake.step s (Snake.ClickStart rs) = Ok s) /\
     Snake.gameRunning (Snake.resetGame s) = false /\
     Snake.score (Snake.resetGame s) = 0 /\
     Snake.scoreText (Snake.resetGame s) = "0" /\
     Snake.resetGame (Snake.resetGame s) = Snake.resetGame s) /\
  (forall s : Runner.State,
     (Runner.gameRunning s = true ->
      Runner.step s Runner.ClickStart = Ok s) /\
     Runner.gameRunning (Runner.resetGame s) = false /\
     Runner.score (Runner.resetGame s) = 0 /\
     Runner.scoreText (Runner.resetGame s) = "0" /\
     Runner.resetGame (Runner.resetGame s) = Runner.resetGame s) /\
  (forall (s : Whack.State) (r1 r2 : Q),
     (Whack.gameRunning s = true ->
      Whack.step s (Whack.ClickStart r1 r2) = Ok s) /\
     Whack.gameRunning (Whack.resetGame s) = false /\
     Whack.score (Whack.resetGame s) = 0 /\
     Whack.scoreText (Whack.resetGame s) = "0" /\
     Whack.timeLeft (Whack.resetGame s) = 30 /\
     Whack.timeLeftText (Whack.resetGame s) = "30" /\
     Whack.resetGame (Whack.resetGame s) = Whack.resetGame s) /\
  (forall (s : Puzzle.State) (rs : list Q),
     (Puzzle.gameRunning s = true ->
      Puzzle.step bgMatches s (Puzzle.ClickStart rs) = Ok s) /\
     Puzzle.gameRunning (Puzzle.resetGame s) = false /\
     Puzzle.moves (Puzzle.resetGame s) = 0 /\
     Puzzle.movesText (Puzzle.resetGame s) = "0" /\
     Puzzle.timer (Puzzle.resetGame s) = 0 /\
     Puzzle.timerText (Puzzle.resetGame s) = "0" /\
     Puzzle.resetGame (Puzzle.resetGame s) = Puzzle.resetGame s).
Proof.
  split; [|split; [|split]].
  - intros s rs. split; [|repeat split].
    + intros Hrun. simpl. unfold Snake.startGame. rewrite Hrun. reflexivity.
    + unfold Snake.resetGame. simpl. rewrite controls_clear_twice.
      reflexivity.
  - intros s. split; [|repeat split].
    + intros Hrun. simpl. unfold Runner.startGame. rewrite Hrun. reflexivity.
    + unfold Runner.resetGame. simpl. rewrite controls_clear_twice.
      reflexivity.
  - intros s r1 r2. split; [|repeat split].
    + intros Hrun. simpl. unfold Whack.startGame. rewrite Hrun. reflexivity.
    + unfold Whack.resetGame. cbn [Whack.moles Whack.timers Whack.gameTimer
                                     Whack.moleTimer Whack.highScore
                                     Whack.storage Whack.highScoreText].
      rewrite controls_hideAll_twice.
      rewrite (controls_clear_commute (Whack.gameTimer s) (Whack.moleTimer s)).
      rewrite !controls_clear_twice. reflexivity.
  - intros s rs. split; [|repeat split].
    + intros Hrun. simpl. unfold Puzzle.startGame. rewrite Hrun. reflexivity.
    + unfold Puzzle.resetGame, Puzzle.createGrid, Puzzle.setGrid.
      cbn [Puzzle.grid Puzzle.emptyTile Puzzle.gridSize Puzzle.moves
           Puzzle.timer Puzzle.timerInterval Puzzle.gameRunning
           Puzzle.timers Puzzle.movesText Puzzle.timerText].
      rewrite controls_clear_twice.
      destruct (0 <? Puzzle.gridSize s); reflexivity.
Qed.
End WithEnvironment.

(** A running Whack-a-Mole session: a second Start changes nothing. *)
Lemma controls_are_idempotent_witness :
  exists s : Whack.State,
    Whack.freshGame = Ok s /\
    Whack.gameRunning s = true /\
    Whack.step (H := decimalRuntime) s (Whack.ClickStart (3 # 8) (3 # 8)) = Ok s.
Proof.
  eexists. split; [reflexivity|]. split; [reflexivity|].
  lazymatch goal with
  | |- Whack.step ?s _ = _ =>
      destruct (controls_are_idempotent (H := decimalRuntime)
                  (fun _ _ _ _ => false))
        as (_ & _ & Hwhack & _);
      destruct (Hwhack s (3 # 8)%Q (3 # 8)%Q) as [Hstart _]
  end.
  apply Hstart. reflexivity.
Defined.

End ControlsProps.

(** ** Timers after Reset *)

Module TimersProps.

Lemma timers_clear_lookup {C : Type} (h : option nat) (ts : Timers C)
    (id : nat) :
  active (clearInterval h ts) !! id =
  if decide (h = Some id) then None else active ts !! id.
Proof.
  destruct h as [i|]; simpl.
  - destruct (decide (Some i = Some id)) as [Heq|Hne].
    + inversion Heq; subst. apply lookup_delete_eq.
    + apply lookup_delete_ne. congruence.
  - reflexivity.
Qed.

Lemma timers_clear_held_one {C : Type} (h : option nat) (ts : Timers C) :
  held [h] ts -> active (clearInterval h ts) = ∅.
Proof.
  intros Hheld. apply map_empty. intros id. rewrite timers_clear_lookup.
  destruct (decide (h = Some id)) as [|Hne]; [reflexivity|].
  destruct (active ts !! id) as [t|] eqn:Ht; [|reflexivity].
  exfalso. apply Hne. specialize (Hheld id ltac:(rewrite Ht; eauto)).
  apply list_elem_of_singleton in Hheld. congruence.
Qed.

Lemma timers_clear_held_two {C : Type} (g m : option nat) (ts : Timers C) :
  held [g; m] ts -> active (clearInterval m (clearInterval g ts)) = ∅.
Proof.
  intros Hheld. apply map_empty. intros id. rewrite !timers_clear_lookup.
  destruct (decide (m = Some id)) as [|Hm]; [reflexivity|].
  destruct (decide (g = Some id)) as [|Hg]; [reflexivity|].
  destruct (active ts !! id) as [t|] eqn:Ht; [|reflexivity].
  exfalso. specialize (Hheld id ltac:(rewrite Ht; eauto)).
  apply elem_of_cons in Hheld as [Hh|Hh]; [congruence|].
  apply list_elem_of_singleton in Hh. congruence.
Qed.

Lemma timers_fire_empty {C : Type} (ts : Timers C) (id : nat) :
  active ts = ∅ -> fire id ts = None.
Proof. intros He. unfold fire. rewrite He, lookup_empty. reflexivity. Qed.

(** What [fire] returns: the task's callback, and a table that lost at most
    the fired timer. *)
Lemma timers_fire_some {C : Type} (ts ts' : Timers C) (id : nat) (cb : C) :
  fire id ts = Some (cb, ts') ->
  exists t : Task C,
    active ts !! id = Some t /\ callback t = cb /\
    (forall j, is_Some (active ts' !! j) -> is_Some (active ts !! j)) /\
    (repeat t = false -> active ts' = delete id (active ts)) /\
    nextId ts' = nextId ts.
Proof.
  unfold fire. destruct (active ts !! id) as [t|] eqn:Ht; [|discriminate].
  intros Heq; inversion Heq; subst; clear Heq.
  exists t. split; [reflexivity|]. split; [reflexivity|].
  destruct (repeat t); simpl.
  - split; [auto|]. split; [discriminate | reflexivity].
  - split; [|split; reflexivity].
    intros j [x Hx]. apply lookup_delete_Some in Hx as [_ Hx]. eauto.
Qed.


(** *** Snake *)

Lemma timers_snake_gameUpdate (H : Runtime) (s s' : Snake.State)
    (rs : list Q) :
  Snake.gameUpdate s rs = Ok s' ->
  Snake.gameLoop s' = Snake.gameLoop s /\
  ((Snake.timers s' = Snake.timers s /\
    Snake.gameRunning s' = Snake.gameRunning s)
   \/ (Snake.timers s' = clearInterval (Snake.gameLoop s) (Snake.timers s) /\
       Snake.gameRunning s' = false)).
Proof.
  unfold Snake.gameUpdate.
  destruct (Snake.snake s) as [|h0 tl]; [discriminate|].
  destruct (Snake.checkCollision _ _ _).
  - intros Heq; inversion Heq; subst. simpl. auto.
  - destruct (Snake.eats _ _).
    + destruct (Snake.createFood _ _ _) as [f| |]; simpl; try discriminate.
      intros Heq; inversion Heq; subst. simpl. auto.
    + intros Heq; inversion Heq; subst. simpl. auto.
Qed.

Lemma timers_snake_step (H : Runtime) (s s' : Snake.State)
    (e : Snake.Event) :
  Snake.Quiet s -> Snake.step s e = Ok s' -> Snake.Quiet s'.
Proof.
  intros [Hstop Hheld]. destruct e as [rs| |k|id rs]; simpl.
  - unfold Snake.startGame.
    destruct (Snake.gameRunning s) eqn:Hrun.
    + intros Heq; inversion Heq; subst. split; [congruence | exact Hheld].
    + destruct (Snake.createFood _ _ _) as [f| |]; simpl; try discriminate.
      intros Heq; inversion Heq; subst; clear Heq.
      split; simpl; [discriminate|].
      intros id [t Ht]. rewrite (Hstop eq_refl) in Ht. simpl in Ht.
      apply lookup_insert_Some in Ht as [[<- _]|[_ Ht]].
      * apply list_elem_of_singleton. reflexivity.
      * rewrite lookup_empty in Ht. discriminate.
  - intros Heq; inversion Heq; subst; clear Heq.
    pose proof (timers_clear_held_one _ _ Hheld) as He.
    split; simpl; [intros _; exact He|].
    intros id [t Ht]. rewrite He, lookup_empty in Ht. discriminate.
  - intros Heq; inversion Heq; subst; clear Heq.
    rewrite SnakeProps.snake_changeDirection_accepts.
    destruct (Snake.accepts _ _); split; assumption.
  - destruct (fire id (Snake.timers s)) as [[[] ts]|] eqn:Hfire.
    + destruct (timers_fire_some _ _ _ _ Hfire) as (t & Ht & _ & Hsub & _).
      assert (Hheld' : held [Snake.gameLoop s] ts)
        by (intros j Hj; apply Hheld, Hsub, Hj).
      intros Hup. apply timers_snake_gameUpdate in Hup.
      simpl in Hup. destruct Hup as [Hloop [[Hts Hrun]|[Hts Hrun]]].
      * split.
        -- rewrite Hrun. intros Hs. rewrite (Hstop Hs), lookup_empty in Ht.
           discriminate.
        -- rewrite Hloop, Hts. exact Hheld'.
      * pose proof (timers_clear_held_one _ _ Hheld') as He.
        split; [intros _; rewrite Hts; exact He|].
        intros j [x Hx]. rewrite Hts, He, lookup_empty in Hx. discriminate.
    + intros Heq; inversion Heq; subst. split; assumption.
Qed.

Lemma timers_snake_run (H : Runtime) (es : list Snake.Event)
    (s s' : Snake.State) :
  Snake.Quiet s -> Snake.run s es = Ok s' -> Snake.Quiet s'.
Proof.
  revert s. induction es as [|e es IH]; intros s Hq; simpl.
  - intros Heq; inversion Heq; subst. exact Hq.
  - destruct (Snake.step s e) as [s1| |] eqn:Hstep; simpl; try discriminate.
    apply IH. eapply timers_snake_step; eassumption.
Qed.

Lemma timers_snake_initial (c : Snake.Canvas) (ls : gmap string string)
    (text0 : string) :
  Snake.Quiet (Snake.initial c ls text0).
Proof.
  split; [reflexivity|]. intros id [t Ht]. simpl in Ht.
  rewrite lookup_empty in Ht. discriminate.
Qed.


(** *** Endless Runner *)

Lemma timers_runner_gameUpdate (H : Runtime) (s s' : Runner.State)
    (rs : list Q) :
  Runner.gameUpdate s rs = Ok s' ->
  Runner.gameLoop s' = Runner.gameLoop s /\
  ((Runner.timers s' = Runner.timers s /\
    Runner.gameRunning s' = Runner.gameRunning s)
   \/ (Runner.timers s' = clearInterval (Runner.gameLoop s) (Runner.timers s) /\
       Runner.gameRunning s' = false)).
Proof.
  unfold Runner.gameUpdate.
  destruct (Runner.updateClouds _ _ _) as [[cls rs1]| |];
    simpl; try discriminate.
  match goal with
  | |- context [mbind _ ?o] => destruct o as [obs'| |]
  end; simpl; try discriminate.
  intros Heq; inversion Heq; subst; clear Heq.
  unfold Runner.checkCollisions.
  destruct (existsb _ _); simpl; auto.
Qed.

Lemma timers_runner_step (H : Runtime) (s s' : Runner.State)
    (e : Runner.Event) :
  Runner.Quiet s -> Runner.step s e = Ok s' -> Runner.Quiet s'.
Proof.
  intros [Hstop Hheld]. destruct e as [| |code|id rs]; simpl.
  - intros Heq; inversion Heq; subst; clear Heq. unfold Runner.startGame.
    destruct (Runner.gameRunning s) eqn:Hrun.
    + split; [congruence | exact Hheld].
    + split; simpl; [discriminate|].
      intros id [t Ht]. rewrite (Hstop eq_refl) in Ht. simpl in Ht.
      apply lookup_insert_Some in Ht as [[<- _]|[_ Ht]].
      * apply list_elem_of_singleton. reflexivity.
      * rewrite lookup_empty in Ht. discriminate.
  - intros Heq; inversion Heq; subst; clear Heq.
    pose proof (timers_clear_held_one _ _ Hheld) as He.
    split; simpl; [intros _; exact He|].
    intros id [t Ht]. rewrite He, lookup_empty in Ht. discriminate.
  - intros Heq; inversion Heq; subst; clear Heq. unfold Runner.keyDown.
    destruct (_ && _); split; assumption.
  - destruct (fire id (Runner.timers s)) as [[[] ts]|] eqn:Hfire.
    + destruct (timers_fire_some _ _ _ _ Hfire) as (t & Ht & _ & Hsub & _).
      assert (Hheld' : held [Runner.gameLoop s] ts)
        by (intros j Hj; apply Hheld, Hsub, Hj).
      intros Hup. apply timers_runner_gameUpdate in Hup.
      simpl in Hup. destruct Hup as [Hloop [[Hts Hrun]|[Hts Hrun]]].
      * split.
        -- rewrite Hrun. intros Hs. rewrite (Hstop Hs), lookup_empty in Ht.
           discriminate.
        -- rewrite Hloop, Hts. exact Hheld'.
      * pose proof (timers_clear_held_one _ _ Hheld') as He.
        split; [intros _; rewrite Hts; exact He|].
        intros j [x Hx]. rewrite Hts, He, lookup_empty in Hx. discriminate.
    + intros Heq; inversion Heq; subst. split; assumption.
Qed.

Lemma timers_runner_run (H : Runtime) (es : list Runner.Event)
    (s s' : Runner.State) :
  Runner.Quiet s -> Runner.run s es = Ok s' -> Runner.Quiet s'.
Proof.
  revert s. induction es as [|e es IH]; intros s Hq; simpl.
  - intros Heq; inversion Heq; subst. exact Hq.
  - destruct (Runner.step s e) as [s1| |] eqn:Hstep; simpl; try discriminate.
    apply IH. eapply timers_runner_step; eassumption.
Qed.

Lemma timers_runner_initial (c : Runner.Canvas) (ls : gmap string string)
    (text0 : string) (rs : list Q) (s0 : Runner.State) :
  Runner.initial c ls text0 rs = Ok s0 -> Runner.Quiet s0.
Proof.
  unfold Runner.initial.
  destruct (Runner.initialClouds 5 c rs) as [[cls rs']| |];
    simpl; try discriminate.
  intros Heq; inversion Heq; subst.
  split; [reflexivity|]. intros id [t Ht]. simpl in Ht.
  rewrite lookup_empty in Ht. discriminate.
Qed.

(** *** Whack-a-Mole *)

Lemma timers_whack_held (s : Whack.State) (ts : Timers Whack.Callback) :
  (forall id t,
     active ts !! id = Some t ->
     (Whack.gameTimer s = Some id /\ callback t = Whack.CountdownCb)
     \/ (Whack.moleTimer s = Some id /\ callback t = Whack.MoleCb /\
         repeat t = false)) ->
  held [Whack.gameTimer s; Whack.moleTimer s] ts.
Proof.
  intros Hinv id [t Ht].
  destruct (Hinv id t Ht) as [[Hg _]|[Hm _]].
  - rewrite Hg. apply elem_of_cons. left. reflexivity.
  - rewrite Hm. apply elem_of_cons. right.
    apply list_elem_of_singleton. reflexivity.
Qed.

Lemma timers_whack_showRandomMole (s s' : Whack.State) (r1 r2 : Q) :
  Whack.showRandomMole s r1 r2 = Ok s' ->
  Whack.gameRunning s' = Whack.gameRunning s /\
  Whack.gameTimer s' = Whack.gameTimer s /\
  Whack.moleTimer s' = Some (nextId (Whack.timers s)) /\
  active (Whack.timers s') =
  <[nextId (Whack.timers s) :=
      {| repeat := false; delay := inject_Z (Whack.randomTime r2);
         callback := Whack.MoleCb |}]> (active (Whack.timers s)).
Proof.
  unfold Whack.showRandomMole.
  match goal with
  | |- context [Whack.nth_mole ?a ?b] => destruct (Whack.nth_mole a b)
  end; [|discriminate].
  intros Heq; inversion Heq; subst. repeat split.
Qed.

Lemma timers_whack_step (H : Runtime) (s s' : Whack.State)
    (e : Whack.Event) :
  Whack.Quiet s -> Whack.step s e = Ok s' -> Whack.Quiet s'.
Proof.
  intros [Hstop Hinv].
  pose proof (timers_whack_held s _ Hinv) as Hheld.
  destruct e as [r1 r2| |i|id r1 r2]; simpl.
  - unfold Whack.startGame.
    destruct (Whack.gameRunning s) eqn:Hrun.
    + intros Heq; inversion Heq; subst. split; [congruence | exact Hinv].
    + intros Hshow. apply timers_whack_showRandomMole in Hshow.
      simpl in Hshow. destruct Hshow as (Hr & Hg & Hm & Hact).
      rewrite (timers_clear_held_two _ _ _ Hheld) in Hact.
      split; [congruence|]. rewrite Hg, Hm, Hact.
      intros id t Ht.
      apply lookup_insert_Some in Ht as [[<- <-]|[Hne Ht]].
      * right. repeat split.
      * apply lookup_insert_Some in Ht as [[<- <-]|[_ Ht]].
        -- left. split; reflexivity.
        -- rewrite lookup_empty in Ht. discriminate.
  - intros Heq; inversion Heq; subst; clear Heq.
    pose proof (timers_clear_held_two _ _ _ Hheld) as He.
    split; simpl; [intros _; exact He|].
    intros id t Ht. rewrite He, lookup_empty in Ht. discriminate.
  - intros Heq; inversion Heq; subst; clear Heq. unfold Whack.clickMole.
    destruct (Whack.moles s !! i) as [m|]; [|split; assumption].
    destruct (_ && _); split; assumption.
  - destruct (fire id (Whack.timers s)) as [[cb ts]|] eqn:Hfire.
    + destruct (timers_fire_some _ _ _ _ Hfire)
        as (t & Ht & Hcb & Hsub & Hshot & Hnext).
      assert (Hrun : Whack.gameRunning s = true).
      { destruct (Whack.gameRunning s); [reflexivity|].
        rewrite (Hstop eq_refl), lookup_empty in Ht. discriminate. }
      assert (Hinv' : forall j x,
                active ts !! j = Some x ->
                (Whack.gameTimer s = Some j /\ callback x = Whack.CountdownCb)
                \/ (Whack.moleTimer s = Some j /\ callback x = Whack.MoleCb /\
                    repeat x = false)).
      { intros j x Hx. unfold fire in Hfire. rewrite Ht in Hfire.
        inversion Hfire as [[Hc Hts]]. destruct (repeat t).
        - subst ts. apply Hinv, Hx.
        - subst ts. simpl in Hx. apply lookup_delete_Some in Hx as [_ Hx].
          apply Hinv, Hx. }
      destruct cb.
      * intros Heq; inversion Heq; subst s'; clear Heq.
        unfold Whack.countdown. simpl.
        destruct (_ <=? 0).
        -- pose proof (timers_clear_held_two _ _ _
                        (timers_whack_held s ts Hinv')) as He.
           split; simpl; [intros _; exact He|].
           intros j x Hx. rewrite He, lookup_empty in Hx. discriminate.
        -- split; simpl; [congruence | exact Hinv'].
      * unfold Whack.moleTimeout. simpl. rewrite Hrun.
        intros Hshow. apply timers_whack_showRandomMole in Hshow.
        simpl in Hshow. destruct Hshow as (Hr & Hg & Hnew & Hact).
        split; [congruence|]. rewrite Hg, Hnew, Hact.
        destruct (Hinv id t Ht) as [[_ Hc]|(Hm & _ & Hone)];
          [congruence|].
        intros j x Hx.
        apply lookup_insert_Some in Hx as [[<- <-]|[Hne Hx]].
        -- right. repeat split.
        -- rewrite (Hshot Hone) in Hx.
           apply lookup_delete_Some in Hx as [Hji Hx].
           destruct (Hinv j x Hx) as [Hgj|(Hmj & _)]; [left; exact Hgj|].
           congruence.
    + intros Heq; inversion Heq; subst. split; assumption.
Qed.

Lemma timers_whack_run (H : Runtime) (es : list Whack.Event)
    (s s' : Whack.State) :
  Whack.Quiet s -> Whack.run s es = Ok s' -> Whack.Quiet s'.
Proof.
  revert s. induction es as [|e es IH]; intros s Hq; simpl.
  - intros Heq; inversion Heq; subst. exact Hq.
  - destruct (Whack.step s e) as [s1| |] eqn:Hstep; simpl; try discriminate.
    apply IH. eapply timers_whack_step; eassumption.
Qed.

Lemma timers_whack_initial (ls : gmap string string) (t0 t1 : string) :
  Whack.Quiet (Whack.initial ls t0 t1).
Proof.
  split; [reflexivity|]. intros id t Ht. simpl in Ht.
  rewrite lookup_empty in Ht. discriminate.
Qed.


(** *** Stale callbacks *)

Section WithRuntime.
Context `{Runtime}.

(** C1 (as amended): of the deferred callbacks only the mole timeout of
    Whack-a-Mole checks the running flag, so it alone changes nothing when
    it is invoked on a stopped session.  For the tick callbacks the
    protection is the cancellation: in every state Snake, Endless Runner
    and Whack-a-Mole reach from page load, Reset leaves no timer
    scheduled, so the event loop delivers no callback afterwards and
    firing any timer identifier leaves the reset state as it is. *)
Theorem reset_cancels_every_timer :
  (forall (s : Whack.State) (r1 r2 : Q),
     Whack.gameRunning s = false -> Whack.moleTimeout s r1 r2 = Ok s) /\
  (forall (c : Snake.Canvas) (ls : gmap string string) (text0 : string)
          (es : list Snake.Event) (s : Snake.State),
     Snake.run (Snake.initial c ls text0) es = Ok s ->
     active (Snake.timers (Snake.resetGame s)) = ∅ /\
     forall (id : nat) (rs : list Q),
       Snake.step (Snake.resetGame s) (Snake.Fire id rs)
       = Ok (Snake.resetGame s)) /\
  (forall (c : Runner.Canvas) (ls : gmap string string) (text0 : string)
          (rs0 : list Q) (s0 : Runner.State) (es : list Runner.Event)
          (s : Runner.State),
     Runner.initial c ls text0 rs0 = Ok s0 ->
     Runner.run s0 es = Ok s ->
     active (Runner.timers (Runner.resetGame s)) = ∅ /\
     forall (id : nat) (rs : list Q),
       Runner.step (Runner.resetGame s) (Runner.Fire id rs)
       = Ok (Runner.resetGame s)) /\
  (forall (ls : gmap string string) (text0 text1 : string)
          (es : list Whack.Event) (s : Whack.State),
     Whack.run (Whack.initial ls text0 text1) es = Ok s ->
     active (Whack.timers (Whack.resetGame s)) = ∅ /\
     forall (id : nat) (r1 r2 : Q),
       Whack.step (Whack.resetGame s) (Whack.Fire id r1 r2)
       = Ok (Whack.resetGame s)).
Proof.
  split; [|split; [|split]].
  - intros s r1 r2 Hstop. unfold Whack.moleTimeout. rewrite Hstop.
    reflexivity.
  - intros c ls text0 es s Hrun.
    pose proof (timers_snake_run _ es _ _ (timers_snake_initial c ls text0)
                  Hrun) as [_ Hheld].
    pose proof (timers_clear_held_one _ _ Hheld) as He.
    split; [exact He|]. intros id rs. simpl.
    rewrite (timers_fire_empty _ id He). reflexivity.
  - intros c ls text0 rs0 s0 es s Hinit Hrun.
    pose proof (timers_runner_run _ es _ _
                  (timers_runner_initial c ls text0 rs0 s0 Hinit) Hrun)
      as [_ Hheld].
    pose proof (timers_clear_held_one _ _ Hheld) as He.
    split; [exact He|]. intros id rs. simpl.
    rewrite (timers_fire_empty _ id He). reflexivity.
  - intros ls text0 text1 es s Hrun.
    pose proof (timers_whack_run _ es _ _
                  (timers_whack_initial ls text0 text1) Hrun) as [_ Hinv].
    pose proof (timers_clear_held_two _ _ _ (timers_whack_held s _ Hinv))
      as He.
    split; [exact He|]. intros id r1 r2. simpl.
    rewrite (timers_fire_empty _ id He). reflexivity.
Qed.
End WithRuntime.

(** Snake, started from page load and then reset: timer 1, the tick timer
    of the session, no longer fires. *)
Lemma reset_cancels_every_timer_witness :
  exists s : Snake.State,
    Snake.run (H := decimalRuntime) Snake.freshPage
      [Snake.ClickStart [1 # 2; 1 # 2]%Q] = Ok s /\
    Snake.gameRunning s = true /\
    Snake.gameLoop s = Some 1%nat /\
    Snake.step (H := decimalRuntime) (Snake.resetGame s) (Snake.Fire 1 [])
    = Ok (Snake.resetGame s).
Proof.
  eexists.
  lazymatch goal with
  | |- ?r = Ok ?s /\ _ =>
      assert (Hrun : r = Ok s) by (vm_compute; reflexivity)
  end.
  split; [exact Hrun|]. split; [reflexivity|]. split; [reflexivity|].
  destruct (reset_cancels_every_timer (H := decimalRuntime))
    as (_ & Hsnake & _).
  destruct (Hsnake _ _ _ _ _ Hrun) as [_ Hfire].
  apply Hfire.
Defined.

(** C1 (as stated) fails: the tick callbacks do not look at the running
    flag.  In Snake, a session started from page load and then reset: the
    stale [gameUpdate] moves the snake one cell on.  In the Endless Runner,
    a session reset after nine frames: the stale [gameUpdate] counts the
    tenth frame, takes the score from 0 to 1 and stores it as the new high
    score. *)
Lemma stale_tick_after_reset_mutates :
  (exists s0 s' : Snake.State,
     Snake.freshGame = Ok s0 /\
     Snake.gameRunning (Snake.resetGame s0) = false /\
     Snake.snake (Snake.resetGame s0)
     = [Snake.mkCell 10 10; Snake.mkCell 9 10; Snake.mkCell 8 10] /\
     Snake.gameUpdate (H := decimalRuntime) (Snake.resetGame s0) [] = Ok s' /\
     Snake.snake s'
     = [Snake.mkCell 11 10; Snake.mkCell 10 10; Snake.mkCell 9 10]) /\
  (exists s0 s1 s' : Runner.State,
     Runner.freshPage = Ok s0 /\
     Runner.run (H := decimalRuntime) s0
       (Runner.ClickStart :: replicate 9 (Runner.Fire 1 [])
          ++ [Runner.ClickReset]) = Ok s1 /\
     Runner.gameRunning s1 = false /\
     Runner.score s1 = 0 /\
     Runner.storage s1 !! Runner.storageKey = None /\
     Runner.gameUpdate (H := decimalRuntime) s1 [] = Ok s' /\
     Runner.score s' = 1 /\
     Runner.storage s' !! Runner.storageKey = Some "1").
Proof.
  split.
  - eexists. eexists. split; [vm_compute; reflexivity|].
    split; [reflexivity|]. split; [reflexivity|].
    split; [vm_compute; reflexivity|]. reflexivity.
  - eexists. eexists. eexists. split; [vm_compute; reflexivity|].
    split; [vm_compute; reflexivity|].
    split; [reflexivity|]. split; [reflexivity|].
    split; [vm_compute; reflexivity|].
    split; [vm_compute; reflexivity|].
    split; [reflexivity|]. vm_compute. reflexivity.
Qed.

End TimersProps.


(** ** Snake: what every reachable state keeps *)

Module SnakeInvariants.
Import Snake.

Lemma snake_sameCell_eq (a b : Cell) : sameCell a b = true <-> a = b.
Proof.
  unfold sameCell. rewrite andb_true_iff, !Z.eqb_eq.
  destruct a, b; simpl. split; [intros [-> ->]; reflexivity|].
  intros Heq; inversion Heq; auto.
Qed.

Lemma snake_onSnake_In (body : list Cell) (f : Cell) :
  onSnake body f = true <-> In f body.
Proof.
  unfold onSnake. rewrite existsb_exists. split.
  - intros (seg & Hin & Hs). apply snake_sameCell_eq in Hs. subst. exact Hin.
  - intros Hin. exists f. split; [exact Hin | apply snake_sameCell_eq; reflexivity].
Qed.

Lemma snake_moveHead_moves (d : Direction) (h : Cell) : moveHead d h <> h.
Proof.
  destruct d, h; simpl; intros Heq; inversion Heq; lia.
Qed.

(** The wall test, on integers: the moved head hits a wall exactly when it
    is off the board. *)
Lemma snake_wall_bound (w k : Z) :
  Qle_bool (inject_Z w / 10) (inject_Z k) = true <-> w <= 10 * k.
Proof.
  rewrite Qle_bool_iff. split.
  - intros Hle.
    apply (Qmult_le_r _ _ 10) in Hle; [|reflexivity].
    assert (He : (inject_Z w / 10 * 10 == inject_Z w)%Q) by field.
    rewrite He in Hle. change 10%Q with (inject_Z 10) in Hle.
    rewrite <- inject_Z_mult, <- Zle_Qle in Hle. lia.
  - intros Hle. apply Qle_shift_div_r; [reflexivity|].
    change 10%Q with (inject_Z 10). rewrite <- inject_Z_mult, <- Zle_Qle. lia.
Qed.

(** X1: [checkCollision]'s wall test is exact on the grid: the head hits a
    wall if and only if it is not a cell of the board, the cells [(x, y)]
    with [0 <= x], [10 x < width], [0 <= y], [10 y < height]. *)
Theorem snake_hitsWall_iff_off_board (c : Canvas) (h : Cell) :
  hitsWall c h = true <-> ~ onBoard c h.
Proof.
  unfold hitsWall, onBoard.
  rewrite !orb_true_iff, !Z.ltb_lt, !snake_wall_bound. lia.
Qed.


Lemma snake_hitsWall_false_onBoard (c : Canvas) (h : Cell) :
  hitsWall c h = false -> onBoard c h.
Proof.
  unfold hitsWall, onBoard. rewrite !orb_false_iff, !Z.ltb_ge.
  intros [[[Hx0 Hx1] Hy0] Hy1].
  apply not_true_iff_false in Hx1, Hy1.
  rewrite snake_wall_bound in Hx1, Hy1. lia.
Qed.

Lemma snake_removelast_In (body : list Cell) (p : Cell) :
  In p (removelast body) -> In p body.
Proof.
  induction body as [|a body IH]; simpl; [auto|].
  destruct body as [|b body]; [intros []|].
  intros [->|Hin]; [left; reflexivity | right; apply IH, Hin].
Qed.

Lemma snake_removelast_NoDup (body : list Cell) :
  NoDup body -> NoDup (removelast body).
Proof.
  induction body as [|a body IH]; simpl; [auto|].
  intros Hnd. apply NoDup_cons in Hnd as [Hna Hnd].
  destruct body as [|b body]; [constructor|].
  apply NoDup_cons. split; [|apply IH, Hnd].
  intros Hin. apply Hna. apply list_elem_of_In.
  apply snake_removelast_In. apply list_elem_of_In. exact Hin.
Qed.

Lemma snake_removelast_length (a : Cell) (body : list Cell) :
  length (removelast (a :: body)) = length body.
Proof.
  revert a. induction body as [|b body IH]; intros a; [reflexivity|].
  change (length (a :: removelast (b :: body)) = length (b :: body)).
  simpl. f_equal. apply IH.
Qed.

Lemma snake_createFood_off (c : Canvas) (body : list Cell) (rs : list Q)
    (f : Cell) :
  createFood c body rs = Ok f -> onSnake body f = false.
Proof.
  rewrite SnakeProps.snake_createFood_first_free.
  destruct (find _ _) as [f'|] eqn:Hfind; [|discriminate].
  intros Heq; inversion Heq; subst.
  apply find_some in Hfind as [_ Hoff]. apply negb_true_iff in Hoff.
  exact Hoff.
Qed.

Lemma snake_collision_free_head (c : Canvas) (h0 : Cell) (tl : list Cell)
    (d : Direction) :
  checkCollision c (h0 :: tl) (moveHead d h0) = false ->
  onBoard c (moveHead d h0) /\ ~ In (moveHead d h0) (h0 :: tl).
Proof.
  unfold checkCollision. rewrite orb_false_iff. intros [Hwall Hself].
  split; [apply snake_hitsWall_false_onBoard, Hwall|].
  simpl. intros [Heq|Hin].
  - symmetry in Heq. exact (snake_moveHead_moves d h0 Heq).
  - simpl in Hself. apply not_true_iff_false in Hself. apply Hself.
    apply existsb_exists. exists (moveHead d h0).
    split; [exact Hin | apply snake_sameCell_eq; reflexivity].
Qed.

Section WithRuntime.
Context `{Runtime}.

(** The three ways a tick can go: the moved head hits something and the
    game stops; it is on the food and the snake grows; or the snake moves
    on. *)
Lemma snake_gameUpdate_cases (s s' : State) (rs : list Q) :
  gameUpdate s rs = Ok s' ->
  canvas s' = canvas s /\
  exists (h0 : Cell) (tl : list Cell),
    snake s = h0 :: tl /\
    let hd := moveHead (newDirection s) h0 in
    (checkCollision (canvas s) (snake s) hd = true /\
     snake s' = snake s /\ food s' = food s /\ score s' = score s /\
     gameRunning s' = false)
    \/ (checkCollision (canvas s) (snake s) hd = false /\
        eats hd (food s) = true /\
        snake s' = hd :: snake s /\
        (exists f : Cell,
           food s' = Some f /\ onSnake (hd :: snake s) f = false) /\
        score s' = score s + 1 /\ gameRunning s' = gameRunning s)
    \/ (checkCollision (canvas s) (snake s) hd = false /\
        eats hd (food s) = false /\
        snake s' = removelast (hd :: snake s) /\
        food s' = food s /\ score s' = score s /\
        gameRunning s' = gameRunning s).
Proof.
  unfold gameUpdate.
  destruct (snake s) as [|h0 tl] eqn:Hs; [discriminate|].
  destruct (checkCollision _ _ _) eqn:Hc.
  - intros Heq; inversion Heq; subst; clear Heq. split; [reflexivity|].
    exists h0, tl. split; [reflexivity|]. left. simpl.
    repeat split; assumption.
  - destruct (eats _ _) eqn:He.
    + destruct (createFood _ _ _) as [f| |] eqn:Hf; simpl; try discriminate.
      intros Heq; inversion Heq; subst; clear Heq. split; [reflexivity|].
      exists h0, tl. split; [reflexivity|]. right. left. simpl.
      repeat split; try assumption.
      exists f. split; [reflexivity|].
      exact (snake_createFood_off _ _ _ _ Hf).
    + intros Heq; inversion Heq; subst; clear Heq. split; [reflexivity|].
      exists h0, tl. split; [reflexivity|]. right. right. simpl.
      repeat split; assumption.
Qed.

Lemma snake_step_sound (s s' : State) (e : Event) :
  Sound s -> step s e = Ok s' -> Sound s'.
Proof.
  intros [Hnd Hfood]. destruct e as [rs| |k|id rs]; simpl.
  - unfold startGame. destruct (gameRunning s).
    + intros Heq; inversion Heq; subst. split; assumption.
    + destruct (createFood _ _ _) as [f| |] eqn:Hf; simpl; try discriminate.
      intros Heq; inversion Heq; subst; clear Heq. split; cbn [food snake].
      * repeat (apply NoDup_cons; split;
                [rewrite list_elem_of_In; simpl; intros Hin;
                 repeat destruct Hin as [Hin|Hin]; try discriminate; exact Hin|]).
        apply NoDup_nil. exact I.
      * intros f' Hf'. inversion Hf'; subst.
        apply snake_createFood_off in Hf.
        intros Hin. apply snake_onSnake_In in Hin. congruence.
  - intros Heq; inversion Heq; subst. split; assumption.
  - intros Heq; inversion Heq; subst.
    rewrite SnakeProps.snake_changeDirection_accepts.
    destruct (accepts _ _); split; assumption.
  - destruct (fire id (timers s)) as [[[] ts]|].
    + intros Hup. apply snake_gameUpdate_cases in Hup as [_ Hup].
      simpl in Hup. destruct Hup as (h0 & tl & Hs & Hcases).
      destruct Hcases as [(_ & Hs' & Hf' & _)
                         |[(Hc & He & Hs' & (f & Hf' & Hoff) & _)
                          |(Hc & He & Hs' & Hf' & _)]].
      * split; [rewrite Hs'; exact Hnd | rewrite Hs', Hf'; exact Hfood].
      * rewrite Hs in *.
        apply snake_collision_free_head in Hc as [_ Hnew].
        split.
        -- rewrite Hs'. apply NoDup_cons. split; [|exact Hnd].
           rewrite list_elem_of_In. exact Hnew.
        -- intros f' Hf''. rewrite Hf' in Hf''. inversion Hf''; subst.
           rewrite Hs'. intros Hin. apply snake_onSnake_In in Hin.
           apply not_true_iff_false in Hoff. apply Hoff. exact Hin.
      * rewrite Hs in *.
        apply snake_collision_free_head in Hc as [_ Hnew].
        split.
        -- rewrite Hs'.
           change (NoDup (removelast
                            (moveHead (newDirection s) h0 :: h0 :: tl))).
           apply snake_removelast_NoDup.
           apply NoDup_cons. split; [|exact Hnd].
           rewrite list_elem_of_In. exact Hnew.
        -- intros f Hf. rewrite Hf' in Hf. rewrite Hs'.
           intros Hin.
           change (In f (removelast
                           (moveHead (newDirection s) h0 :: h0 :: tl))) in Hin.
           apply snake_removelast_In in Hin.
           destruct Hin as [Heq|Hin]; [|exact (Hfood f Hf Hin)].
           rewrite Hf in He. simpl in He.
           apply not_true_iff_false in He. apply He.
           apply snake_sameCell_eq. exact Heq.
    + intros Heq; inversion Heq; subst. split; assumption.
Qed.

Lemma snake_run_sound (es : list Event) (s s' : State) :
  Sound s -> run s es = Ok s' -> Sound s'.
Proof.
  revert s. induction es as [|e es IH]; intros s Hinv; simpl.
  - intros Heq; inversion Heq; subst. exact Hinv.
  - destruct (step s e) as [s1| |] eqn:Hstep; simpl; try discriminate.
    apply IH. eapply snake_step_sound; eassumption.
Qed.

(** X2: in every state Snake reaches from page load, whatever keys are
    pressed and whatever the draws, no two segments of the snake are on the
    same cell: a move onto the body ends the game instead of being made. *)
Theorem snake_segments_stay_distinct (c : Canvas) (ls : gmap string string)
    (text0 : string) (es : list Event) (s : State) :
  run (initial c ls text0) es = Ok s -> NoDup (snake s).
Proof.
  intros Hrun.
  apply (snake_run_sound es (initial c ls text0)); [|exact Hrun].
  split; [apply NoDup_nil; exact I | discriminate].
Qed.


Lemma snake_step_on_board (c : Canvas) (s s' : State) (e : Event) :
  holdsStart c ->
  canvas s = c /\ Forall (onBoard c) (snake s) ->
  step s e = Ok s' ->
  canvas s' = c /\ Forall (onBoard c) (snake s').
Proof.
  intros [Hw Hh] [Hc Hall]. destruct e as [rs| |k|id rs]; simpl.
  - unfold startGame. destruct (gameRunning s).
    + intros Heq; inversion Heq; subst. split; [reflexivity | exact Hall].
    + destruct (createFood _ _ _) as [f| |]; simpl; try discriminate.
      intros Heq; inversion Heq; subst; clear Heq. split; [reflexivity|].
      cbn [snake]. repeat (apply List.Forall_cons; [unfold onBoard; simpl; lia|]).
      apply List.Forall_nil.
  - intros Heq; inversion Heq; subst. split; [reflexivity | exact Hall].
  - intros Heq; inversion Heq; subst.
    rewrite SnakeProps.snake_changeDirection_accepts.
    destruct (accepts _ _); split; solve [reflexivity | exact Hall].
  - destruct (fire id (timers s)) as [[[] ts]|].
    + intros Hup. apply snake_gameUpdate_cases in Hup as [Hc' Hup].
      simpl in Hc', Hup. split; [congruence|].
      destruct Hup as (h0 & tl & Hs & Hcases).
      destruct Hcases as [(_ & Hs' & _)
                         |[(Hcol & _ & Hs' & _)|(Hcol & _ & Hs' & _)]].
      * rewrite Hs'. exact Hall.
      * rewrite Hs in Hcol. rewrite Hc in Hcol.
        apply snake_collision_free_head in Hcol as [Hon _].
        rewrite Hs'. apply List.Forall_cons; assumption.
      * rewrite Hs in Hcol. rewrite Hc in Hcol.
        apply snake_collision_free_head in Hcol as [Hon _].
        rewrite Hs', Hs. apply List.Forall_forall. intros p Hp.
        change (In p (removelast
                        (moveHead (newDirection s) h0 :: h0 :: tl))) in Hp.
        apply snake_removelast_In in Hp. destruct Hp as [<-|Hp]; [exact Hon|].
        rewrite Hs in Hall.
        rewrite List.Forall_forall in Hall. apply Hall, Hp.
    + intros Heq; inversion Heq; subst. split; [reflexivity | exact Hall].
Qed.

(** X4: on a canvas that holds the start cells (wider and higher than
    100), every segment of the snake is on the board in every state reached
    from page load: a move off the board ends the game instead of being
    made. *)
Theorem snake_stays_on_board (c : Canvas) (ls : gmap string string)
    (text0 : string) (es : list Event) (s : State) :
  holdsStart c ->
  run (initial c ls text0) es = Ok s ->
  Forall (onBoard c) (snake s).
Proof.
  intros Hc Hrun.
  assert (Hgen : forall s0,
            canvas s0 = c /\ Forall (onBoard c) (snake s0) ->
            run s0 es = Ok s ->
            canvas s = c /\ Forall (onBoard c) (snake s)).
  { clear Hrun. induction es as [|e es IH]; intros s0 Hinv; simpl.
    - intros Heq; inversion Heq; subst. exact Hinv.
    - destruct (step s0 e) as [s1| |] eqn:Hstep; simpl; try discriminate.
      apply IH. eapply snake_step_on_board; eassumption. }
  apply (Hgen (initial c ls text0)); [|exact Hrun].
  split; [reflexivity | apply List.Forall_nil].
Qed.

(** X5: at every point of a session (from Start until the next Start or
    Reset), the snake has three segments more than the score: it grows by
    exactly one segment per point scored and never shrinks. *)
Theorem snake_length_is_three_plus_score (s0 s1 s' : State)
    (es : list Event) :
  Gateway.started Gateway.snake s0 s1 ->
  Forall (fun e => Gateway.inSession Gateway.snake e = true) es ->
  Gateway.run Gateway.snake s1 es = Ok s' ->
  Z.of_nat (length (snake s')) = 3 + score s'.
Proof.
  intros (Hstop & rs0 & Hstart) Hes.
  assert (Hinv : Z.of_nat (length (snake s1)) = 3 + score s1).
  { unfold startGame in Hstart. rewrite Hstop in Hstart.
    destruct (createFood _ _ _) as [f| |]; simpl in Hstart; try discriminate.
    inversion Hstart; subst. reflexivity. }
  clear Hstop Hstart. revert s1 Hinv.
  induction Hes as [|e es He Hes IH]; intros s1 Hinv; simpl.
  - intros Heq; inversion Heq; subst. exact Hinv.
  - destruct (step s1 e) as [s2| |] eqn:Hstep; simpl; try discriminate.
    apply IH. clear IH.
    destruct e as [rs| |k|id rs]; simpl in He, Hstep; try discriminate.
    + inversion Hstep; subst.
      rewrite SnakeProps.snake_changeDirection_accepts.
      destruct (accepts _ _); exact Hinv.
    + destruct (fire id (timers s1)) as [[[] ts]|].
      * apply snake_gameUpdate_cases in Hstep as [_ Hup]. simpl in Hup.
        destruct Hup as (h0 & tl & Hs & Hcases).
        destruct Hcases as [(_ & Hs' & _ & Hsc & _)
                           |[(_ & _ & Hs' & _ & Hsc & _)
                            |(_ & _ & Hs' & _ & Hsc & _)]];
          rewrite Hs', Hsc.
        -- exact Hinv.
        -- simpl length. lia.
        -- rewrite Hs.
           change (Z.of_nat (length (removelast
                     (moveHead (newDirection s1) h0 :: h0 :: tl)))
                   = 3 + score s1).
           rewrite snake_removelast_length. rewrite <- Hs. exact Hinv.
      * inversion Hstep; subst. exact Hinv.
Qed.
End WithRuntime.

(** A session from page load: Start, a tick, "up", a tick. *)
Lemma snake_segments_stay_distinct_witness :
  exists s : State,
    run (H := decimalRuntime) freshPage
      [ClickStart [1 # 2; 1 # 2]%Q; Fire 1 []; KeyDown "ArrowUp"; Fire 1 []]
    = Ok s /\
    snake s = [mkCell 11 9; mkCell 11 10; mkCell 10 10] /\
    NoDup (snake s).
Proof.
  eexists.
  lazymatch goal with
  | |- ?r = Ok ?s /\ _ =>
      assert (Hrun : r = Ok s) by (vm_compute; reflexivity)
  end.
  split; [exact Hrun|]. split; [reflexivity|].
  exact (snake_segments_stay_distinct (H := decimalRuntime) _ _ _ _ _ Hrun).
Defined.


Lemma snake_stays_on_board_witness :
  exists s : State,
    holdsStart (mkCanvas 400 400) /\
    run (H := decimalRuntime) freshPage
      [ClickStart [1 # 2; 1 # 2]%Q; Fire 1 []; KeyDown "ArrowUp"; Fire 1 []]
    = Ok s /\
    Forall (onBoard (mkCanvas 400 400)) (snake s).
Proof.
  eexists.
  assert (Hc : holdsStart (mkCanvas 400 400)) by (unfold holdsStart; simpl; lia).
  split; [exact Hc|].
  lazymatch goal with
  | |- ?r = Ok ?s /\ _ =>
      assert (Hrun : r = Ok s) by (vm_compute; reflexivity)
  end.
  split; [exact Hrun|].
  exact (snake_stays_on_board (H := decimalRuntime) _ _ _ _ _ Hc Hrun).
Defined.

(** The session that eats on its first tick: four segments, score 1. *)
Lemma snake_length_is_three_plus_score_witness :
  exists s1 s' : State,
    aboutToEat = Ok s1 /\
    Gateway.run (Gateway.snake (H := decimalRuntime)) s1
      [Fire 1 [1 # 2; 1 # 2]%Q] = Ok s' /\
    score s' = 1 /\
    Z.of_nat (length (snake s')) = 3 + score s'.
Proof.
  eexists. eexists.
  lazymatch goal with
  | |- ?a = Ok ?s1 /\ ?r = Ok ?s' /\ _ =>
      assert (Hs1 : a = Ok s1) by (vm_compute; reflexivity);
      assert (Hrun : r = Ok s') by (vm_compute; reflexivity)
  end.
  split; [exact Hs1|]. split; [exact Hrun|]. split; [reflexivity|].
  refine (snake_length_is_three_plus_score (H := decimalRuntime)
            freshPage _ _ _ _ _ Hrun).
  - split; [reflexivity|]. eexists. exact Hs1.
  - repeat constructor.
Defined.

End SnakeInvariants.


(** ** Endless Runner: obstacles, player, counters and clouds *)

Module RunnerInvariants.
Import Runner.

(** [updateObstacles] shifts every obstacle left by the game speed and
    then drops the ones whose right edge has left the canvas; the others
    stay, in their order. *)
Lemma runner_updateObstacles_filter (v : Q) (obs : list Obstacle) :
  updateObstacles v obs
  = List.filter (fun o => negb (gone o)) (List.map (shifted v) obs).
Proof.
  induction obs as [|o obs IH]; simpl; [reflexivity|].
  unfold gone at 1. unfold shifted at 1 2. simpl.
  destruct (Qlt_bool _ _); simpl; rewrite IH; reflexivity.
Qed.

(** The index loop, started at index [i] of an array whose first [i]
    entries are done: it leaves them, and treats the rest as
    [updateObstacles] does.  After a splice the index stays where it is,
    on the obstacle that moved into the gap. *)
Lemma runner_updateObstaclesLoop_from (fuel : nat) (v : Q)
    (done rest : list Obstacle) :
  (length rest < fuel)%nat ->
  updateObstaclesLoop fuel v (Z.of_nat (length done)) (done ++ rest)
  = Some (Ok (done ++ updateObstacles v rest)).
Proof.
  revert done rest. induction fuel as [|fuel IH]; intros done rest Hfuel;
    [lia|].
  cbn [updateObstaclesLoop]. rewrite length_app.
  destruct rest as [|o rest].
  - cbn [length]. rewrite Nat.add_0_r.
    rewrite Z.ltb_irrefl. reflexivity.
  - cbn [length] in *.
    destruct (Z.of_nat (length done) <? Z.of_nat (length done + S (length rest)))
      eqn:Hlt; [|apply Z.ltb_ge in Hlt; lia].
    destruct (Z.of_nat (length done) <? 0) eqn:Hneg;
      [apply Z.ltb_lt in Hneg; lia|].
    rewrite Nat2Z.id.
    rewrite (list_lookup_middle done rest o (length done) eq_refl).
    cbn [updateObstacles].
    set (o' := {| ox := (ox o - v)%Q; oy := oy o; owidth := owidth o;
                  oheight := oheight o |}).
    assert (Hins : <[length done := o']> (done ++ o :: rest)
                   = done ++ o' :: rest).
    { rewrite insert_app_r_alt by lia.
      rewrite Nat.sub_diag. reflexivity. }
    rewrite Hins.
    destruct (Qlt_bool (ox o' + owidth o') 0) eqn:Hgone.
    + assert (Hdel : delete (length done) (done ++ o' :: rest) = done ++ rest).
      { rewrite delete_middle. reflexivity. }
      rewrite Hdel.
      replace (Z.of_nat (length done) - 1 + 1) with (Z.of_nat (length done))
        by lia.
      apply IH. lia.
    + replace (Z.of_nat (length done) + 1)
        with (Z.of_nat (length (done ++ [o']))).
      2:{ rewrite length_app. cbn [length]. lia. }
      replace (done ++ o' :: rest) with ((done ++ [o']) ++ rest)
        by (rewrite <- app_assoc; reflexivity).
      rewrite IH by lia. rewrite <- app_assoc. reflexivity.
Qed.

(** X7: the splice-and-step-back loop of [updateObstacles], run from index
    0 with one round of fuel per obstacle and one to leave, skips no
    obstacle and reads none past the array: it returns, with every
    obstacle shifted left by the game speed and the ones whose right edge
    has left the canvas dropped, the others in their order; that is the
    array [updateObstacles] computes by recursion on the list. *)
Theorem runner_updateObstacles_loop_skips_none (fuel : nat) (v : Q)
    (obs : list Obstacle) :
  (length obs < fuel)%nat ->
  updateObstaclesLoop fuel v 0 obs
  = Some (Ok (List.filter (fun o => negb (gone o))
                (List.map (shifted v) obs))) /\
  updateObstaclesLoop fuel v 0 obs = Some (Ok (updateObstacles v obs)).
Proof.
  intros Hfuel.
  pose proof (runner_updateObstaclesLoop_from fuel v [] obs Hfuel) as Hloop.
  change (updateObstaclesLoop fuel v 0 obs
          = Some (Ok (updateObstacles v obs))) in Hloop.
  split; [|exact Hloop].
  rewrite Hloop, runner_updateObstacles_filter. reflexivity.
Qed.

(** Two obstacles leave the canvas in the same frame, one after the other
    in the array: the loop drops both and keeps the third. *)
Lemma runner_updateObstacles_loop_skips_none_witness :
  (length [mkObstacle (-18) 300 20 50; mkObstacle (-16) 310 20 40;
           mkObstacle 200 320 20 30] < 4)%nat /\
  updateObstaclesLoop 4 5 0
    [mkObstacle (-18) 300 20 50; mkObstacle (-16) 310 20 40;
     mkObstacle 200 320 20 30]
  = Some (Ok [mkObstacle 195 320 20 30]).
Proof.
  assert (Hlen : (length [mkObstacle (-18) 300 20 50;
                          mkObstacle (-16) 310 20 40;
                          mkObstacle 200 320 20 30] < 4)%nat)
    by (simpl; lia).
  split; [exact Hlen|].
  destruct (runner_updateObstacles_loop_skips_none 4 5 _ Hlen) as [_ Hloop].
  rewrite Hloop. vm_compute. reflexivity.
Defined.

(** X8: for a draw in [0, 1), the obstacle [createObstacle] makes is 20
    wide and a whole number of pixels from 20 to 49 high, starts at the
    right edge of the canvas and stands on the ground (its top plus its
    height is the ground level). *)
Theorem runner_createObstacle_stands_on_ground (c : Canvas) (g r : Q) :
  unitInterval r ->
  let o := createObstacle c g r in
  ox o = inject_Z (width c) /\
  owidth o = 20%Q /\
  (exists h : Z, 20 <= h < 50 /\ oheight o = inject_Z h) /\
  (oy o + oheight o == g)%Q.
Proof.
  intros Hr o. unfold o, createObstacle. simpl.
  split; [reflexivity|]. split; [reflexivity|]. split.
  - exists (floorMul r 30 + 20). split; [|reflexivity].
    pose proof (JsProps.js_floorMul_range r 30 ltac:(lia) Hr) as Hrange.
    change (inject_Z 30) with 30%Q in Hrange. lia.
  - ring.
Qed.

Lemma runner_createObstacle_stands_on_ground_witness :
  unitInterval (1 # 2) /\
  oheight (createObstacle (mkCanvas 800 400) 350 (1 # 2)) = 35%Q /\
  (oy (createObstacle (mkCanvas 800 400) 350 (1 # 2))
   + oheight (createObstacle (mkCanvas 800 400) 350 (1 # 2)) == 350)%Q.
Proof.
  assert (Hu : unitInterval (1 # 2))
    by (apply JsProps.js_unitInterval_dec; vm_compute; reflexivity).
  split; [exact Hu|]. split; [reflexivity|].
  apply (runner_createObstacle_stands_on_ground (mkCanvas 800 400) 350 (1 # 2) Hu).
Defined.


(** *** Clouds *)

(** One round of the loop of [updateClouds]. *)
Lemma runner_updateClouds_eq (c : Canvas) (rs : list Q) (todo : list Cloud) :
  updateClouds c rs todo =
  match todo with
  | [] => Ok ([], rs)
  | cl :: rest =>
      if Qlt_bool (round53 (cx (moveCloud cl) + cwidth (moveCloud cl))) 0%Q
      then
        match rs with
        | ry :: rw :: rsp :: rs' =>
            updateClouds c rs' (rest ++ [newCloud c ry rw rsp])
        | _ => Starved
        end
      else
        '(done, rs') ← updateClouds c rs rest;
        Ok (moveCloud cl :: done, rs')
  end.
Proof.
  destruct rs as [|ry [|rw [|rsp rs']]]; destruct todo as [|cl rest];
    reflexivity.
Qed.

Lemma runner_updateClouds_length (c : Canvas) (rs rs' : list Q)
    (todo cls : list Cloud) :
  updateClouds c rs todo = Ok (cls, rs') ->
  length cls = length todo /\ (length rs' <= length rs)%nat.
Proof.
  remember (length rs) as n eqn:Hn.
  assert (Hle : (length rs <= n)%nat) by lia. clear Hn.
  revert rs rs' todo cls Hle.
  induction n as [n IHn] using lt_wf_ind.
  intros rs rs' todo. revert rs rs'.
  induction todo as [|cl rest IHtodo]; intros rs rs' cls Hle;
    rewrite runner_updateClouds_eq.
  - intros Heq; inversion Heq; subst. split; [reflexivity | lia].
  - destruct (Qlt_bool _ _).
    + destruct rs as [|ry [|rw [|rsp rs1]]]; try discriminate.
      intros Hrec. simpl in Hle.
      apply (IHn (length rs1)) in Hrec; [|lia|lia].
      destruct Hrec as [Hlen Hrs]. rewrite length_app in Hlen. simpl in *.
      split; lia.
    + destruct (updateClouds c rs rest) as [[done rs1]| |] eqn:Hrest;
        simpl; try discriminate.
      intros Heq; inversion Heq; subst.
      apply IHtodo in Hrest as [Hlen Hrs]; [|exact Hle].
      simpl. split; [lia | exact Hrs].
Qed.

Lemma runner_initialClouds_enough (c : Canvas) (n : nat) (rs : list Q) :
  (4 * n <= length rs)%nat ->
  exists cls : list Cloud,
    initialClouds n c rs = Ok (cls, drop (4 * n) rs) /\ length cls = n.
Proof.
  revert rs. induction n as [|n IH]; intros rs Hlen.
  - exists []. split; reflexivity.
  - replace (4 * S n)%nat with (S (S (S (S (4 * n))))) in * by lia.
    destruct rs as [|ry [|rw [|rx [|rsp rs1]]]]; cbn [length] in Hlen;
      try lia.
    destruct (IH rs1 ltac:(lia)) as (cls & Hrec & Hcls).
    cbn [initialClouds createCloud drop]. cbn [mbind Js.result_bind].
    rewrite Hrec. cbn [mbind Js.result_bind].
    eexists. split; [reflexivity|]. cbn [length]. rewrite Hcls. reflexivity.
Qed.

Lemma runner_initialClouds_short (c : Canvas) (n : nat) (rs : list Q) :
  (length rs < 4 * n)%nat -> initialClouds n c rs = Starved.
Proof.
  revert rs. induction n as [|n IH]; intros rs Hlen; [simpl in Hlen; lia|].
  replace (4 * S n)%nat with (S (S (S (S (4 * n))))) in * by lia.
  destruct rs as [|ry [|rw [|rx [|rsp rs1]]]]; try reflexivity.
  cbn [length] in Hlen.
  cbn [initialClouds createCloud]. cbn [mbind Js.result_bind].
  rewrite IH by lia. reflexivity.
Qed.

(** X9: loading the page takes exactly twenty draws for its five clouds:
    with at least twenty [initial] returns a state with five clouds, with
    fewer it does not return. *)
Theorem runner_initial_needs_twenty_draws (c : Canvas)
    (ls : gmap string string) (text0 : string) (rs : list Q) :
  ((20 <= length rs)%nat ->
   exists s0 : State,
     initial c ls text0 rs = Ok s0 /\ length (clouds s0) = 5%nat) /\
  ((length rs < 20)%nat -> initial c ls text0 rs = Starved).
Proof.
  split; intros Hlen; unfold initial.
  - destruct (runner_initialClouds_enough c 5 rs Hlen) as (cls & Hc & Hn).
    rewrite Hc. simpl. eexists. split; [reflexivity | exact Hn].
  - rewrite runner_initialClouds_short by exact Hlen. reflexivity.
Qed.

Lemma runner_initial_needs_twenty_draws_witness :
  (20 <= length (replicate 20 (1 # 2)%Q))%nat /\
  (exists s0 : State, freshPage = Ok s0 /\ length (clouds s0) = 5%nat) /\
  initial (mkCanvas 800 400) ∅ "0" (replicate 19 (1 # 2)%Q) = Starved.
Proof.
  assert (Hlen : (20 <= length (replicate 20 (1 # 2)%Q))%nat)
    by (rewrite length_replicate; lia).
  split; [exact Hlen|].
  split.
  - apply (proj1 (runner_initial_needs_twenty_draws (mkCanvas 800 400) ∅ "0"
                    (replicate 20 (1 # 2)%Q)) Hlen).
  - apply (proj2 (runner_initial_needs_twenty_draws (mkCanvas 800 400) ∅ "0"
                    (replicate 19 (1 # 2)%Q))).
    rewrite length_replicate. lia.
Defined.


(** *** What every reachable state keeps *)

Lemma runner_frame_div (k fc : Z) :
  0 < k -> 0 <= fc ->
  (fc + 1) / k = if divides k (fc + 1) then fc / k + 1 else fc / k.
Proof.
  intros Hk Hfc. unfold divides.
  destruct (k =? 0) eqn:Hk0; [apply Z.eqb_eq in Hk0; lia|].
  rewrite Z.rem_mod_nonneg by lia.
  pose proof (Z.div_mod fc k ltac:(lia)) as Hd.
  pose proof (Z.mod_pos_bound fc k Hk) as Hb.
  pose proof (Z.div_mod (fc + 1) k ltac:(lia)) as Hd1.
  pose proof (Z.mod_pos_bound (fc + 1) k Hk) as Hb1.
  destruct ((fc + 1) mod k =? 0) eqn:Hm;
    [apply Z.eqb_eq in Hm | apply Z.eqb_neq in Hm]; nia.
Qed.

Section WithRuntime.
Context `{Runtime}.

(** What a frame does to the fields the invariants read. *)
Lemma runner_gameUpdate_fields (s s' : State) (rs : list Q) :
  gameUpdate s rs = Ok s' ->
  (exists rs1 : list Q,
     updateClouds (canvas s) rs (clouds s) = Ok (clouds s', rs1)) /\
  player s' = updatePlayer (ground s) (player s) /\
  ground s' = ground s /\
  frameCount s' = frameCount s + 1 /\
  score s' = (if divides 10 (frameCount s + 1) then score s + 1 else score s) /\
  gameSpeed s' = (if divides 500 (frameCount s + 1)
                  then (gameSpeed s + (1 # 2))%Q else gameSpeed s) /\
  (gameRunning s' = true -> gameRunning s = true).
Proof.
  unfold gameUpdate.
  destruct (updateClouds _ _ _) as [[cls rs1]| |]; simpl; try discriminate.
  match goal with
  | |- context [mbind _ ?o] => destruct o as [obs'| |]
  end; simpl; try discriminate.
  intros Heq; inversion Heq; subst; clear Heq.
  unfold checkCollisions.
  destruct (existsb _ _); simpl;
    (split; [exists rs1; reflexivity|]); repeat split; try discriminate; auto.
Qed.

Lemma runner_updatePlayer_grounded (g : Q) (p : Player) :
  (py p <= g - pheight p)%Q ->
  (jumping p = false -> (py p == g - pheight p)%Q) ->
  let p' := updatePlayer g p in
  pheight p' = pheight p /\
  (py p' <= g - pheight p')%Q /\
  (jumping p' = false -> (py p' == g - pheight p')%Q).
Proof.
  intros Hle Hon. unfold updatePlayer.
  destruct (jumping p) eqn:Hj; [|simpl; rewrite Hj; auto].
  destruct (Qle_bool _ _) eqn:Hy; simpl.
  - split; [reflexivity|]. split; [apply Qle_refl | intros _; reflexivity].
  - split; [reflexivity|]. split; [|discriminate].
    apply Qlt_le_weak, Qnot_le_lt. intros Hge.
    apply Qle_bool_iff in Hge. congruence.
Qed.

Lemma runner_step_grounded (s s' : State) (e : Event) :
  Grounded s -> step s e = Ok s' -> Grounded s'.
Proof.
  intros [Hle Hon]. destruct e as [| |code|id rs]; simpl.
  - intros Heq; inversion Heq; subst; clear Heq. unfold startGame.
    destruct (gameRunning s); [split; assumption|].
    destruct (setInterval _ _ _) as [id ts]. unfold Grounded. simpl.
    split; [apply Qle_refl | intros _; reflexivity].
  - intros Heq; inversion Heq; subst. split; assumption.
  - intros Heq; inversion Heq; subst; clear Heq. unfold keyDown.
    destruct (_ && _); [|split; assumption].
    unfold Grounded, jump. simpl.
    destruct (jumping (player s)) eqn:Hj; simpl.
    + rewrite Hj. split; assumption.
    + split; [exact Hle | discriminate].
  - destruct (fire id (timers s)) as [[[] ts]|].
    + intros Hup.
      apply runner_gameUpdate_fields in Hup
        as (_ & Hp & Hg & _). simpl in Hp, Hg.
      destruct (runner_updatePlayer_grounded _ _ Hle Hon) as (Hh & Hle' & Hon').
      unfold Grounded. rewrite Hp, Hg. split; assumption.
    + intros Heq; inversion Heq; subst. split; assumption.
Qed.

Lemma runner_step_counted (s s' : State) (e : Event) :
  Counted s -> step s e = Ok s' -> Counted s'.
Proof.
  intros Hinv. pose proof Hinv as (Hfc & Hv & Hsc).
  destruct e as [| |code|id rs]; simpl.
  - intros Heq; inversion Heq; subst; clear Heq. unfold startGame.
    destruct (gameRunning s) eqn:Hr in |- *; [exact Hinv|].
    destruct (setInterval _ _ _) as [id ts]. unfold Counted. simpl.
    split; [lia|]. split; [reflexivity | intros _; reflexivity].
  - intros Heq; inversion Heq; subst; clear Heq. unfold Counted. simpl.
    split; [exact Hfc|]. split; [exact Hv | discriminate].
  - intros Heq; inversion Heq; subst; clear Heq. unfold keyDown.
    destruct (_ && _); exact Hinv.
  - destruct (fire id (timers s)) as [[[] ts]|].
    + intros Hup.
      apply runner_gameUpdate_fields in Hup
        as (_ & _ & _ & Hfc' & Hsc' & Hv' & Hrun'). simpl in *.
      unfold Counted. rewrite Hfc', Hsc', Hv'.
      rewrite !runner_frame_div by lia.
      split; [lia|]. split.
      * destruct (divides 500 _); rewrite Hv; [|reflexivity].
        rewrite inject_Z_plus. ring.
      * intros Hr. rewrite (Hsc (Hrun' Hr)).
        destruct (divides 10 _); reflexivity.
    + intros Heq; inversion Heq; subst. exact Hinv.
Qed.

Lemma runner_step_clouds (s s' : State) (e : Event) :
  step s e = Ok s' -> length (clouds s') = length (clouds s).
Proof.
  destruct e as [| |code|id rs]; simpl.
  - intros Heq; inversion Heq; subst; clear Heq. unfold startGame.
    destruct (gameRunning s); [reflexivity|].
    destruct (setInterval _ _ _) as [id ts]. reflexivity.
  - intros Heq; inversion Heq; subst. reflexivity.
  - intros Heq; inversion Heq; subst; clear Heq. unfold keyDown.
    destruct (_ && _); reflexivity.
  - destruct (fire id (timers s)) as [[[] ts]|].
    + intros Hup.
      apply runner_gameUpdate_fields in Hup as ((rs1 & Hcl) & _).
      simpl in Hcl. apply runner_updateClouds_length in Hcl as [Hlen _].
      exact Hlen.
    + intros Heq; inversion Heq; subst. reflexivity.
Qed.

Lemma runner_run_kept (P : State -> Prop) :
  (forall s s' e, P s -> step s e = Ok s' -> P s') ->
  forall es s s', P s -> run s es = Ok s' -> P s'.
Proof.
  intros Hstep es. induction es as [|e es IH]; intros s s' Hs; simpl.
  - intros Heq; inversion Heq; subst. exact Hs.
  - destruct (step s e) as [s1| |] eqn:Hs1; simpl; try discriminate.
    apply IH. eapply Hstep; eassumption.
Qed.

(** X10: in every state Endless Runner reaches from page load, the player
    is never below the ground: its feet are at or above ground level, and
    exactly at ground level whenever the jumping flag is clear. *)
Theorem runner_player_never_below_ground (c : Canvas)
    (ls : gmap string string) (text0 : string) (rs : list Q)
    (es : list Event) (s0 s : State) :
  initial c ls text0 rs = Ok s0 ->
  run s0 es = Ok s ->
  Grounded s.
Proof.
  intros Hinit. apply (runner_run_kept Grounded runner_step_grounded).
  unfold initial in Hinit.
  destruct (initialClouds 5 c rs) as [[cls rs']| |]; simpl in Hinit;
    try discriminate.
  inversion Hinit; subst. unfold Grounded. simpl.
  split; [apply Qle_refl | intros _; reflexivity].
Qed.

(** X11: in every state Endless Runner reaches from page load, the speed is
    5 plus one half per 500 frames counted, and while the game runs the
    score is the number of frames counted divided by 10, rounded down. *)
Theorem runner_counters_follow_frames (c : Canvas)
    (ls : gmap string string) (text0 : string) (rs : list Q)
    (es : list Event) (s0 s : State) :
  initial c ls text0 rs = Ok s0 ->
  run s0 es = Ok s ->
  Counted s.
Proof.
  intros Hinit. apply (runner_run_kept Counted runner_step_counted).
  unfold initial in Hinit.
  destruct (initialClouds 5 c rs) as [[cls rs']| |]; simpl in Hinit;
    try discriminate.
  inversion Hinit; subst. unfold Counted. simpl.
  split; [lia|]. split; [reflexivity | discriminate].
Qed.

(** X12: there are five clouds in every state Endless Runner reaches from
    page load: a frame replaces each cloud that left the canvas by exactly
    one new cloud. *)
Theorem runner_always_five_clouds (c : Canvas)
    (ls : gmap string string) (text0 : string) (rs : list Q)
    (es : list Event) (s0 s : State) :
  initial c ls text0 rs = Ok s0 ->
  run s0 es = Ok s ->
  length (clouds s) = 5%nat.
Proof.
  intros Hinit.
  apply (runner_run_kept (fun s => length (clouds s) = 5%nat)).
  - intros s1 s2 e Hs1 Hstep. rewrite <- Hs1.
    exact (runner_step_clouds _ _ _ Hstep).
  - unfold initial in Hinit.
    destruct (initialClouds 5 c rs) as [[cls rs']| |] eqn:Hcl;
      simpl in Hinit; try discriminate.
    inversion Hinit; subst. simpl.
    destruct (le_lt_dec 20 (length rs)) as [Hlen|Hlen].
    + destruct (runner_initialClouds_enough c 5 rs Hlen) as (cls' & Hc & Hn).
      rewrite Hc in Hcl. inversion Hcl; subst. exact Hn.
    + rewrite runner_initialClouds_short in Hcl by exact Hlen. discriminate.
Qed.
End WithRuntime.

(** Twelve frames after Start and a jump: the player is in the air. *)
Lemma runner_player_never_below_ground_witness :
  exists s0 s : State,
    freshPage = Ok s0 /\
    run (H := decimalRuntime) s0 (frames 12) = Ok s /\
    jumping (player s) = true /\
    Grounded s.
Proof.
  do 2 eexists.
  lazymatch goal with
  | |- ?r0 = Ok ?s0 /\ _ =>
      assert (H0 : r0 = Ok s0) by (vm_compute; reflexivity)
  end.
  split; [exact H0|].
  lazymatch goal with
  | |- ?r = Ok ?s /\ _ =>
      assert (Hrun : r = Ok s) by (vm_compute; reflexivity)
  end.
  split; [exact Hrun|]. split; [reflexivity|].
  exact (runner_player_never_below_ground (H := decimalRuntime)
           _ _ _ _ _ _ _ H0 Hrun).
Defined.

(** Twenty-five frames after Start: the score is 2. *)
Lemma runner_counters_follow_frames_witness :
  exists s0 s : State,
    freshPage = Ok s0 /\
    run (H := decimalRuntime) s0 (frames 25) = Ok s /\
    (gameRunning s = true /\ frameCount s = 25 /\ score s = 2) /\
    Counted s.
Proof.
  do 2 eexists.
  lazymatch goal with
  | |- ?r0 = Ok ?s0 /\ _ =>
      assert (H0 : r0 = Ok s0) by (vm_compute; reflexivity)
  end.
  split; [exact H0|].
  lazymatch goal with
  | |- ?r = Ok ?s /\ _ =>
      assert (Hrun : r = Ok s) by (vm_compute; reflexivity)
  end.
  split; [exact Hrun|]. split; [repeat split; reflexivity|].
  exact (runner_counters_follow_frames (H := decimalRuntime)
           _ _ _ _ _ _ _ H0 Hrun).
Defined.

Lemma runner_always_five_clouds_witness :
  exists s0 s : State,
    freshPage = Ok s0 /\
    run (H := decimalRuntime) s0 (frames 12) = Ok s /\
    length (clouds s) = 5%nat.
Proof.
  do 2 eexists.
  lazymatch goal with
  | |- ?r0 = Ok ?s0 /\ _ =>
      assert (H0 : r0 = Ok s0) by (vm_compute; reflexivity)
  end.
  split; [exact H0|].
  lazymatch goal with
  | |- ?r = Ok ?s /\ _ =>
      assert (Hrun : r = Ok s) by (vm_compute; reflexivity)
  end.
  split; [exact Hrun|].
  exact (runner_always_five_clouds (H := decimalRuntime)
           _ _ _ _ _ _ _ H0 Hrun).
Defined.

End RunnerInvariants.

(** ** Whack-a-Mole: moles, clock and draws *)

Module WhackInvariants.
Import Whack.

Lemma whack_hideAll_lookup (ms : list Mole) (i : nat) (m : Mole) :
  hideAll ms !! i = Some m -> m = hidden.
Proof.
  rewrite WhackProps.whack_hideAll_replicate. intros Hm.
  apply lookup_replicate in Hm as [-> _]. reflexivity.
Qed.

Lemma whack_showRandomMole_moles (s s' : State) (r1 r2 : Q) :
  showRandomMole s r1 r2 = Ok s' ->
  exists (k : nat) (m : Mole),
    moles s' = <[k := m]> (hideAll (moles s)) /\
    timeLeft s' = timeLeft s /\ gameRunning s' = gameRunning s.
Proof.
  unfold showRandomMole.
  match goal with
  | |- context [nth_mole ?a ?b] => destruct (nth_mole a b) as [m|]
  end; [|discriminate].
  intros Heq; inversion Heq; subst; clear Heq. simpl.
  eexists _, _. repeat split.
Qed.

Lemma whack_showRandomMole_oneUp (s s' : State) (r1 r2 : Q) :
  showRandomMole s r1 r2 = Ok s' -> OneUp s'.
Proof.
  intros Hshow.
  apply whack_showRandomMole_moles in Hshow as (k & m & Hms & _).
  intros i j mi mj Hi Hj Hni Hnj. rewrite Hms in Hi, Hj.
  apply list_lookup_insert_Some in Hi as [(-> & _ & _)|[_ Hi]];
    [|apply whack_hideAll_lookup in Hi; contradiction].
  apply list_lookup_insert_Some in Hj as [(-> & _ & _)|[_ Hj]];
    [reflexivity | apply whack_hideAll_lookup in Hj; contradiction].
Qed.

Lemma whack_showRandomMole_total (s : State) (r1 r2 : Q) :
  unitInterval r1 -> (0 < length (moles s))%nat ->
  exists s' : State, showRandomMole s r1 r2 = Ok s'.
Proof.
  intros Hr Hlen. unfold showRandomMole, randomIndex, nth_mole.
  rewrite WhackProps.whack_hideAll_replicate, length_replicate.
  pose proof (JsProps.js_floorMul_range r1 (Z.of_nat (length (moles s)))
                ltac:(lia) Hr) as Hidx.
  set (i := floorMul r1 (inject_Z (Z.of_nat (length (moles s))))) in *.
  destruct (i <? 0) eqn:Hneg; [apply Z.ltb_lt in Hneg; lia|].
  rewrite lookup_replicate_2 by lia.
  destruct (setTimeout _ _ _) as [id ts]. eexists. reflexivity.
Qed.

Section WithRuntime.
Context `{Runtime}.

(** X14: a click scores at most once per mole shown: after a click on
    mole [i], whether it scored or not, a second click on it changes
    nothing. *)
Theorem whack_second_click_changes_nothing (i : nat) (s : State) :
  clickMole i (clickMole i s) = clickMole i s.
Proof.
  assert (Hcases : clickMole i s = s \/
                   (exists m, moles s !! i = Some m /\
                              clickMole i s = whackMole i s)).
  { unfold clickMole. destruct (moles s !! i) as [m|]; [|left; reflexivity].
    destruct (_ && _); [right; exists m; auto | left; reflexivity]. }
  destruct Hcases as [Hs | (m & Hm & Hs)]; rewrite Hs; [exact Hs|].
  unfold clickMole. unfold whackMole at 1. cbn [moles gameRunning].
  rewrite list_lookup_insert_eq by (eapply lookup_lt_Some; exact Hm).
  cbn [active whacked]. rewrite andb_false_r. reflexivity.
Qed.

Lemma whack_step_oneUp (s s' : State) (e : Event) :
  OneUp s -> step s e = Ok s' -> OneUp s'.
Proof.
  intros Hinv. destruct e as [r1 r2| |i|id r1 r2]; simpl.
  - unfold startGame. destruct (gameRunning s).
    + intros Heq; inversion Heq; subst. exact Hinv.
    + apply whack_showRandomMole_oneUp.
  - intros Heq; inversion Heq; subst; clear Heq.
    intros i j mi mj Hi _ Hni _. simpl in Hi.
    apply whack_hideAll_lookup in Hi. contradiction.
  - intros Heq; inversion Heq; subst; clear Heq. unfold clickMole.
    destruct (moles s !! i) as [m|] eqn:Hm; [|exact Hinv].
    destruct (gameRunning s && active m && negb (whacked m)) eqn:Hc;
      [|exact Hinv].
    assert (Hup : m <> hidden).
    { intros ->. simpl in Hc. rewrite andb_false_r in Hc. discriminate. }
    assert (Hold : forall k mk x,
              <[i := x]> (moles s) !! k = Some mk -> mk <> hidden -> k = i).
    { intros k mk x Hk Hnk.
      apply list_lookup_insert_Some in Hk as [(-> & _ & _)|[_ Hk]];
        [reflexivity|].
      exact (Hinv k i mk m Hk Hm Hnk Hup). }
    intros a b ma mb Ha Hb Hna Hnb. simpl in Ha, Hb.
    rewrite (Hold a ma _ Ha Hna), (Hold b mb _ Hb Hnb). reflexivity.
  - destruct (fire id (timers s)) as [[[] ts]|].
    + intros Heq; inversion Heq; subst; clear Heq. unfold countdown.
      destruct (_ <=? 0); exact Hinv.
    + unfold moleTimeout. simpl. destruct (gameRunning s).
      * apply whack_showRandomMole_oneUp.
      * intros Heq; inversion Heq; subst. exact Hinv.
    + intros Heq; inversion Heq; subst. exact Hinv.
Qed.

(** X13: in every state Whack-a-Mole reaches from page load at most one
    mole is out of its hole, active or whacked: showing a mole hides all
    the others first, and a whack only changes the mole that is up. *)
Theorem whack_at_most_one_mole_up (ls : gmap string string)
    (text0 text1 : string) (es : list Event) (s : State) :
  run (initial ls text0 text1) es = Ok s -> OneUp s.
Proof.
  assert (Hgen : forall s0, OneUp s0 -> run s0 es = Ok s -> OneUp s).
  { induction es as [|e es IH]; intros s0 Hinv; simpl.
    - intros Heq; inversion Heq; subst. exact Hinv.
    - destruct (step s0 e) as [s1| |] eqn:Hstep; simpl; try discriminate.
      apply IH. eapply whack_step_oneUp; eassumption. }
  apply Hgen. intros i j mi mj Hi _ Hni _. simpl in Hi.
  apply lookup_replicate in Hi as [-> _]. contradiction.
Qed.

Lemma whack_step_timed (s s' : State) (e : Event) :
  Quiet s -> Timed s -> step s e = Ok s' -> Timed s'.
Proof.
  intros [Hstop _] Hinv. pose proof Hinv as [Ht Hrun].
  destruct e as [r1 r2| |i|id r1 r2]; simpl.
  - unfold startGame. destruct (gameRunning s) in |- *.
    + intros Heq; inversion Heq; subst. exact Hinv.
    + destruct (setInterval _ _ _) as [id ts].
      intros Hshow.
      apply whack_showRandomMole_moles in Hshow as (_ & _ & _ & Htl & _).
      simpl in Htl. unfold Timed. rewrite Htl. split; [lia | intros _; lia].
  - intros Heq; inversion Heq; subst; clear Heq. unfold Timed. simpl.
    split; [lia | discriminate].
  - intros Heq; inversion Heq; subst; clear Heq. unfold clickMole.
    destruct (moles s !! i) as [m|]; [|exact Hinv].
    destruct (_ && _); exact Hinv.
  - destruct (fire id (timers s)) as [[cb ts]|] eqn:Hfire.
    + assert (Hr : gameRunning s = true).
      { destruct (gameRunning s) eqn:Hr; [reflexivity|].
        unfold fire in Hfire. rewrite (Hstop eq_refl), lookup_empty in Hfire.
        discriminate. }
      specialize (Hrun Hr). destruct cb.
      * intros Heq; inversion Heq; subst; clear Heq.
        unfold countdown. simpl.
        destruct (timeLeft s - 1 <=? 0) eqn:Hz;
          [apply Z.leb_le in Hz | apply Z.leb_gt in Hz];
          unfold Timed; simpl.
        -- split; [lia | discriminate].
        -- split; [lia | intros _; lia].
      * unfold moleTimeout. simpl. rewrite Hr. intros Hshow.
        apply whack_showRandomMole_moles in Hshow as (_ & _ & _ & Htl & Hr').
        simpl in Htl, Hr'. unfold Timed. rewrite Htl, Hr'.
        split; [lia | intros _; lia].
    + intros Heq; inversion Heq; subst. exact Hinv.
Qed.

Lemma whack_run_timed (es : list Event) (s s' : State) :
  Quiet s -> Timed s -> run s es = Ok s' -> Quiet s' /\ Timed s'.
Proof.
  revert s. induction es as [|e es IH]; intros s Hq Hinv; simpl.
  - intros Heq; inversion Heq; subst. split; assumption.
  - destruct (step s e) as [s1| |] eqn:Hstep; simpl; try discriminate.
    apply IH.
    + eapply TimersProps.timers_whack_step; eassumption.
    + eapply whack_step_timed; eassumption.
Qed.

(** X15: in every state Whack-a-Mole reaches from page load the time left
    is between 0 and 30, and at least 1 while the game runs: the countdown
    stops the game on reaching 0 and never ticks on a stopped game. *)
Theorem whack_clock_stays_in_range (ls : gmap string string)
    (text0 text1 : string) (es : list Event) (s : State) :
  run (initial ls text0 text1) es = Ok s -> Timed s.
Proof.
  intros Hrun.
  apply (whack_run_timed es (initial ls text0 text1)); [| |exact Hrun].
  - apply TimersProps.timers_whack_initial.
  - unfold Timed. simpl. split; [lia | discriminate].
Qed.

(** X16: Whack-a-Mole never throws: from page load, every sequence of
    events whose draws lie in [0, 1) runs to a state. *)
Theorem whack_never_throws (ls : gmap string string)
    (text0 text1 : string) (es : list Event) :
  Forall Drawn es ->
  exists s : State, run (initial ls text0 text1) es = Ok s.
Proof.
  intros Hes.
  assert (Hgen : forall s0, length (moles s0) = 9%nat ->
                            exists s, run s0 es = Ok s).
  { induction Hes as [|e es He Hes IH]; intros s0 Hlen; simpl.
    - exists s0. reflexivity.
    - assert (Hstep : exists s1, step s0 e = Ok s1).
      { destruct e as [r1 r2| |i|id r1 r2]; simpl in *.
        - unfold startGame. destruct (gameRunning s0); [eexists; reflexivity|].
          destruct (setInterval _ _ _) as [id ts].
          apply whack_showRandomMole_total; [apply He|].
          simpl. unfold hideAll. rewrite length_map, Hlen. lia.
        - eexists. reflexivity.
        - eexists. reflexivity.
        - destruct (fire id (timers s0)) as [[[] ts]|];
            try (eexists; reflexivity).
          unfold moleTimeout. simpl.
          destruct (gameRunning s0); [|eexists; reflexivity].
          apply whack_showRandomMole_total; [apply He|].
          simpl. rewrite Hlen. lia. }
      destruct Hstep as [s1 Hstep]. rewrite Hstep. simpl.
      apply IH. rewrite (WhackProps.whack_step_length _ _ _ _ Hstep).
      exact Hlen. }
  apply Hgen. reflexivity.
Qed.
End WithRuntime.

(** After Start and a whack of the mole that is up, that mole is the one
    out of its hole. *)
Lemma whack_at_most_one_mole_up_witness :
  exists s : State,
    run (H := decimalRuntime) freshPage
      [ClickStart (1 # 2) (1 # 2); ClickMole 4] = Ok s /\
    moles s !! 4%nat = Some {| active := false; whacked := true |} /\
    OneUp s.
Proof.
  eexists.
  lazymatch goal with
  | |- ?r = Ok ?s /\ _ =>
      assert (Hrun : r = Ok s) by (vm_compute; reflexivity)
  end.
  split; [exact Hrun|]. split; [reflexivity|].
  exact (whack_at_most_one_mole_up (H := decimalRuntime) _ _ _ _ _ Hrun).
Defined.

(** Two seconds into a game. *)
Lemma whack_clock_stays_in_range_witness :
  exists s : State,
    run (H := decimalRuntime) freshPage
      [ClickStart (1 # 2) (1 # 2); Fire 1 0 0; Fire 1 0 0] = Ok s /\
    timeLeft s = 28 /\
    Timed s.
Proof.
  eexists.
  lazymatch goal with
  | |- ?r = Ok ?s /\ _ =>
      assert (Hrun : r = Ok s) by (vm_compute; reflexivity)
  end.
  split; [exact Hrun|]. split; [reflexivity|].
  exact (whack_clock_stays_in_range (H := decimalRuntime) _ _ _ _ _ Hrun).
Defined.

(** A game of five whacks. *)
Lemma whack_never_throws_witness :
  Forall Drawn (ClickStart (1 # 2) (1 # 2) :: Gateway.fiveWhacks) /\
  exists s : State,
    run (H := decimalRuntime) Gateway.whackPage
      (ClickStart (1 # 2) (1 # 2) :: Gateway.fiveWhacks) = Ok s.
Proof.
  assert (Hu : unitInterval (1 # 2))
    by (apply JsProps.js_unitInterval_dec; vm_compute; reflexivity).
  assert (Hes : Forall Drawn
                  (ClickStart (1 # 2) (1 # 2) :: Gateway.fiveWhacks))
    by (repeat (apply List.Forall_cons;
                  [first [exact I | exact (conj Hu Hu)]|]);
        apply List.Forall_nil).
  split; [exact Hes|].
  exact (whack_never_throws (H := decimalRuntime) _ _ _ _ Hes).
Defined.

End WhackInvariants.

(** ** Image Puzzle: neighbours, shuffling, swaps and the solved test *)

Module PuzzleInvariants.
Import Puzzle.

(** X17: with the empty slot inside the grid, [getAdjacentTiles] returns
    exactly the cells of the grid one step from it, horizontally or
    vertically. *)
Theorem puzzle_adjacent_are_grid_neighbours (s : State) (p : Pos) :
  inGrid (gridSize s) (emptyTile s) ->
  p ∈ getAdjacentTiles s <->
  inGrid (gridSize s) p /\ nextTo p (emptyTile s).
Proof.
  unfold inGrid, nextTo, getAdjacentTiles. intros [Hr Hc].
  destruct p as [pr pc]. destruct (emptyTile s) as [er ec]. simpl in *.
  rewrite !elem_of_app.
  destruct (0 <? er) eqn:H1; [apply Z.ltb_lt in H1 | apply Z.ltb_ge in H1];
    destruct (ec <? gridSize s - 1) eqn:H2;
    [apply Z.ltb_lt in H2 | apply Z.ltb_ge in H2
    |apply Z.ltb_lt in H2 | apply Z.ltb_ge in H2];
    destruct (er <? gridSize s - 1) eqn:H3;
    try (apply Z.ltb_lt in H3); try (apply Z.ltb_ge in H3);
    destruct (0 <? ec) eqn:H4;
    try (apply Z.ltb_lt in H4); try (apply Z.ltb_ge in H4);
    rewrite ?list_elem_of_singleton, ?elem_of_nil;
    (split;
     [intros Hin;
      repeat match goal with
             | H : _ \/ _ |- _ => destruct H
             | H : False |- _ => destruct H
             | H : mkPos _ _ = mkPos _ _ |- _ => inversion H; subst; clear H
             end; lia
     |intros [[Hpr Hpc] Hd];
      assert (Hcases : (pr = er - 1 /\ pc = ec) \/ (pr = er /\ pc = ec + 1)
                       \/ (pr = er + 1 /\ pc = ec) \/ (pr = er /\ pc = ec - 1))
        by lia;
      destruct Hcases as [[-> ->]|[[-> ->]|[[-> ->]|[-> ->]]]];
      first [lia | tauto]]).
Qed.

Lemma puzzle_adjacent_are_grid_neighbours_witness :
  inGrid (gridSize freshPage) (emptyTile freshPage) /\
  getAdjacentTiles freshPage = [mkPos 2 3; mkPos 3 2] /\
  (mkPos 2 3 ∈ getAdjacentTiles freshPage <->
   inGrid (gridSize freshPage) (mkPos 2 3)
   /\ nextTo (mkPos 2 3) (emptyTile freshPage)).
Proof.
  assert (Hin : inGrid (gridSize freshPage) (emptyTile freshPage))
    by (unfold inGrid; simpl; lia).
  split; [exact Hin|]. split; [reflexivity|].
  exact (puzzle_adjacent_are_grid_neighbours freshPage (mkPos 2 3) Hin).
Defined.


(** *** Shuffling a square grid *)

Lemma puzzle_adjacent_inGrid (s : State) (p : Pos) :
  inGrid (gridSize s) (emptyTile s) ->
  p ∈ getAdjacentTiles s -> inGrid (gridSize s) p.
Proof.
  unfold inGrid, getAdjacentTiles. intros [Hr Hc] Hin.
  repeat (apply elem_of_app in Hin as [Hin|Hin]);
    match goal with
    | H : _ ∈ (if ?b then _ else _) |- _ => destruct b eqn:Hb
    end;
    try (apply elem_of_nil in Hin; contradiction);
    apply list_elem_of_singleton in Hin; subst p; simpl;
    apply Z.ltb_lt in Hb; lia.
Qed.

Lemma puzzle_adjacent_nonempty (s : State) :
  2 <= gridSize s -> inGrid (gridSize s) (emptyTile s) ->
  (0 < length (getAdjacentTiles s))%nat.
Proof.
  unfold inGrid, getAdjacentTiles. intros Hn [Hr Hc].
  destruct (0 <? row (emptyTile s)) eqn:H1; [simpl; lia|].
  apply Z.ltb_ge in H1.
  destruct (col (emptyTile s) <? gridSize s - 1); [simpl; lia|].
  destruct (row (emptyTile s) <? gridSize s - 1) eqn:H3; [simpl; lia|].
  apply Z.ltb_ge in H3. lia.
Qed.

(** What a swap leaves in each cell. *)
Lemma puzzle_swapTiles_reads (s s' : State) (p : Pos) (tp te : Tile) :
  tileAt (grid s) p = Some tp ->
  tileAt (grid s) (emptyTile s) = Some te ->
  swapTiles p s = Ok s' ->
  emptyTile s' = p /\ gridSize s' = gridSize s /\
  forall q : Pos,
    tileAt (grid s') q =
    if decide (q = emptyTile s)
    then Some {| empty := false; content := content tp |}
    else if decide (q = p)
         then Some {| empty := true; content := None |}
         else tileAt (grid s) q.
Proof.
  intros Htp Hte. unfold swapTiles. rewrite Htp, Hte.
  intros Heq; inversion Heq; subst; clear Heq. simpl.
  split; [reflexivity|]. split; [reflexivity|].
  destruct (PuzzleProps.puzzle_tileAt_nonneg _ _ _ Htp) as [Hpr Hpc].
  destruct (PuzzleProps.puzzle_tileAt_nonneg _ _ _ Hte) as [Her Hec].
  intros q. rewrite !PuzzleProps.puzzle_tileAt_onTile by assumption.
  destruct (decide (q = emptyTile s)) as [->|Hqe].
  - destruct (decide (emptyTile s = p)) as [Hep|Hep]; rewrite Hte;
      reflexivity.
  - destruct (decide (q = p)) as [->|Hqp]; [|reflexivity].
    rewrite Htp. reflexivity.
Qed.

Lemma puzzle_swapTiles_square (s s' : State) (p : Pos) :
  Square s -> swapTiles p s = Ok s' -> Square s'.
Proof.
  intros Hsq Hswap.
  destruct (tileAt (grid s) p) as [tp|] eqn:Htp;
    [|unfold swapTiles in Hswap; rewrite Htp in Hswap; discriminate].
  destruct (tileAt (grid s) (emptyTile s)) as [te|] eqn:Hte;
    [|unfold swapTiles in Hswap; rewrite Htp, Hte in Hswap; discriminate].
  destruct (puzzle_swapTiles_reads s s' p tp te Htp Hte Hswap)
    as (_ & Hn & Hread).
  intros q. rewrite Hread, Hn, <- (Hsq q).
  destruct (decide (q = emptyTile s)) as [->|Hqe].
  - rewrite Hte. split; intros _; eexists; reflexivity.
  - destruct (decide (q = p)) as [->|Hqp]; [|reflexivity].
    rewrite Htp. split; intros _; eexists; reflexivity.
Qed.

Lemma puzzle_unique_inGrid (s : State) :
  UniqueEmpty s -> Square s -> inGrid (gridSize s) (emptyTile s).
Proof.
  intros [[te [Hte _]] _] Hsq. apply Hsq. eexists. exact Hte.
Qed.

Lemma puzzle_shuffleStep_total (s : State) (r : Q) :
  UniqueEmpty s -> Square s -> 2 <= gridSize s -> unitInterval r ->
  exists s' : State,
    shuffleStep s r = Ok s' /\
    UniqueEmpty s' /\ Square s' /\ gridSize s' = gridSize s /\
    moves s' = moves s /\ timer s' = timer s /\
    gameRunning s' = gameRunning s /\ timers s' = timers s /\
    timerInterval s' = timerInterval s.
Proof.
  intros Hu Hsq Hn Hr.
  pose proof (puzzle_unique_inGrid s Hu Hsq) as He.
  pose proof (puzzle_adjacent_nonempty s Hn He) as Hlen.
  unfold shuffleStep.
  pose proof (JsProps.js_floorMul_range r
                (Z.of_nat (length (getAdjacentTiles s))) ltac:(lia) Hr)
    as Hidx.
  set (i := floorMul r (inject_Z (Z.of_nat (length (getAdjacentTiles s)))))
    in *.
  destruct (i <? 0) eqn:Hneg; [apply Z.ltb_lt in Hneg; lia|].
  destruct (lookup_lt_is_Some_2 (getAdjacentTiles s) (Z.to_nat i)
              ltac:(lia)) as [p Hp].
  rewrite Hp.
  assert (Hin : p ∈ getAdjacentTiles s)
    by (eapply list_elem_of_lookup_2, Hp).
  assert (Hne : p <> emptyTile s)
    by (apply PuzzleProps.puzzle_adjacent_not_empty, Hin).
  assert (Hsome : is_Some (tileAt (grid s) p))
    by (apply Hsq, (puzzle_adjacent_inGrid s p He Hin)).
  destruct (PuzzleProps.puzzle_swapTiles_unique s p Hu Hne Hsome)
    as (s' & Hs' & Hu' & _ & Hn').
  exists s'. split; [exact Hs'|]. split; [exact Hu'|].
  split; [exact (puzzle_swapTiles_square s s' p Hsq Hs')|].
  split; [exact Hn'|].
  unfold swapTiles in Hs'.
  destruct (tileAt (grid s) p); [|discriminate].
  destruct (tileAt (grid s) (emptyTile s)); [|discriminate].
  inversion Hs'; subst. repeat split.
Qed.

Lemma puzzle_shuffleLoop_total (k : nat) (s : State) (rs : list Q) :
  UniqueEmpty s -> Square s -> 2 <= gridSize s ->
  Forall unitInterval rs -> (k <= length rs)%nat ->
  exists s' : State,
    shuffleLoop k s rs = Ok s' /\
    UniqueEmpty s' /\ Square s' /\ gridSize s' = gridSize s /\
    moves s' = moves s /\ timer s' = timer s /\
    gameRunning s' = gameRunning s /\ timers s' = timers s /\
    timerInterval s' = timerInterval s.
Proof.
  revert s rs. induction k as [|k IH]; intros s rs Hu Hsq Hn Hrs Hlen; simpl.
  - exists s. split; [reflexivity|]. split; [exact Hu|].
    split; [exact Hsq|]. repeat split.
  - destruct rs as [|r rs]; [simpl in Hlen; lia|].
    apply List.Forall_cons_iff in Hrs as [Hr Hrs].
    destruct (puzzle_shuffleStep_total s r Hu Hsq Hn Hr)
      as (s1 & Hs1 & Hu1 & Hsq1 & Hn1 & Hm1 & Ht1 & Hg1 & Hts1 & Hti1).
    rewrite Hs1. simpl.
    destruct (IH s1 rs Hu1 Hsq1 ltac:(lia) Hrs ltac:(simpl in Hlen; lia))
      as (s' & Hs' & Hu' & Hsq' & Hn' & Hm' & Ht' & Hg' & Hts' & Hti').
    exists s'. split; [exact Hs'|]. split; [exact Hu'|].
    split; [exact Hsq'|]. repeat split; congruence.
Qed.

Lemma puzzle_createGrid_square (s : State) : Square (createGrid s).
Proof.
  intros p. unfold createGrid, inGrid. simpl.
  rewrite PuzzleProps.puzzle_newGrid_tileAt.
  destruct (decide _) as [Hin|Hout].
  - split; [intros _; exact Hin | intros _; eexists; reflexivity].
  - split; [intros [t Ht]; discriminate | intros Hin; contradiction].
Qed.

(** X18: on a stopped game with a grid size of at least 2, Start returns
    whenever the draws lie in [0, 1) and there is one for each of the
    [gridSize * gridSize * 10] shuffle moves: every shuffle move finds a
    neighbour of the empty slot to swap.  The game then runs with both
    counters at 0, on a full square grid whose one empty cell is the
    recorded one. *)
Theorem puzzle_startGame_returns (s : State) (rs : list Q) :
  gameRunning s = false ->
  2 <= gridSize s ->
  Forall unitInterval rs ->
  (Z.to_nat (gridSize s * gridSize s * 10) <= length rs)%nat ->
  exists s' : State,
    startGame s rs = Ok s' /\
    gameRunning s' = true /\ moves s' = 0 /\ timer s' = 0 /\
    gridSize s' = gridSize s /\ UniqueEmpty s' /\ Square s'.
Proof.
  intros Hstop Hn Hrs Hlen. unfold startGame. rewrite Hstop.
  match goal with
  | |- context [shuffleGrid ?s1 rs] => set (s1' := s1)
  end.
  assert (Hu1 : UniqueEmpty s1')
    by (apply PuzzleProps.puzzle_createGrid_unique; simpl; lia).
  assert (Hsq1 : Square s1') by apply puzzle_createGrid_square.
  destruct (puzzle_shuffleLoop_total
              (Z.to_nat (gridSize s1' * gridSize s1' * 10)) s1' rs
              Hu1 Hsq1 Hn Hrs Hlen)
    as (s2 & Hs2 & Hu2 & Hsq2 & Hn2 & Hm2 & Ht2 & Hg2 & _).
  unfold shuffleGrid. rewrite Hs2. simpl.
  eexists. split; [reflexivity|]. simpl.
  split; [exact Hg2|]. split; [exact Hm2|]. split; [exact Ht2|].
  split; [exact Hn2|]. split; [exact Hu2 | exact Hsq2].
Qed.

(** X19: on a stopped game with grid size 1, Start throws as soon as it
    shuffles: the single cell has no neighbour, so the first shuffle move
    reads the coordinates of an undefined tile. *)
Theorem puzzle_startGame_throws_on_one_cell (s : State) (r : Q)
    (rs : list Q) :
  gameRunning s = false ->
  gridSize s = 1 ->
  startGame s (r :: rs) = TypeError.
Proof.
  intros Hstop Hn. unfold startGame. rewrite Hstop.
  match goal with
  | |- context [shuffleGrid ?s1 _] => set (s1' := s1)
  end.
  assert (Hn1 : gridSize s1' = 1) by exact Hn.
  assert (He : emptyTile s1' = mkPos 0 0).
  { unfold s1', createGrid. simpl. rewrite Hn. reflexivity. }
  assert (Hstep : shuffleStep s1' r = TypeError).
  { unfold shuffleStep, getAdjacentTiles. rewrite He, Hn1. simpl.
    assert (Hz : forall k : Q, (k == 0)%Q -> floorMul r k = 0).
    { intros k Hk. unfold floorMul.
      rewrite (Qfloor_comp _ 0); [reflexivity|].
      apply JsProps.js_round53_zero. rewrite Hk. ring. }
    rewrite Hz by reflexivity. reflexivity. }
  unfold shuffleGrid. rewrite Hn1.
  change (Z.to_nat (1 * 1 * 10)) with 10%nat.
  cbn [shuffleLoop]. rewrite Hstep. reflexivity.
Qed.

(** Start on the freshly loaded 4 by 4 page. *)
Lemma puzzle_startGame_returns_witness :
  gameRunning freshPage = false /\
  2 <= gridSize freshPage /\
  Forall unitInterval (replicate 160 (1 # 2)%Q) /\
  (Z.to_nat (gridSize freshPage * gridSize freshPage * 10)
   <= length (replicate 160 (1 # 2)%Q))%nat /\
  exists s' : State,
    startGame freshPage (replicate 160 (1 # 2)%Q) = Ok s' /\
    gameRunning s' = true /\ moves s' = 0 /\ timer s' = 0 /\
    gridSize s' = gridSize freshPage /\ UniqueEmpty s' /\ Square s'.
Proof.
  assert (Hstop : gameRunning freshPage = false) by reflexivity.
  assert (Hn : 2 <= gridSize freshPage) by (simpl; lia).
  assert (Hrs : Forall unitInterval (replicate 160 (1 # 2)%Q)).
  { apply Forall_replicate.
    apply JsProps.js_unitInterval_dec; vm_compute; reflexivity. }
  assert (Hlen : (Z.to_nat (gridSize freshPage * gridSize freshPage * 10)
                  <= length (replicate 160 (1 # 2)%Q))%nat)
    by (vm_compute; lia).
  split; [exact Hstop|]. split; [exact Hn|]. split; [exact Hrs|].
  split; [exact Hlen|].
  exact (puzzle_startGame_returns freshPage _ Hstop Hn Hrs Hlen).
Defined.

Lemma puzzle_startGame_throws_on_one_cell_witness :
  gameRunning (setGridSize 1 freshPage) = false /\
  gridSize (setGridSize 1 freshPage) = 1 /\
  startGame (setGridSize 1 freshPage) [(1 # 2)%Q] = TypeError.
Proof.
  split; [reflexivity|]. split; [reflexivity|].
  exact (puzzle_startGame_throws_on_one_cell (setGridSize 1 freshPage)
           (1 # 2) [] eq_refl eq_refl).
Defined.


(** *** A move and the move back *)

(** X20: after a swap of a tile with the empty slot, the swap back (of the
    cell that was empty) returns and restores the board: the empty slot is
    where it was and every cell reads as before. *)
Theorem puzzle_swap_back_restores (s s1 : State) (p : Pos) (tp te : Tile) :
  tileAt (grid s) p = Some tp -> empty tp = false ->
  tileAt (grid s) (emptyTile s) = Some te ->
  empty te = true -> content te = None ->
  swapTiles p s = Ok s1 ->
  exists s2 : State,
    swapTiles (emptyTile s) s1 = Ok s2 /\
    emptyTile s2 = emptyTile s /\
    forall q : Pos, tileAt (grid s2) q = tileAt (grid s) q.
Proof.
  intros Htp Hfull Hte Hempty Hnone Hswap.
  assert (Hne : p <> emptyTile s) by (intros ->; congruence).
  destruct (puzzle_swapTiles_reads s s1 p tp te Htp Hte Hswap)
    as (He1 & _ & Hread1).
  assert (Hte1 : tileAt (grid s1) (emptyTile s)
                 = Some {| empty := false; content := content tp |}).
  { rewrite Hread1, decide_True by reflexivity. reflexivity. }
  assert (Htp1 : tileAt (grid s1) (emptyTile s1)
                 = Some {| empty := true; content := None |}).
  { rewrite He1, Hread1, decide_False by exact Hne.
    rewrite decide_True by reflexivity. reflexivity. }
  destruct (swapTiles (emptyTile s) s1) as [s2| |] eqn:Hback;
    try (unfold swapTiles in Hback; rewrite Hte1, Htp1 in Hback;
         discriminate).
  destruct (puzzle_swapTiles_reads s1 s2 (emptyTile s) _ _ Hte1 Htp1 Hback)
    as (He2 & _ & Hread2).
  exists s2. split; [reflexivity|]. split; [exact He2|].
  intros q. rewrite Hread2, He1.
  destruct (decide (q = p)) as [->|Hqp].
  - rewrite Htp. destruct tp; simpl in *; subst. reflexivity.
  - destruct (decide (q = emptyTile s)) as [->|Hqe].
    + rewrite Hte. destruct te; simpl in *; subst. reflexivity.
    + rewrite Hread1, decide_False by exact Hqe.
      rewrite decide_False by exact Hqp. reflexivity.
Qed.

Lemma puzzle_swap_back_restores_witness :
  exists s1 s2 : State,
    swapTiles (mkPos 3 2) freshPage = Ok s1 /\
    swapTiles (emptyTile freshPage) s1 = Ok s2 /\
    emptyTile s2 = emptyTile freshPage /\
    forall q : Pos, tileAt (grid s2) q = tileAt (grid freshPage) q.
Proof.
  eexists.
  lazymatch goal with
  | |- exists s2, ?r = Ok ?s1 /\ _ =>
      assert (Hswap : r = Ok s1) by (vm_compute; reflexivity)
  end.
  destruct (puzzle_swap_back_restores freshPage _ (mkPos 3 2) _ _
              eq_refl eq_refl eq_refl eq_refl eq_refl Hswap)
    as (s2 & Hback & He & Hread).
  exists s2. split; [exact Hswap|]. split; [exact Hback|].
  split; [exact He | exact Hread].
Defined.

(** *** The solved test *)

Lemma puzzle_indices_In (n z : Z) : In z (indices n) <-> 0 <= z < n.
Proof.
  unfold indices. rewrite <- list_elem_of_In, list_elem_of_fmap.
  split.
  - intros (k & -> & Hk). apply elem_of_seq in Hk. lia.
  - intros Hz. exists (Z.to_nat z). split; [lia|].
    apply elem_of_seq. lia.
Qed.

Lemma puzzle_cells_In (n : Z) (p : Pos) :
  In p (flat_map (fun r => map (fun c => mkPos r c) (indices n)) (indices n))
  <-> inGrid n p.
Proof.
  unfold inGrid. rewrite in_flat_map. split.
  - intros (r & Hr & Hp). apply in_map_iff in Hp as (c & <- & Hc).
    apply puzzle_indices_In in Hr, Hc. simpl. lia.
  - intros [Hr Hc]. exists (row p). split; [apply puzzle_indices_In, Hr|].
    apply in_map_iff. exists (col p).
    split; [destruct p; reflexivity | apply puzzle_indices_In, Hc].
Qed.

Section WithBrowser.
Variable bgMatches : Img -> Z -> Z -> Z -> bool.

Lemma puzzle_cellSolved_spec (s : State) (p : Pos) :
  Square s -> inGrid (gridSize s) p ->
  exists b : bool,
    cellSolved bgMatches s (row p) (col p) = Ok b /\
    (b = true <->
     (p <> mkPos (gridSize s - 1) (gridSize s - 1) -> inPlace bgMatches s p)).
Proof.
  intros Hsq Hin. unfold cellSolved, inPlace.
  destruct ((row p =? gridSize s - 1) && (col p =? gridSize s - 1)) eqn:Hc.
  - exists true. split; [reflexivity|]. split; [|reflexivity].
    intros _ Hne. exfalso. apply Hne.
    apply andb_true_iff in Hc as [Hr Hcl]. apply Z.eqb_eq in Hr, Hcl.
    destruct p; simpl in *; subst. reflexivity.
  - assert (Hne : p <> mkPos (gridSize s - 1) (gridSize s - 1)).
    { intros ->. simpl in Hc. rewrite !Z.eqb_refl in Hc. discriminate. }
    replace (mkPos (row p) (col p)) with p by (destruct p; reflexivity).
    destruct (proj2 (Hsq p) Hin) as [t Ht]. rewrite Ht.
    destruct (content t) as [img|] eqn:Himg.
    + exists (bgMatches img (gridSize s) (row p) (col p)).
      split; [reflexivity|]. split.
      * intros Hb _ t' img' Ht' Himg'. congruence.
      * intros Hall. exact (Hall Hne t img eq_refl Himg).
    + exists true. split; [reflexivity|]. split; [|reflexivity].
      intros _ _ t' img' Ht' Himg'. congruence.
Qed.

Lemma puzzle_allSolved_spec (s : State) (cells : list Pos) :
  Square s -> (forall p, In p cells -> inGrid (gridSize s) p) ->
  exists b : bool,
    allSolved bgMatches s cells = Ok b /\
    (b = true <->
     forall p, In p cells ->
               p <> mkPos (gridSize s - 1) (gridSize s - 1) ->
               inPlace bgMatches s p).
Proof.
  intros Hsq. induction cells as [|p cells IH]; intros Hin.
  - exists true. split; [reflexivity|]. split; [intros _ p []|reflexivity].
  - destruct (puzzle_cellSolved_spec s p Hsq (Hin p (or_introl eq_refl)))
      as (b & Hb & Hspec).
    cbn [allSolved]. rewrite Hb. cbn [mbind Js.result_bind].
    destruct b.
    + destruct (IH (fun q Hq => Hin q (or_intror Hq))) as (b' & Hb' & Hspec').
      exists b'. split; [exact Hb'|]. rewrite Hspec'. split.
      * intros Hall q [<-|Hq]; [apply Hspec; reflexivity | apply Hall, Hq].
      * intros Hall q Hq. apply Hall. right. exact Hq.
    + exists false. split; [reflexivity|]. split; [discriminate|].
      intros Hall. apply Hspec. apply Hall. left. reflexivity.
Qed.

(** X21: on a full square grid [isPuzzleSolved] returns, and it answers
    true exactly when the empty slot is the bottom right cell and every
    other cell of the grid is in place: its tile has no image, or an image
    whose position matches the cell. *)
Theorem puzzle_isPuzzleSolved_spec (s : State) :
  Square s ->
  exists b : bool,
    isPuzzleSolved bgMatches s = Ok b /\
    (b = true <->
     emptyTile s = mkPos (gridSize s - 1) (gridSize s - 1) /\
     forall p : Pos,
       inGrid (gridSize s) p ->
       p <> mkPos (gridSize s - 1) (gridSize s - 1) ->
       inPlace bgMatches s p).
Proof.
  intros Hsq. unfold isPuzzleSolved.
  destruct (negb (row (emptyTile s) =? gridSize s - 1)
            || negb (col (emptyTile s) =? gridSize s - 1)) eqn:Hc.
  - exists false. split; [reflexivity|]. split; [discriminate|].
    intros [He _]. rewrite He in Hc. simpl in Hc.
    rewrite !Z.eqb_refl in Hc. discriminate.
  - apply orb_false_iff in Hc as [Hr Hcl].
    apply negb_false_iff, Z.eqb_eq in Hr, Hcl.
    assert (He : emptyTile s = mkPos (gridSize s - 1) (gridSize s - 1))
      by (destruct (emptyTile s); simpl in *; subst; reflexivity).
    destruct (puzzle_allSolved_spec s
                (flat_map (fun r => map (fun c => mkPos r c)
                                      (indices (gridSize s)))
                   (indices (gridSize s))) Hsq
                (fun p Hp => proj1 (puzzle_cells_In _ p) Hp))
      as (b & Hb & Hspec).
    exists b. split; [exact Hb|]. rewrite Hspec. split.
    + intros Hall. split; [exact He|].
      intros p Hp. apply Hall, puzzle_cells_In, Hp.
    + intros [_ Hall] p Hp. apply Hall, puzzle_cells_In, Hp.
Qed.
End WithBrowser.

(** The freshly built grid counts as solved; with the empty slot moved
    one cell to the left it does not. *)
Lemma puzzle_isPuzzleSolved_spec_witness :
  Square freshPage /\
  isPuzzleSolved sampleBrowser freshPage = Ok true /\
  (exists s1 : State,
     swapTiles (mkPos 3 2) freshPage = Ok s1 /\
     isPuzzleSolved sampleBrowser s1 = Ok false) /\
  exists b : bool,
    isPuzzleSolved sampleBrowser freshPage = Ok b /\
    (b = true <->
     emptyTile freshPage
     = mkPos (gridSize freshPage - 1) (gridSize freshPage - 1) /\
     forall p : Pos,
       inGrid (gridSize freshPage) p ->
       p <> mkPos (gridSize freshPage - 1) (gridSize freshPage - 1) ->
       inPlace sampleBrowser freshPage p).
Proof.
  assert (Hsq : Square freshPage) by apply puzzle_createGrid_square.
  split; [exact Hsq|]. split; [vm_compute; reflexivity|].
  split.
  - eexists. split; vm_compute; reflexivity.
  - exact (puzzle_isPuzzleSolved_spec sampleBrowser freshPage Hsq).
Defined.

End PuzzleInvariants.

(** ** The score within a session *)

Module ScoreProps.
Import Gateway.

Section WithRuntime.
Context `{Runtime}.

Lemma gateway_score_climbs (G : Game) :
  (forall s s' e,
     step G s e = Ok s' ->
     Bumped (key G) (score G s) (highScore G s) (storage G s)
       (score G s') (highScore G s') (storage G s')
     \/ (inSession G e = false /\ score G s' = 0 /\
         highScore G s' = highScore G s /\ storage G s' = storage G s)) ->
  ScoreClimbs G.
Proof.
  intros Hstep s s' es Hes. revert s.
  induction Hes as [|e es He Hes IH]; intros s; simpl.
  - intros Heq; inversion Heq; subst. lia.
  - destruct (step G s e) as [s1| |] eqn:Hs; simpl; try discriminate.
    intros Hrun. specialize (IH s1 Hrun).
    destruct (Hstep s s1 e Hs) as [Hb | (Hout & _)].
    + inversion Hb; lia.
    + rewrite He in Hout. discriminate.
Qed.

(** X6: in Snake, Endless Runner and Whack-a-Mole the score never goes
    down within a session, and no event (a timer firing, a key, a click on
    a mole) adds more than one point. *)
Theorem score_climbs_one_point_per_event :
  ScoreClimbs snake /\ ScoreClimbs runner /\ ScoreClimbs whack.
Proof.
  split; [|split]; apply gateway_score_climbs.
  - exact GatewayProps.snake_step_bumped.
  - exact GatewayProps.runner_step_bumped.
  - exact GatewayProps.whack_step_bumped.
Qed.
End WithRuntime.

(** Five whacks in nine events score five points. *)
Lemma score_climbs_one_point_per_event_witness :
  exists s1 s' : Whack.State,
    Whack.startGame whackPage (1 # 2) (1 # 2) = Ok s1 /\
    Forall (fun e => inSession (whack (H := decimalRuntime)) e = true)
      fiveWhacks /\
    run (whack (H := decimalRuntime)) s1 fiveWhacks = Ok s' /\
    Whack.score s' = 5 /\
    Whack.score s1 <= Whack.score s' <= Whack.score s1 + 9.
Proof.
  do 2 eexists.
  lazymatch goal with
  | |- ?r0 = Ok ?s0 /\ _ =>
      assert (H0 : r0 = Ok s0) by (vm_compute; reflexivity)
  end.
  split; [exact H0|].
  assert (Hes : Forall (fun e => inSession (whack (H := decimalRuntime)) e
                                 = true) fiveWhacks)
    by (repeat constructor).
  split; [exact Hes|].
  lazymatch goal with
  | |- ?r = Ok ?s /\ _ =>
      assert (Hrun : r = Ok s) by (vm_compute; reflexivity)
  end.
  split; [exact Hrun|]. split; [reflexivity|].
  exact (proj2 (proj2 (score_climbs_one_point_per_event
                         (H := decimalRuntime))) _ _ _ Hes Hrun).
Defined.

End ScoreProps.

(** ** Tic-Tac-Toe: marks, the AI move and Reset *)

Module TicTacToeProps.
Import TicTacToe.

Lemma ttt_emptyIndices_spec (b : list (option Mark)) (k : nat) :
  In k (emptyIndices b) <-> b !! k = Some None.
Proof.
  unfold emptyIndices. rewrite filter_In, in_seq, bool_decide_eq_true.
  split; [intros [_ Hk]; exact Hk|].
  intros Hk. split; [|exact Hk].
  apply lookup_lt_Some in Hk. lia.
Qed.

Lemma ttt_checkDraw_false (b : list (option Mark)) :
  checkDraw b = false <-> exists i : nat, b !! i = Some None.
Proof.
  unfold checkDraw. rewrite negb_false_iff, existsb_exists. split.
  - intros (c & Hin & Hc). apply bool_decide_eq_true in Hc. subst c.
    apply list_elem_of_In, list_elem_of_lookup in Hin. exact Hin.
  - intros [i Hi]. exists None. split; [|apply bool_decide_eq_true; reflexivity].
    apply list_elem_of_In. eapply list_elem_of_lookup_2, Hi.
Qed.

(** What a click does to the board. *)
Lemma ttt_handleCellClick_cases (i : nat) (s : State) :
  handleCellClick i s = s \/
  (board s !! i = Some None /\
   board (handleCellClick i s) = <[i := Some (currentPlayer s)]> (board s) /\
   cells (handleCellClick i s)
   = <[i := Some (iconOf (currentPlayer s))]> (cells s) /\
   (gameActive (handleCellClick i s) = true ->
    checkWin (board (handleCellClick i s)) = false /\
    checkDraw (board (handleCellClick i s)) = false)).
Proof.
  unfold handleCellClick.
  destruct (board s !! i) as [[m|]|] eqn:Hi; try (left; reflexivity).
  destruct (gameActive s); [|left; reflexivity].
  right. split; [reflexivity|].
  destruct (checkWin _) eqn:Hw; simpl;
    [repeat split; discriminate|].
  destruct (checkDraw _) eqn:Hd; simpl;
    [repeat split; discriminate|].
  repeat split; assumption.
Qed.

(** What an AI move does to the board. *)
Lemma ttt_makeAIMove_cases (s s' : State) (r : Q) :
  makeAIMove s r = Ok s' ->
  s' = s \/
  exists k : nat,
    board s !! k = Some None /\
    board s' = <[k := Some (currentPlayer s)]> (board s) /\
    cells s' = <[k := Some Circle]> (cells s) /\
    timers s' = timers s /\
    (gameActive s' = true ->
     checkWin (board s') = false /\ checkDraw (board s') = false).
Proof.
  unfold makeAIMove.
  destruct (0 <? length (emptyIndices (board s)))%nat;
    [|intros Heq; inversion Heq; left; reflexivity].
  match goal with
  | |- context [if ?c then None else ?l] =>
      destruct (if c then None else l) as [k|] eqn:Hk
  end; [|discriminate].
  assert (Hfree : board s !! k = Some None).
  { destruct (_ <? 0); [discriminate|].
    apply ttt_emptyIndices_spec. apply list_elem_of_In.
    eapply list_elem_of_lookup_2, Hk. }
  intros Hs'. right. exists k. split; [exact Hfree|].
  destruct (checkWin _) eqn:Hw;
    [inversion Hs'; subst; simpl; repeat split; discriminate|].
  destruct (checkDraw _) eqn:Hd;
    inversion Hs'; subst; simpl; repeat split;
    solve [discriminate | assumption].
Qed.

Lemma ttt_makeAIMove_total (s : State) (r : Q) :
  unitInterval r ->
  exists s' : State, makeAIMove s r = Ok s'.
Proof.
  intros Hr. unfold makeAIMove.
  destruct (0 <? length (emptyIndices (board s)))%nat eqn:Hlen;
    [|eexists; reflexivity].
  apply Nat.ltb_lt in Hlen.
  pose proof (JsProps.js_floorMul_range r
                (Z.of_nat (length (emptyIndices (board s))))
                ltac:(lia) Hr) as Hj.
  set (j := floorMul r _) in *.
  destruct (j <? 0) eqn:Hneg; [apply Z.ltb_lt in Hneg; lia|].
  destruct (lookup_lt_is_Some_2 (emptyIndices (board s)) (Z.to_nat j)
              ltac:(lia)) as [k Hk].
  rewrite Hk.
  destruct (checkWin _); [eexists; reflexivity|].
  destruct (checkDraw _); eexists; reflexivity.
Qed.

Lemma ttt_step_undecided (s s' : State) (e : Event) :
  Undecided s -> step s e = Ok s' -> Undecided s'.
Proof.
  intros Hinv. destruct e as [i| |id r]; simpl.
  - intros Heq; inversion Heq; subst; clear Heq.
    destruct (ttt_handleCellClick_cases i s) as [->|(_ & _ & _ & Hact)];
      [exact Hinv|].
    intros Ha. destruct (Hact Ha) as [Hw Hd].
    split; [exact Hw | apply ttt_checkDraw_false, Hd].
  - intros Heq; inversion Heq; subst; clear Heq.
    intros _. split; [reflexivity | exists 0%nat; reflexivity].
  - destruct (fire id (timers s)) as [[[] ts]|].
    + intros Hmove.
      apply ttt_makeAIMove_cases in Hmove
        as [->|(k & _ & _ & _ & _ & Hact)]; [exact Hinv|].
      intros Ha. destruct (Hact Ha) as [Hw Hd].
      split; [exact Hw | apply ttt_checkDraw_false, Hd].
    + intros Heq; inversion Heq; subst. exact Hinv.
Qed.


Lemma ttt_step_keeps_marks (s s' : State) (e : Event) (i : nat) (m : Mark) :
  keepsBoard e = true -> step s e = Ok s' ->
  board s !! i = Some (Some m) -> board s' !! i = Some (Some m).
Proof.
  intros He. destruct e as [j| |id r]; simpl; try discriminate.
  - intros Heq; inversion Heq; subst; clear Heq. intros Hi.
    destruct (ttt_handleCellClick_cases j s) as [->|(Hj & -> & _)];
      [exact Hi|].
    rewrite list_lookup_insert_ne by congruence. exact Hi.
  - destruct (fire id (timers s)) as [[[] ts]|].
    + intros Hmove Hi.
      apply ttt_makeAIMove_cases in Hmove as [->|(k & Hk & -> & _)];
        [exact Hi|].
      simpl in *. rewrite list_lookup_insert_ne by congruence. exact Hi.
    + intros Heq; inversion Heq; subst. auto.
Qed.

(** X23: a mark stays: over any sequence of clicks and AI moves without a
    Reset, a cell that holds a mark keeps that mark.  Neither the player
    nor the AI writes into a cell that is taken. *)
Theorem ttt_marks_are_permanent (es : list Event) (s s' : State)
    (i : nat) (m : Mark) :
  Forall (fun e => keepsBoard e = true) es ->
  run s es = Ok s' ->
  board s !! i = Some (Some m) ->
  board s' !! i = Some (Some m).
Proof.
  intros Hes. revert s.
  induction Hes as [|e es He Hes IH]; intros s; simpl.
  - intros Heq; inversion Heq; subst. auto.
  - destruct (step s e) as [s1| |] eqn:Hstep; simpl; try discriminate.
    intros Hrun Hi. apply (IH s1 Hrun).
    eapply ttt_step_keeps_marks; eassumption.
Qed.

(** X24: Tic-Tac-Toe never throws: from any state, every sequence of
    events whose draws lie in [0, 1) runs to a state. *)
Theorem ttt_never_throws (es : list Event) (s : State) :
  Forall Drawn es ->
  exists s' : State, run s es = Ok s'.
Proof.
  intros Hes. revert s.
  induction Hes as [|e es He Hes IH]; intros s; simpl.
  - exists s. reflexivity.
  - assert (Hstep : exists s1, step s e = Ok s1).
    { destruct e as [i| |id r]; simpl in *; try (eexists; reflexivity).
      destruct (fire id (timers s)) as [[[] ts]|]; [|eexists; reflexivity].
      apply ttt_makeAIMove_total, He. }
    destruct Hstep as [s1 Hs1]. rewrite Hs1. simpl. apply IH.
Qed.

(** X25: for a draw that is a double of [0, 1) on a board with a free
    cell, [makeAIMove] returns and marks exactly one cell, a free one,
    picked from the free cells in increasing order by the draw: the cell
    at the floor of the product of the draw and their number, rounded to
    a double as the script computes it.  The mark is the current
    player's, the icon drawn is the circle whoever the current player
    is. *)
Theorem ttt_ai_marks_one_free_cell (s : State) (r : Q) (i : nat) :
  unitInterval r ->
  board s !! i = Some None ->
  exists (s' : State) (k : nat),
    makeAIMove s r = Ok s' /\
    emptyIndices (board s)
      !! Z.to_nat (floorMul r (inject_Z (Z.of_nat
                                 (length (emptyIndices (board s))))))
    = Some k /\
    board s !! k = Some None /\
    board s' = <[k := Some (currentPlayer s)]> (board s) /\
    cells s' = <[k := Some Circle]> (cells s).
Proof.
  intros Hr Hi.
  assert (Hlen : (0 < length (emptyIndices (board s)))%nat).
  { apply ttt_emptyIndices_spec in Hi.
    destruct (emptyIndices (board s)); [destruct Hi | simpl; lia]. }
  pose proof (JsProps.js_floorMul_range r
                (Z.of_nat (length (emptyIndices (board s))))
                ltac:(lia) Hr) as Hj.
  unfold makeAIMove.
  destruct (0 <? length (emptyIndices (board s)))%nat eqn:Hpos;
    [|apply Nat.ltb_ge in Hpos; lia].
  set (j := floorMul r _) in *.
  destruct (j <? 0) eqn:Hneg; [apply Z.ltb_lt in Hneg; lia|].
  destruct (lookup_lt_is_Some_2 (emptyIndices (board s)) (Z.to_nat j)
              ltac:(lia)) as [k Hk].
  rewrite Hk.
  assert (Hfree : board s !! k = Some None).
  { apply ttt_emptyIndices_spec, list_elem_of_In.
    eapply list_elem_of_lookup_2, Hk. }
  destruct (checkWin _);
    [eexists _, k; repeat split; assumption|].
  destruct (checkDraw _); eexists _, k; repeat split; assumption.
Qed.

(** X26: Reset does not cancel a pending AI move.  Whatever the state, if
    an AI move is pending, then after Reset it still runs (for a draw in
    [0, 1)), and it marks a cell of the fresh board with X, the player's
    mark, under a circle icon; the game goes on. *)
Theorem ttt_pending_ai_move_survives_reset (s : State) (id : nat)
    (t : Task Callback) (r : Q) :
  active (timers s) !! id = Some t ->
  unitInterval r ->
  exists (s' : State) (k : nat),
    step (resetGame s) (Fire id r) = Ok s' /\
    (k < 9)%nat /\
    board s' = <[k := Some X]> emptyBoard /\
    cells s' = <[k := Some Circle]> createBoard /\
    gameActive s' = true.
Proof.
  intros Ht Hr. cbn [step]. unfold fire.
  change (timers (resetGame s)) with (timers s).
  rewrite Ht. destruct (callback t).
  match goal with
  | |- context [makeAIMove ?s1 r] => set (s0 := s1)
  end.
  pose proof (JsProps.js_floorMul_range r 9 ltac:(lia) Hr) as Hj.
  unfold makeAIMove.
  change (board s0) with emptyBoard. change (cells s0) with createBoard.
  change (currentPlayer s0) with X. change (gameActive s0) with true.
  change (emptyIndices emptyBoard) with (seq 0 9).
  change (0 <? length (seq 0 9))%nat with true. cbn iota.
  change (inject_Z (Z.of_nat (length (seq 0 9)))) with (inject_Z 9).
  set (j := floorMul r (inject_Z 9)) in *.
  destruct (j <? 0) eqn:Hneg; [apply Z.ltb_lt in Hneg; lia|].
  assert (Hk : (Z.to_nat j < 9)%nat) by lia.
  rewrite (lookup_seq_lt 0 9 (Z.to_nat j) Hk). cbn [Nat.add].
  assert (Hopen : forall k : nat, (k < 9)%nat ->
            checkWin (<[k := Some X]> emptyBoard) = false
            /\ checkDraw (<[k := Some X]> emptyBoard) = false).
  { intros k Hk9.
    do 9 (destruct k as [|k]; [split; reflexivity|]). lia. }
  destruct (Hopen _ Hk) as [-> ->].
  eexists _, (Z.to_nat j). repeat split. exact Hk.
Qed.


(** The centre stays with X through the AI's answer and a click on it. *)
Lemma ttt_marks_are_permanent_witness :
  exists s s' : State,
    run initial [ClickCell 4] = Ok s /\
    Forall (fun e => keepsBoard e = true) [Fire 1 (1 # 2); ClickCell 4] /\
    run s [Fire 1 (1 # 2); ClickCell 4] = Ok s' /\
    board s !! 4%nat = Some (Some X) /\
    board s' !! 4%nat = Some (Some X).
Proof.
  do 2 eexists.
  lazymatch goal with
  | |- ?r = Ok ?s /\ _ =>
      assert (H0 : r = Ok s) by (vm_compute; reflexivity)
  end.
  split; [exact H0|].
  assert (Hes : Forall (fun e => keepsBoard e = true)
                  [Fire 1 (1 # 2); ClickCell 4])
    by (repeat (apply List.Forall_cons; [reflexivity|]);
        apply List.Forall_nil).
  split; [exact Hes|].
  lazymatch goal with
  | |- ?r = Ok ?s /\ _ =>
      assert (Hrun : r = Ok s) by (vm_compute; reflexivity)
  end.
  split; [exact Hrun|]. split; [reflexivity|].
  exact (ttt_marks_are_permanent _ _ _ 4%nat X Hes Hrun eq_refl).
Defined.

Lemma ttt_never_throws_witness :
  Forall Drawn [ClickCell 4; Fire 1 (1 # 2); ClickReset] /\
  exists s' : State,
    run initial [ClickCell 4; Fire 1 (1 # 2); ClickReset] = Ok s'.
Proof.
  assert (Hu : unitInterval (1 # 2))
    by (apply JsProps.js_unitInterval_dec; vm_compute; reflexivity).
  assert (Hes : Forall Drawn [ClickCell 4; Fire 1 (1 # 2); ClickReset])
    by (repeat (apply List.Forall_cons; [first [exact I | exact Hu]|]);
        apply List.Forall_nil).
  split; [exact Hes|].
  exact (ttt_never_throws _ initial Hes).
Defined.

(** On the empty board the draw 4003199668773774 / 2^52, which is below
    8/9, picks cell 8: its product with 9 is rounded to 8. *)
Lemma ttt_ai_marks_one_free_cell_witness :
  unitInterval (4003199668773774 # 4503599627370496) /\
  (4003199668773774 # 4503599627370496 < 8 # 9)%Q /\
  board initial !! 0%nat = Some None /\
  exists s' : State,
    makeAIMove initial (4003199668773774 # 4503599627370496) = Ok s' /\
    board s' = <[8%nat := Some (currentPlayer initial)]> (board initial) /\
    cells s' = <[8%nat := Some Circle]> (cells initial).
Proof.
  assert (Hu : unitInterval (4003199668773774 # 4503599627370496))
    by (apply JsProps.js_unitInterval_dec; vm_compute; reflexivity).
  split; [exact Hu|]. split; [vm_compute; reflexivity|].
  split; [reflexivity|].
  destruct (ttt_ai_marks_one_free_cell initial _ 0%nat Hu eq_refl)
    as (s' & k & Hmove & Hk & _ & Hb & Hc).
  assert (He : k = 8%nat) by (vm_compute in Hk; congruence).
  rewrite He in Hb, Hc.
  exists s'. split; [exact Hmove|]. split; [exact Hb | exact Hc].
Defined.

(** A click, then Reset before the AI has answered. *)
Lemma ttt_pending_ai_move_survives_reset_witness :
  exists s : State,
    run initial [ClickCell 0] = Ok s /\
    is_Some (active (timers s) !! 1%nat) /\
    unitInterval (1 # 2) /\
    exists (s' : State) (k : nat),
      step (resetGame s) (Fire 1 (1 # 2)) = Ok s' /\
      (k < 9)%nat /\
      board s' = <[k := Some X]> emptyBoard /\
      cells s' = <[k := Some Circle]> createBoard /\
      gameActive s' = true.
Proof.
  eexists.
  lazymatch goal with
  | |- ?r = Ok ?s /\ _ =>
      assert (H0 : r = Ok s) by (vm_compute; reflexivity)
  end.
  split; [exact H0|].
  assert (Hu : unitInterval (1 # 2))
    by (apply JsProps.js_unitInterval_dec; vm_compute; reflexivity).
  lazymatch type of H0 with
  | _ = Ok ?s0 =>
      assert (Ht : active (timers s0) !! 1%nat
                   = Some {| repeat := false; delay := 500;
                             callback := AIMoveCb |})
        by (vm_compute; reflexivity)
  end.
  split; [eexists; exact Ht|]. split; [exact Hu|].
  exact (ttt_pending_ai_move_survives_reset _ 1%nat _ (1 # 2) Ht Hu).
Defined.

End TicTacToeProps.

(** ** Memory: the deck, the turn and Restart *)

Module MemoryProps.
Import Memory.

Lemma memory_insertById_perm (c : Card) (l : list Card) :
  insertById c l ≡ₚ c :: l.
Proof.
  induction l as [|d l IH]; simpl; [reflexivity|].
  destruct (Qle_bool (id d) (id c)); [|reflexivity].
  rewrite IH. apply Permutation_swap.
Qed.

Lemma memory_sortById_perm (l : list Card) : sortById l ≡ₚ l.
Proof.
  unfold sortById.
  assert (Hgen : forall acc,
            fold_left (fun acc c => insertById c acc) l acc ≡ₚ acc ++ l).
  { induction l as [|c l IH]; intros acc; simpl.
    - rewrite app_nil_r. reflexivity.
    - rewrite IH, memory_insertById_perm.
      simpl. apply Permutation_middle. }
  apply Hgen.
Qed.

Lemma memory_zip_icons (l : list Icon) (rs : list Q) :
  (length l <= length rs)%nat -> icon <$> zip_with mkCard l rs = l.
Proof.
  revert rs. induction l as [|x l IH]; intros rs Hlen; [reflexivity|].
  destruct rs as [|r rs]; simpl in Hlen; [lia|].
  simpl. f_equal. apply IH. lia.
Qed.

Lemma memory_initDeck_paired (rs : list Q) (d : list Card) :
  initDeck rs = Ok d -> (icon <$> d) ≡ₚ icons ++ icons /\ length d = 12%nat.
Proof.
  unfold initDeck. destruct (length rs <? 12)%nat eqn:Hlen; [discriminate|].
  apply Nat.ltb_ge in Hlen.
  pose proof (memory_zip_icons (icons ++ icons) rs Hlen) as Hzip.
  pose proof (length_zip_with mkCard (icons ++ icons) rs) as Hzlen.
  change (length (icons ++ icons)) with 12%nat in Hzlen.
  set (l := zip_with mkCard (icons ++ icons) rs) in *.
  clearbody l. intros Heq. injection Heq as <-.
  rewrite memory_sortById_perm, Hzip. split; [reflexivity | lia].
Qed.

Lemma memory_buildBoard_icons (d : list Card) :
  eicon <$> buildBoard d = icon <$> d.
Proof.
  unfold buildBoard. rewrite <- list_fmap_compose. reflexivity.
Qed.

Lemma memory_alter_icons (g : Elem -> Elem) (i : nat) (cs : list Elem) :
  (forall el, eicon (g el) = eicon el) ->
  eicon <$> alter g i cs = eicon <$> cs.
Proof.
  intros Hg. revert i. induction cs as [|c cs IH]; intros i; [reflexivity|].
  destruct i as [|i]; simpl; [rewrite Hg; reflexivity|].
  f_equal. apply IH.
Qed.

Lemma memory_faceUp_icons (i : nat) (el : Elem) (cs : list Elem) :
  cs !! i = Some el -> eicon <$> <[i := faceUp el]> cs = eicon <$> cs.
Proof.
  intros Hi. rewrite list_fmap_insert. apply list_insert_id.
  rewrite list_lookup_fmap, Hi. reflexivity.
Qed.

(** What a click does when it is taken. *)
Lemma memory_onCardClick_cases (i : nat) (s s' : State) :
  onCardClick i s = Ok s' ->
  s' = s \/
  exists el : Elem,
    cards s !! i = Some el /\ listening el = true /\ flipped el = false /\
    lockBoard s = false /\ firstCard s <> Some i /\
    let cs := <[i := faceUp el]> (cards s) in
    (firstCard s = None /\
     s' = {| deck := deck s; firstCard := Some i;
             secondCard := secondCard s; lockBoard := lockBoard s;
             moves := moves s; movesText := movesText s;
             cards := cs; timers := timers s |})
    \/ (exists f : nat,
          firstCard s = Some f /\ (f < length (cards s))%nat /\
          (s' = disableMatched f i (moves s + 1) cs s
           \/ s' = unflipCards f i (moves s + 1) cs s)).
Proof.
  unfold onCardClick.
  destruct (cards s !! i) as [el|] eqn:Hi;
    [|intros Heq; inversion Heq; left; reflexivity].
  destruct (listening el) eqn:Hl; simpl;
    [|intros Heq; inversion Heq; left; reflexivity].
  destruct (lockBoard s) eqn:Hlock; simpl;
    [intros Heq; inversion Heq; left; reflexivity|].
  destruct (bool_decide (firstCard s = Some i)) eqn:Hsame; simpl;
    [intros Heq; inversion Heq; left; reflexivity|].
  apply bool_decide_eq_false in Hsame.
  destruct (flipped el) eqn:Hf;
    [intros Heq; inversion Heq; left; reflexivity|].
  intros Hs'. right. exists el.
  split; [reflexivity|]. split; [exact Hl|]. split; [exact Hf|].
  split; [reflexivity|]. split; [exact Hsame|]. cbv zeta.
  destruct (firstCard s) as [f|] eqn:Hfirst.
  - right. exists f. split; [reflexivity|].
    destruct (<[i := faceUp el]> (cards s) !! f) as [fe|] eqn:Hfe;
      [|discriminate].
    split.
    + apply lookup_lt_Some in Hfe. rewrite length_insert in Hfe. exact Hfe.
    + destruct (bool_decide _); inversion Hs'; auto.
  - left. inversion Hs'. auto.
Qed.

Lemma memory_step_icons (s s' : State) (e : Event) :
  keepsBoard e = true -> step s e = Ok s' ->
  eicon <$> cards s' = eicon <$> cards s.
Proof.
  destruct e as [i|rs|k]; simpl; try discriminate; intros _.
  - intros Hclick.
    apply memory_onCardClick_cases in Hclick
      as [->|(el & Hi & _ & _ & _ & _ & Hcases)]; [reflexivity|].
    cbv zeta in Hcases.
    destruct Hcases as [[_ ->]|(f & _ & _ & [->| ->])]; simpl.
    + apply memory_faceUp_icons, Hi.
    + rewrite !memory_alter_icons by reflexivity.
      apply memory_faceUp_icons, Hi.
    + apply memory_faceUp_icons, Hi.
  - destruct (fire k (timers s)) as [[[] ts]|].
    + unfold unflip. simpl.
      destruct (firstCard s) as [f|]; [|discriminate].
      destruct (secondCard s) as [g|]; [|discriminate].
      intros Heq; inversion Heq; subst; clear Heq. simpl.
      rewrite !memory_alter_icons by reflexivity. reflexivity.
    + intros Heq; inversion Heq; subst. reflexivity.
    + intros Heq; inversion Heq; subst. reflexivity.
Qed.

Lemma memory_resetGame_paired (s s' : State) (rs : list Q) :
  resetGame s rs = Ok s' -> Paired s' /\ length (cards s') = 12%nat.
Proof.
  unfold resetGame. destruct (initDeck rs) as [d| |] eqn:Hd; simpl;
    try discriminate.
  intros Heq; inversion Heq; subst; clear Heq. unfold Paired. simpl.
  apply memory_initDeck_paired in Hd as [Hperm Hlen].
  rewrite memory_buildBoard_icons. split; [exact Hperm|].
  unfold buildBoard. rewrite length_fmap. exact Hlen.
Qed.

Lemma memory_step_paired (s s' : State) (e : Event) :
  Paired s /\ length (cards s) = 12%nat -> step s e = Ok s' ->
  Paired s' /\ length (cards s') = 12%nat.
Proof.
  intros [Hp Hlen] Hstep.
  destruct (keepsBoard e) eqn:He.
  - pose proof (memory_step_icons s s' e He Hstep) as Hicons.
    unfold Paired. rewrite Hicons. split; [exact Hp|].
    rewrite <- (length_fmap eicon), Hicons, length_fmap. exact Hlen.
  - destruct e as [i|rs|k]; try discriminate.
    exact (memory_resetGame_paired s s' rs Hstep).
Qed.

Lemma memory_run_kept (P : State -> Prop) :
  (forall s s' e, P s -> step s e = Ok s' -> P s') ->
  forall es s s', P s -> run s es = Ok s' -> P s'.
Proof.
  intros Hstep es. induction es as [|e es IH]; intros s s' Hs; simpl.
  - intros Heq; inversion Heq; subst. exact Hs.
  - destruct (step s e) as [s1| |] eqn:Hs1; simpl; try discriminate.
    apply IH. eapply Hstep; eassumption.
Qed.

(** X27: in every state Memory reaches from page load there are twelve
    cards and every symbol is on exactly two of them (the symbols of the
    cards are a permutation of the six symbols taken twice), whatever the
    draws of the shuffles. *)
Theorem memory_every_symbol_on_two_cards (rs : list Q) (es : list Event)
    (s0 s : State) :
  initial rs = Ok s0 ->
  run s0 es = Ok s ->
  Paired s /\ length (cards s) = 12%nat.
Proof.
  intros Hinit.
  apply (memory_run_kept
           (fun s => Paired s /\ length (cards s) = 12%nat)
           memory_step_paired).
  exact (memory_resetGame_paired _ _ _ Hinit).
Qed.

Lemma memory_step_turn (s s' : State) (e : Event) :
  TurnCards s /\ OneOpen s -> step s e = Ok s' ->
  TurnCards s' /\ OneOpen s'.
Proof.
  intros [Hturn Hopen]. destruct e as [i|rs|k]; simpl.
  - intros Hclick.
    apply memory_onCardClick_cases in Hclick
      as [->|(el & Hi & Hl & Hf & Hlock & Hne & Hcases)];
      [split; assumption|].
    cbv zeta in Hcases.
    pose proof (Hopen Hlock) as Hsecond.
    assert (Hold : forall j ej,
              <[i := faceUp el]> (cards s) !! j = Some ej ->
              flipped ej = true -> listening ej = true ->
              j = i \/ firstCard s = Some j).
    { intros j ej Hj Hfj Hlj.
      apply list_lookup_insert_Some in Hj as [(-> & _ & _)|[Hji Hj]];
        [left; reflexivity|].
      right. destruct (Hturn j ej Hj Hfj Hlj) as [H1|H2];
        [exact H1 | congruence]. }
    destruct Hcases as [[Hnone ->]|(f & Hfirst & Hlt & [->| ->])].
    + split.
      * intros j ej Hj Hfj Hlj. simpl in *.
        destruct (Hold j ej Hj Hfj Hlj) as [->|H1];
          [left; reflexivity | congruence].
      * intros HL. simpl in *. exact Hsecond.
    + split; [|intros _; reflexivity].
      intros j ej Hj Hfj Hlj. simpl in Hj. exfalso.
      destruct (decide (j = i)) as [->|Hji].
      * rewrite list_lookup_alter_eq in Hj.
        destruct (alter unlisten f (<[i:=faceUp el]> (cards s)) !! i)
          as [x|]; simpl in Hj; [|discriminate].
        inversion Hj; subst. discriminate Hlj.
      * rewrite list_lookup_alter_ne in Hj by congruence.
        destruct (decide (j = f)) as [->|Hjf].
        -- rewrite list_lookup_alter_eq in Hj.
           destruct (<[i:=faceUp el]> (cards s) !! f) as [x|];
             simpl in Hj; [|discriminate].
           inversion Hj; subst. discriminate Hlj.
        -- rewrite list_lookup_alter_ne in Hj by congruence.
           destruct (Hold j ej Hj Hfj Hlj) as [->|H1]; congruence.
    + split; [|discriminate].
      intros j ej Hj Hfj Hlj. simpl in *.
      destruct (Hold j ej Hj Hfj Hlj) as [->|H1];
        [right; reflexivity | left; congruence].
  - unfold resetGame. destruct (initDeck rs) as [d| |]; simpl;
      try discriminate.
    intros Heq; inversion Heq; subst; clear Heq.
    split; [|intros _; reflexivity].
    intros j ej Hj Hfj _. simpl in Hj. unfold buildBoard in Hj.
    rewrite list_lookup_fmap in Hj.
    destruct (d !! j); simpl in Hj; [|discriminate].
    inversion Hj; subst. discriminate Hfj.
  - destruct (fire k (timers s)) as [[[] ts]|].
    + unfold unflip. simpl.
      destruct (firstCard s) as [f|] eqn:Hfirst; [|discriminate].
      destruct (secondCard s) as [g|] eqn:Hsecond; [|discriminate].
      intros Heq; inversion Heq; subst; clear Heq.
      split; [|intros _; reflexivity].
      intros j ej Hj Hfj Hlj. simpl in Hj. exfalso.
      destruct (decide (j = g)) as [->|Hjg].
      * rewrite list_lookup_alter_eq in Hj.
        destruct (alter faceDown f (cards s) !! g) as [x|];
          simpl in Hj; [|discriminate].
        inversion Hj; subst. discriminate Hfj.
      * rewrite list_lookup_alter_ne in Hj by congruence.
        destruct (decide (j = f)) as [->|Hjf].
        -- rewrite list_lookup_alter_eq in Hj.
           destruct (cards s !! f) as [x|]; simpl in Hj; [|discriminate].
           inversion Hj; subst. discriminate Hfj.
        -- rewrite list_lookup_alter_ne in Hj by congruence.
           destruct (Hturn j ej Hj Hfj Hlj); congruence.
    + intros Heq; inversion Heq; subst. split; assumption.
    + intros Heq; inversion Heq; subst. split; assumption.
Qed.

(** X28: in every state Memory reaches from page load, a card that is
    face up and not matched yet is the first or the second card of the
    current turn: at most two unmatched cards are ever face up. *)
Theorem memory_face_up_cards_are_turn_cards (rs : list Q)
    (es : list Event) (s0 s : State) :
  initial rs = Ok s0 ->
  run s0 es = Ok s ->
  TurnCards s.
Proof.
  intros Hinit Hrun.
  apply (memory_run_kept
           (fun s => TurnCards s /\ OneOpen s) memory_step_turn es s0 s);
    [|exact Hrun].
  unfold initial, resetGame in Hinit.
  destruct (initDeck rs) as [d| |]; simpl in Hinit; try discriminate.
  inversion Hinit; subst; clear Hinit.
  split; [|intros _; reflexivity].
  intros j ej Hj Hfj _. simpl in Hj. unfold buildBoard in Hj.
  rewrite list_lookup_fmap in Hj.
  destruct (d !! j); simpl in Hj; [|discriminate].
  inversion Hj; subst. discriminate Hfj.
Qed.

(** X29: Restart does not cancel a pending unflip.  Whatever the state,
    if the timeout of [unflipCards] is pending, then after Restart it is
    still pending, with [firstCard] and [secondCard] set to [null] by
    [resetTurn], and fired in that state its callback throws on
    [firstCard.classList].  The callback reads the two variables when it
    runs: in any state where the timeout is pending it throws while one of
    them is [null], and once both hold a card again (two cards clicked
    after Restart) it returns, turns those two cards face down and clears
    the turn. *)
Theorem memory_pending_unflip_survives_restart (s : State) (k : nat)
    (t : Task Callback) (rs : list Q) :
  active (timers s) !! k = Some t ->
  callback t = UnflipCb ->
  (12 <= length rs)%nat ->
  (exists s1 : State,
     resetGame s rs = Ok s1 /\
     active (timers s1) !! k = Some t /\
     firstCard s1 = None /\ secondCard s1 = None /\
     step s1 (Fire k) = TypeError) /\
  forall s2 : State,
    active (timers s2) !! k = Some t ->
    (firstCard s2 = None \/ secondCard s2 = None ->
     step s2 (Fire k) = TypeError) /\
    forall f g : nat,
      firstCard s2 = Some f -> secondCard s2 = Some g ->
      exists s3 : State,
        step s2 (Fire k) = Ok s3 /\
        cards s3 = alter faceDown g (alter faceDown f (cards s2)) /\
        firstCard s3 = None /\ secondCard s3 = None /\
        lockBoard s3 = false /\ moves s3 = moves s2.
Proof.
  intros Ht Hcb Hlen. split.
  - unfold resetGame, initDeck.
    destruct (length rs <? 12)%nat eqn:Hlt; [apply Nat.ltb_lt in Hlt; lia|].
    simpl. eexists. split; [reflexivity|]. simpl.
    split; [exact Ht|]. split; [reflexivity|]. split; [reflexivity|].
    unfold fire. simpl. rewrite Ht, Hcb. reflexivity.
  - intros s2 Ht2. cbn [step]. unfold fire. rewrite Ht2, Hcb.
    unfold unflip. split.
    + intros [Hf | Hg]; simpl; rewrite ?Hf, ?Hg;
        [reflexivity | destruct (firstCard s2); reflexivity].
    + intros f g Hf Hg. simpl. rewrite Hf, Hg.
      eexists. split; [reflexivity|]. simpl. repeat split.
Qed.

Lemma memory_step_tidy (s : State) (e : Event) :
  Tidy s -> keepsBoard e = true ->
  exists s' : State, step s e = Ok s' /\ Tidy s'.
Proof.
  intros Htidy He. pose proof Htidy as (Hin & Hlocked & Hquiet & Hone & Hshot).
  destruct e as [i|rs|k]; simpl in He; try discriminate; simpl.
  - destruct (onCardClick i s) as [s'| |] eqn:Hclick.
    + exists s'. split; [reflexivity|].
      apply memory_onCardClick_cases in Hclick
        as [->|(el & Hi & _ & _ & Hlock & _ & Hcases)];
        [exact Htidy|].
      cbv zeta in Hcases.
      destruct Hcases as [[Hnone ->]|(f & Hfirst & Hlt & [->| ->])].
      * unfold Tidy. simpl. rewrite length_insert.
        split; [intros f Hf; inversion Hf; subst;
                eapply lookup_lt_Some, Hi|].
        split; [intros HL; congruence|].
        split; [exact Hquiet|]. split; [exact Hone | exact Hshot].
      * unfold Tidy, disableMatched. simpl.
        split; [discriminate|]. split; [discriminate|].
        assert (Hall : forall j x,
                  active
                    (if forallb flipped
                          (alter unlisten i
                             (alter unlisten f
                                (<[i:=faceUp el]> (cards s))))
                     then snd (setTimeout AlertCb 200 (timers s))
                     else timers s) !! j = Some x ->
                  callback x = AlertCb /\ repeat x = false).
        { intros j x. destruct (forallb _ _); simpl.
          - intros Hx.
            apply lookup_insert_Some in Hx as [[_ <-]|[_ Hx]];
              [split; reflexivity|].
            split; [exact (Hquiet Hlock j x Hx) | exact (Hshot j x Hx)].
          - intros Hx.
            split; [exact (Hquiet Hlock j x Hx) | exact (Hshot j x Hx)]. }
        split; [intros _ j x Hx; apply (Hall j x Hx)|].
        split; [|intros j x Hx; apply (Hall j x Hx)].
        intros j j' x x' Hx _ Hc _.
        destruct (Hall j x Hx) as [Ha _]. congruence.
      * unfold Tidy, unflipCards. simpl. rewrite length_insert.
        split; [intros f' Hf'; inversion Hf'; subst; exact Hlt|].
        split; [intros _; split; eexists; reflexivity|].
        split; [discriminate|].
        split.
        -- intros j j' x x' Hx Hx' Hc Hc'.
           apply lookup_insert_Some in Hx as [[<- _]|[_ Hx]];
             [|pose proof (Hquiet Hlock j x Hx); congruence].
           apply lookup_insert_Some in Hx' as [[<- _]|[_ Hx']];
             [reflexivity|pose proof (Hquiet Hlock j' x' Hx'); congruence].
        -- intros j x Hx.
           apply lookup_insert_Some in Hx as [[_ <-]|[_ Hx]];
             [reflexivity | exact (Hshot j x Hx)].
    + exfalso. unfold onCardClick in Hclick.
      destruct (cards s !! i) as [el|] eqn:Hi; [|discriminate].
      destruct (negb (listening el)); [discriminate|].
      destruct (_ || _); [discriminate|].
      destruct (firstCard s) as [f|] eqn:Hfirst; [|discriminate].
      destruct (lookup_lt_is_Some_2 (<[i:=faceUp el]> (cards s)) f)
        as [fe Hfe]; [rewrite length_insert; apply Hin; reflexivity|].
      rewrite Hfe in Hclick. destruct (bool_decide _); discriminate.
    + exfalso. unfold onCardClick in Hclick.
      destruct (cards s !! i) as [el|]; [|discriminate].
      destruct (negb (listening el)); [discriminate|].
      destruct (_ || _); [discriminate|].
      destruct (firstCard s) as [f|]; [|discriminate].
      destruct (_ !! f); [|discriminate].
      destruct (bool_decide _); discriminate.
  - unfold fire. destruct (active (timers s) !! k) as [t|] eqn:Ht;
      [|exists s; split; [reflexivity | exact Htidy]].
    rewrite (Hshot k t Ht).
    assert (Hsub : forall j x,
              delete k (active (timers s)) !! j = Some x ->
              j <> k /\ active (timers s) !! j = Some x)
      by (intros j x Hx; apply lookup_delete_Some in Hx as [Hne Hx];
          split; [congruence | exact Hx]).
    destruct (callback t) eqn:Hcb.
    + assert (Hlock : lockBoard s = true).
      { destruct (lockBoard s) eqn:Hl; [reflexivity|].
        pose proof (Hquiet eq_refl k t Ht). congruence. }
      destruct (Hlocked Hlock) as [[f Hf] [g Hg]].
      unfold unflip. simpl. rewrite Hf, Hg.
      eexists. split; [reflexivity|]. unfold Tidy. simpl.
      split; [discriminate|]. split; [discriminate|].
      split.
      { intros _ j x Hx. destruct (Hsub j x Hx) as [Hne Hx'].
        destruct (callback x) eqn:Hcx; [|reflexivity].
        exfalso. apply Hne. exact (Hone j k x t Hx' Ht Hcx Hcb). }
      split.
      { intros j j' x x' Hx Hx' Hc Hc'.
        destruct (Hsub j x Hx) as [_ Hy].
        destruct (Hsub j' x' Hx') as [_ Hy'].
        exact (Hone j j' x x' Hy Hy' Hc Hc'). }
      intros j x Hx. destruct (Hsub j x Hx) as [_ Hy].
      exact (Hshot j x Hy).
    + eexists. split; [reflexivity|]. unfold Tidy. simpl.
      split; [exact Hin|]. split; [exact Hlocked|].
      split.
      { intros HL j x Hx. destruct (Hsub j x Hx) as [_ Hy].
        exact (Hquiet HL j x Hy). }
      split.
      { intros j j' x x' Hx Hx' Hc Hc'.
        destruct (Hsub j x Hx) as [_ Hy].
        destruct (Hsub j' x' Hx') as [_ Hy'].
        exact (Hone j j' x x' Hy Hy' Hc Hc'). }
      intros j x Hx. destruct (Hsub j x Hx) as [_ Hy].
      exact (Hshot j x Hy).
Qed.

(** X30: without Restart, Memory never throws: from page load, every
    sequence of card clicks and timeouts runs to a state.  The unflip
    callback only runs while both cards of the turn are set. *)
Theorem memory_never_throws_without_restart (rs : list Q)
    (es : list Event) (s0 : State) :
  initial rs = Ok s0 ->
  Forall (fun e => keepsBoard e = true) es ->
  exists s : State, run s0 es = Ok s.
Proof.
  intros Hinit Hes.
  assert (Htidy : Tidy s0).
  { unfold initial, resetGame in Hinit.
    destruct (initDeck rs) as [d| |]; simpl in Hinit; try discriminate.
    inversion Hinit; subst; clear Hinit. unfold Tidy. simpl.
    split; [discriminate|]. split; [discriminate|].
    split; [intros _ j x Hx; rewrite lookup_empty in Hx; discriminate|].
    split; [intros j j' x x' Hx; rewrite lookup_empty in Hx; discriminate|].
    intros j x Hx. rewrite lookup_empty in Hx. discriminate. }
  clear Hinit. revert s0 Htidy.
  induction Hes as [|e es He Hes IH]; intros s0 Htidy; simpl.
  - exists s0. reflexivity.
  - destruct (memory_step_tidy s0 e Htidy He) as (s1 & Hs1 & Htidy1).
    rewrite Hs1. simpl. apply IH, Htidy1.
Qed.

(** A pair of apples found on the ordered deck. *)
Lemma memory_every_symbol_on_two_cards_witness :
  exists s0 s : State,
    freshPage = Ok s0 /\
    run s0 [ClickCard 0; ClickCard 6] = Ok s /\
    moves s = 1 /\
    Paired s /\ length (cards s) = 12%nat.
Proof.
  do 2 eexists.
  lazymatch goal with
  | |- ?r0 = Ok ?s0 /\ _ =>
      assert (H0 : r0 = Ok s0) by (vm_compute; reflexivity)
  end.
  split; [exact H0|].
  lazymatch goal with
  | |- ?r = Ok ?s /\ _ =>
      assert (Hrun : r = Ok s) by (vm_compute; reflexivity)
  end.
  split; [exact Hrun|]. split; [reflexivity|].
  exact (memory_every_symbol_on_two_cards _ _ _ _ H0 Hrun).
Defined.

(** An apple and a banana turned up: the board is locked on them. *)
Lemma memory_face_up_cards_are_turn_cards_witness :
  exists s0 s : State,
    freshPage = Ok s0 /\
    run s0 [ClickCard 0; ClickCard 1] = Ok s /\
    (firstCard s = Some 0%nat /\ secondCard s = Some 1%nat /\
     lockBoard s = true) /\
    TurnCards s.
Proof.
  do 2 eexists.
  lazymatch goal with
  | |- ?r0 = Ok ?s0 /\ _ =>
      assert (H0 : r0 = Ok s0) by (vm_compute; reflexivity)
  end.
  split; [exact H0|].
  lazymatch goal with
  | |- ?r = Ok ?s /\ _ =>
      assert (Hrun : r = Ok s) by (vm_compute; reflexivity)
  end.
  split; [exact Hrun|]. split; [repeat split; reflexivity|].
  exact (memory_face_up_cards_are_turn_cards _ _ _ _ H0 Hrun).
Defined.

(** Restart while the first two cards wait to be turned back: fired right
    after Restart, the old timeout throws.  With two other mismatched
    cards clicked after Restart, the old timeout (timer 1) returns and
    turns them face down itself; the timeout of the new turn (timer 2)
    then finds [firstCard] cleared and throws. *)
Lemma memory_pending_unflip_survives_restart_witness :
  exists s0 s s1 s2 s3 : State,
    freshPage = Ok s0 /\
    run s0 [ClickCard 0; ClickCard 1] = Ok s /\
    active (timers s) !! 1%nat
    = Some {| repeat := false; delay := 1000; callback := UnflipCb |} /\
    (12 <= length ordered)%nat /\
    resetGame s ordered = Ok s1 /\
    step s1 (Fire 1) = TypeError /\
    run s1 [ClickCard 2; ClickCard 3] = Ok s2 /\
    firstCard s2 = Some 2%nat /\ secondCard s2 = Some 3%nat /\
    (flipped <$> cards s2 !! 2%nat) = Some true /\
    step s2 (Fire 1) = Ok s3 /\
    (flipped <$> cards s3 !! 2%nat) = Some false /\
    (flipped <$> cards s3 !! 3%nat) = Some false /\
    step s3 (Fire 2) = TypeError.
Proof.
  do 5 eexists.
  lazymatch goal with
  | |- ?r0 = Ok ?s0 /\ _ =>
      assert (H0 : r0 = Ok s0) by (vm_compute; reflexivity)
  end.
  split; [exact H0|].
  lazymatch goal with
  | |- ?r = Ok ?s /\ _ =>
      assert (Hrun : r = Ok s) by (vm_compute; reflexivity)
  end.
  split; [exact Hrun|].
  lazymatch goal with
  | |- ?l = Some ?t /\ _ =>
      assert (Ht : l = Some t) by (vm_compute; reflexivity)
  end.
  split; [exact Ht|].
  assert (Hlen : (12 <= length ordered)%nat) by (vm_compute; lia).
  split; [exact Hlen|].
  destruct (memory_pending_unflip_survives_restart _ 1%nat _ ordered
              Ht eq_refl Hlen) as [(s1 & Hs1 & Ht1 & _ & _ & Hthrow) Hlater].
  lazymatch goal with
  | |- ?r = Ok ?x /\ _ =>
      assert (Hs1' : r = Ok x) by (vm_compute; reflexivity)
  end.
  split; [exact Hs1'|].
  assert (He : s1 = _) by (rewrite Hs1 in Hs1'; injection Hs1' as He; exact He).
  rewrite He in Hthrow, Ht1.
  split; [exact Hthrow|].
  lazymatch goal with
  | |- ?r = Ok ?x /\ _ =>
      assert (Hs2 : r = Ok x) by (vm_compute; reflexivity)
  end.
  split; [exact Hs2|].
  split; [reflexivity|]. split; [reflexivity|]. split; [reflexivity|].
  lazymatch goal with
  | |- step ?s2 _ = _ /\ _ =>
      assert (Ht2 : active (timers s2) !! 1%nat
                    = Some {| repeat := false; delay := 1000;
                              callback := UnflipCb |})
        by (vm_compute; reflexivity);
      destruct (Hlater s2 Ht2) as [_ Hboth];
      destruct (Hboth 2%nat 3%nat eq_refl eq_refl)
        as (s3 & Hs3 & Hcards & Hf3 & _)
  end.
  lazymatch goal with
  | |- ?r = Ok ?x /\ _ =>
      assert (Hs3' : r = Ok x) by (vm_compute; reflexivity)
  end.
  split; [exact Hs3'|].
  split; [vm_compute; reflexivity|]. split; [vm_compute; reflexivity|].
  vm_compute. reflexivity.
Defined.

(** A mismatch turned back, then a pair found. *)
Lemma memory_never_throws_without_restart_witness :
  exists s0 : State,
    freshPage = Ok s0 /\
    Forall (fun e => keepsBoard e = true)
      [ClickCard 0; ClickCard 1; Fire 1; ClickCard 0; ClickCard 6] /\
    exists s : State,
      run s0 [ClickCard 0; ClickCard 1; Fire 1; ClickCard 0; ClickCard 6]
      = Ok s.
Proof.
  eexists.
  lazymatch goal with
  | |- ?r0 = Ok ?s0 /\ _ =>
      assert (H0 : r0 = Ok s0) by (vm_compute; reflexivity)
  end.
  split; [exact H0|].
  assert (Hes : Forall (fun e => keepsBoard e = true)
                  [ClickCard 0; ClickCard 1; Fire 1; ClickCard 0;
                   ClickCard 6])
    by (repeat (apply List.Forall_cons; [reflexivity|]);
        apply List.Forall_nil).
  split; [exact Hes|].
  exact (memory_never_throws_without_restart _ _ _ H0 Hes).
Defined.

End MemoryProps.
